(** * codex-sdk-go: the execution engine, embedded and verified

    A shallow embedding of the process runner ([Exec.Run] and its [waitFn]),
    the event and item decoders ([ThreadEvent.UnmarshalJSON],
    [unmarshalThreadItem]), the background stream task
    ([runStreamedInternal]) and the turn aggregator ([Thread.Run]) of the Go
    SDK, followed by the theorems that settle the properties stated about
    them; then the options, the command line and the environment of the
    process, the search for the binary, the input of a turn, the output
    schema and its file, and the properties the code shows for them.

    Conventions.
    - A Go [string] or [[]byte] is a [string] of this library: a sequence of
      8-bit characters, hence a byte string.
    - A Go [error] value that may be [nil] is an [option error].
    - Identity of error values ([==] on interface values, as [errors.Is] uses
      it) is structural equality of the embedded value.
    - Goroutines are sequentialised; every choice the Go scheduler makes is an
      explicit field of a [Schedule] or, for the copy of the standard error,
      of the [Process].  *)

From Stdlib Require Import ZArith List Bool Lia Ascii String DecimalString.
From Stdlib Require Import Sorted Permutation.
Import ListNotations.
Local Open Scope string_scope.
Local Open Scope bool_scope.
Local Set Warnings "-register-all".

(* ================================================================= *)
(** ** Byte strings *)

Definition code (c : ascii) : N := N_of_ascii c.

(** The newline delimiter ['\n'] and the double quote. *)
Definition LF : ascii := ascii_of_N 10.
Definition DQ : ascii := ascii_of_N 34.

Fixpoint revOnto (s acc : string) : string :=
  match s with
  | EmptyString => acc
  | String c r => revOnto r (String c acc)
  end.

Definition reverse (s : string) : string := revOnto s "".

(** [unicode.IsSpace] on the UTF-8 encodings of the white-space runes:
    one byte for TAB, LF, VT, FF, CR and SPACE; two for U+0085 and U+00A0;
    three for U+1680, U+2000..U+200A, U+2028, U+2029, U+202F, U+205F and
    U+3000. *)
Definition isSpace1 (a : ascii) : bool :=
  let n := code a in (((9 <=? n) && (n <=? 13)) || (n =? 32))%N.

Definition isSpace2 (a b : ascii) : bool :=
  ((code a =? 194) && ((code b =? 133) || (code b =? 160)))%N.

Definition isSpace3 (a b c : ascii) : bool :=
  (((code a =? 225) && (code b =? 154) && (code c =? 128))
   || ((code a =? 226) && (code b =? 128)
       && (((128 <=? code c) && (code c <=? 138))
           || (code c =? 168) || (code c =? 169) || (code c =? 175)))
   || ((code a =? 226) && (code b =? 129) && (code c =? 159))
   || ((code a =? 227) && (code b =? 128) && (code c =? 128)))%N.

(** Drops leading white space; [sp2] and [sp3] recognise the two- and
    three-byte runes in the order the bytes are met. *)
Fixpoint trimLeftBy (sp2 : ascii -> ascii -> bool)
    (sp3 : ascii -> ascii -> ascii -> bool) (s : string) : string :=
  match s with
  | EmptyString => s
  | String a r1 =>
      if isSpace1 a then trimLeftBy sp2 sp3 r1
      else
        match r1 with
        | EmptyString => s
        | String b r2 =>
            if sp2 a b then trimLeftBy sp2 sp3 r2
            else
              match r2 with
              | EmptyString => s
              | String c r3 => if sp3 a b c then trimLeftBy sp2 sp3 r3 else s
              end
        end
  end.

(** [strings.TrimSpace] and [bytes.TrimSpace]: leading and trailing white
    space removed; the trailing side is trimmed on the reversed string, where
    the bytes of a rune are met last byte first. *)
Definition TrimSpace (s : string) : string :=
  reverse
    (trimLeftBy (fun a b => isSpace2 b a) (fun a b c => isSpace3 c b a)
       (reverse (trimLeftBy isSpace2 isSpace3 s))).

(** [%d] of [fmt]. *)
Definition itoa (z : Z) : string := NilZero.string_of_int (Z.to_int z).

(* ================================================================= *)
(** ** Errors *)

(** [os.ProcessState] as far as [ExitCode] and [String] read it. *)
Inductive ProcessState : Type :=
| Exited (status : Z)
| Signaled (signal : string).

(** [ProcessState.ExitCode]: the exit status, or -1 for a process that a
    signal terminated. *)
Definition ProcessState_ExitCode (st : ProcessState) : Z :=
  match st with
  | Exited status => status
  | Signaled _ => (-1)%Z
  end.

Definition ProcessState_String (st : ProcessState) : string :=
  match st with
  | Exited status => "exit status " ++ itoa status
  | Signaled signal => "signal: " ++ signal
  end.

(** The error values that reach the engine.  [wrapError] is what
    [fmt.Errorf] builds for a format with one [%w]; [ErrExecFailed] is the
    struct of that name, its [Err] field possibly [nil]. *)
Inductive error : Type :=
| context_Canceled
| context_DeadlineExceeded
| io_EOF
| errorString (s : string)
| wrapError (msg : string) (err : error)
| ExitError (state : ProcessState)
| ErrExecFailed (ExitCode : Z) (Stderr : string) (Err : option error)
| PathError (msg : string)
| jsonError (msg : string).

(** The [Error] methods. *)
Definition Error (e : error) : string :=
  match e with
  | context_Canceled => "context canceled"
  | context_DeadlineExceeded => "context deadline exceeded"
  | io_EOF => "EOF"
  | errorString s => s
  | wrapError msg _ => msg
  | ExitError st => ProcessState_String st
  | ErrExecFailed c stderr _ =>
      if String.eqb stderr "" then "codex exec exited with code " ++ itoa c
      else "codex exec exited with code " ++ itoa c ++ ": " ++ stderr
  | PathError msg => msg
  | jsonError msg => msg
  end.

(** [Unwrap]: [wrapError] and [ErrExecFailed] have one, the others none. *)
Definition Unwrap (e : error) : option error :=
  match e with
  | wrapError _ err => Some err
  | ErrExecFailed _ _ err => err
  | _ => None
  end.

Definition ProcessState_eqb (a b : ProcessState) : bool :=
  match a, b with
  | Exited x, Exited y => Z.eqb x y
  | Signaled x, Signaled y => String.eqb x y
  | _, _ => false
  end.

(** [==] on two error values. *)
Fixpoint error_eqb (a b : error) : bool :=
  match a, b with
  | context_Canceled, context_Canceled => true
  | context_DeadlineExceeded, context_DeadlineExceeded => true
  | io_EOF, io_EOF => true
  | errorString x, errorString y => String.eqb x y
  | wrapError m x, wrapError n y => String.eqb m n && error_eqb x y
  | ExitError x, ExitError y => ProcessState_eqb x y
  | ErrExecFailed c s x, ErrExecFailed d t y =>
      Z.eqb c d && String.eqb s t
      && match x, y with
         | Some x', Some y' => error_eqb x' y'
         | None, None => true
         | _, _ => false
         end
  | PathError x, PathError y => String.eqb x y
  | jsonError x, jsonError y => String.eqb x y
  | _, _ => false
  end.

(** [errors.Is err target]: [target] is [err] or a link of its [Unwrap]
    chain. *)
Fixpoint errors_Is (err target : error) : bool :=
  error_eqb err target
  || match err with
     | wrapError _ inner => errors_Is inner target
     | ErrExecFailed _ _ (Some inner) => errors_Is inner target
     | _ => false
     end.

(** [errors.As err &exitErr] for [exitErr : *exec.ExitError]: the first
    [ExitError] of the chain. *)
Fixpoint errors_As_ExitError (err : error) : option ProcessState :=
  match err with
  | ExitError st => Some st
  | wrapError _ inner => errors_As_ExitError inner
  | ErrExecFailed _ _ (Some inner) => errors_As_ExitError inner
  | _ => None
  end.

(** [errors.New msg]. *)
Definition errors_New (msg : string) : error := errorString msg.

(** [fmt.Errorf (prefix + "%w") err]. *)
Definition fmt_Errorf_w (prefix : string) (err : error) : error :=
  wrapError (prefix ++ Error err) err.

(** [fmt.Errorf "%w; wait error: %v" runErr waitErr]: only [runErr] is
    wrapped, [waitErr] contributes its text. *)
Definition fmt_Errorf_wait (runErr waitErr : error) : error :=
  wrapError (Error runErr ++ "; wait error: " ++ Error waitErr) runErr.

(* ================================================================= *)
(** ** The process runner: [Exec.Run] *)

(** What a spawned process does, as [Exec.Run] and its goroutines observe
    it: the bytes of its standard output and the error that ends reading
    them ([None]: end of file); the bytes it writes to its standard error,
    and how many of them the goroutine that copies the pipe into
    [stderrBuf] had read when the pipe was closed under it; the result of
    [cmd.Wait] and the result of writing the prompt to its input.

    [waitFn] calls [cmd.Wait] before it receives from [stderrDone], and
    [cmd.Wait] closes the pipes of the command once the process has exited:
    the copy ends at the end of the text or at that close, whichever comes
    first, so [stderrCopied] may be any number. *)
Record Process : Type := {
  stdoutBytes : string;
  stdoutErr : option error;
  stderrBytes : string;
  stderrCopied : nat;
  cmdWait : option error;
  stdinWrite : option error
}.

(** [stderrBuf.String ()] once [stderrDone] is closed: the bytes copied, a
    prefix of the bytes written, all of them when the copy reached their
    end. *)
Definition stderrBuf (p : Process) : string :=
  substring 0 (stderrCopied p) (stderrBytes p).

(** The [waitFn] closure of [Exec.Run]: [cmd.Wait], then the outcome of the
    input write, then (the copy of the standard error over) the exit
    status. *)
Definition waitFn (p : Process) : option error :=
  let err := cmdWait p in
  match stdinWrite p with
  | Some writeErr => Some (fmt_Errorf_w "write to codex stdin: " writeErr)
  | None =>
      match err with
      | Some e =>
          match errors_As_ExitError e with
          | Some exitErr =>
              let stderrText := TrimSpace (stderrBuf p) in
              Some (ErrExecFailed (ProcessState_ExitCode exitErr) stderrText (Some e))
          | None => Some (fmt_Errorf_w "codex exec failed: " e)
          end
      | None => None
      end
  end.

(** [ExecStream]: [waitOnce] has fired or not, the cached [waitErr], and the
    [waitFn] (possibly [nil]) given as the result it computes when run. *)
Record ExecStream : Type := {
  es_waitOnce : bool;
  es_waitErr : option error;
  es_waitFn : option (option error)
}.

(** [ExecStream.Wait]. *)
Definition ExecStream_Wait (s : ExecStream) : option error * ExecStream :=
  if es_waitOnce s then (es_waitErr s, s)
  else
    let r := match es_waitFn s with
             | Some result => result
             | None => es_waitErr s
             end in
    (r, {| es_waitOnce := true; es_waitErr := r; es_waitFn := es_waitFn s |}).

(** The stream [Exec.Run] returns for a process that started. *)
Definition Exec_Run (p : Process) : ExecStream :=
  {| es_waitOnce := false; es_waitErr := None; es_waitFn := Some (waitFn p) |}.


(* ================================================================= *)
(** ** encoding/json, as the decoders use it *)

(** Results of fallible calls: the value, or the error returned. *)
Inductive result (A : Type) : Type :=
| Ok (a : A)
| Err (e : error).
Arguments Ok {A} a.
Arguments Err {A} e.

Definition bind {A B : Type} (r : result A) (k : A -> result B) : result B :=
  match r with
  | Ok a => k a
  | Err e => Err e
  end.

Notation "x <- r ;; k" := (bind r (fun x => k))
  (at level 61, r at next level, right associativity).

(** A parsed JSON value.  A number keeps its literal; an object keeps its
    members in input order, each with the raw text of its value (what a
    [json.RawMessage] field receives). *)
Inductive json : Type :=
| JNull
| JBool (b : bool)
| JNumber (lit : string)
| JString (s : string)
| JArray (elems : list json)
| JObject (members : list (string * (string * json))).

Definition isJSONSpace (c : ascii) : bool :=
  let n := code c in ((n =? 32) || (n =? 9) || (n =? 10) || (n =? 13))%N.

Fixpoint skipWS (s : string) : string :=
  match s with
  | String c r => if isJSONSpace c then skipWS r else s
  | EmptyString => s
  end.

Fixpoint stripPrefix (p s : string) : option string :=
  match p, s with
  | EmptyString, _ => Some s
  | String a p', String b s' => if Ascii.eqb a b then stripPrefix p' s' else None
  | String _ _, EmptyString => None
  end.

(** The first [n] bytes of [s]. *)
Fixpoint take (n : nat) (s : string) : string :=
  match n, s with
  | S n', String c r => String c (take n' r)
  | _, _ => EmptyString
  end.

(** The text consumed between [before] and its suffix [after]. *)
Definition consumed (before after : string) : string :=
  take (String.length before - String.length after) before.

Definition isDigit (c : ascii) : bool := ((48 <=? code c) && (code c <=? 57))%N.

Definition hexVal (c : ascii) : option N :=
  let n := code c in
  if ((48 <=? n) && (n <=? 57))%N then Some (n - 48)%N
  else if ((97 <=? n) && (n <=? 102))%N then Some (n - 87)%N
  else if ((65 <=? n) && (n <=? 70))%N then Some (n - 55)%N
  else None.

(** Four hexadecimal digits, as after a backslash-u. *)
Definition getu4 (s : string) : option (N * string) :=
  match s with
  | String a (String b (String c (String d r))) =>
      match hexVal a, hexVal b, hexVal c, hexVal d with
      | Some x, Some y, Some z, Some w => Some (x * 4096 + y * 256 + z * 16 + w, r)%N
      | _, _, _, _ => None
      end
  | _ => None
  end.

Definition byte (n : N) : ascii := ascii_of_N n.

(** [utf8.EncodeRune]. *)
Definition encodeRune (r : N) : string :=
  (if r <? 128 then String (byte r) ""
   else if r <? 2048 then
     String (byte (192 + r / 64)) (String (byte (128 + r mod 64)) "")
   else if r <? 65536 then
     String (byte (224 + r / 4096))
       (String (byte (128 + (r / 64) mod 64)) (String (byte (128 + r mod 64)) ""))
   else
     String (byte (240 + r / 262144))
       (String (byte (128 + (r / 4096) mod 64))
          (String (byte (128 + (r / 64) mod 64)) (String (byte (128 + r mod 64)) ""))))%N.

Definition replacementChar : N := 65533.

Definition isSurrogate (r : N) : bool := ((55296 <=? r) && (r <? 57344))%N.

(** A backslash-u escape whose four digits gave [r]: a high surrogate
    followed by an escaped low surrogate is one rune, any other surrogate
    is U+FFFD. *)
Definition unescapeU (r : N) (rest : string) : N * string :=
  if isSurrogate r then
    match rest with
    | String b (String u rest') =>
        if Ascii.eqb b "\" && Ascii.eqb u "u" then
          match getu4 rest' with
          | Some (r2, rest'') =>
              if ((r <? 56320) && (56320 <=? r2) && (r2 <? 57344))%N
              then (((r - 55296) * 1024 + (r2 - 56320) + 65536)%N, rest'')
              else (replacementChar, rest)
          | None => (replacementChar, rest)
          end
        else (replacementChar, rest)
    | _ => (replacementChar, rest)
    end
  else (r, rest).

(** The one-character escapes. *)
Definition unescape1 (e : ascii) : option ascii :=
  let n := code e in
  (if n =? 34 then Some DQ
   else if n =? 92 then Some "\"%char
   else if n =? 47 then Some "/"%char
   else if n =? 98 then Some (byte 8)
   else if n =? 102 then Some (byte 12)
   else if n =? 110 then Some (byte 10)
   else if n =? 114 then Some (byte 13)
   else if n =? 116 then Some (byte 9)
   else None)%N.

(** The body of a string literal, after its opening quote: the decoded
    text and the input after the closing quote.  Bytes above 0x7F are kept
    as they are, which is what Go does for well-formed UTF-8. *)
Fixpoint parseString (fuel : nat) (s acc : string) : option (string * string) :=
  match fuel with
  | O => None
  | S f =>
      match s with
      | EmptyString => None
      | String c r =>
          if Ascii.eqb c DQ then Some (reverse acc, r)
          else if Ascii.eqb c "\" then
            match r with
            | EmptyString => None
            | String e r' =>
                if Ascii.eqb e "u" then
                  match getu4 r' with
                  | Some (n, r'') =>
                      let (rune, r3) := unescapeU n r'' in
                      parseString f r3 (revOnto (encodeRune rune) acc)
                  | None => None
                  end
                else
                  match unescape1 e with
                  | Some x => parseString f r' (String x acc)
                  | None => None
                  end
            end
          else if (code c <? 32)%N then None
          else parseString f r (String c acc)
      end
  end.

Fixpoint skipDigits (s : string) : string :=
  match s with
  | String c r => if isDigit c then skipDigits r else s
  | EmptyString => s
  end.

(** One or more digits. *)
Definition digits1 (s : string) : option string :=
  match s with
  | String c r => if isDigit c then Some (skipDigits r) else None
  | EmptyString => None
  end.

(** The end of a number literal that starts at [s], by the JSON grammar. *)
Definition scanNumber (s : string) : option string :=
  let s1 := match s with
            | String c r => if Ascii.eqb c "-" then r else s
            | EmptyString => s
            end in
  match s1 with
  | String c r =>
      let afterInt :=
        if Ascii.eqb c "0" then Some r
        else if isDigit c then Some (skipDigits r) else None in
      match afterInt with
      | None => None
      | Some s2 =>
          let afterFrac :=
            match s2 with
            | String d r2 => if Ascii.eqb d "." then digits1 r2 else Some s2
            | EmptyString => Some s2
            end in
          match afterFrac with
          | None => None
          | Some s3 =>
              match s3 with
              | String e r3 =>
                  if Ascii.eqb e "e" || Ascii.eqb e "E" then
                    match r3 with
                    | String g r4 =>
                        if Ascii.eqb g "+" || Ascii.eqb g "-" then digits1 r4
                        else digits1 r3
                    | EmptyString => None
                    end
                  else Some s3
              | EmptyString => Some s3
              end
          end
      end
  | EmptyString => None
  end.

(** One JSON value at the head of [s] (no leading white space), and the
    input after it; [parseElems] and [parseMembers] read the rest of an
    array and of an object, entered after white space.  The fuel bounds the
    depth of the calls; [parseJSON] gives more of it than the input has
    bytes. *)
Fixpoint parseValue (fuel : nat) (s : string) : option (json * string) :=
  match fuel with
  | O => None
  | S f =>
      match s with
      | EmptyString => None
      | String c r =>
          if Ascii.eqb c "{" then
            match skipWS r with
            | String d r' =>
                if Ascii.eqb d "}" then Some (JObject [], r')
                else
                  match parseMembers f (String d r') with
                  | Some (ms, rest) => Some (JObject ms, rest)
                  | None => None
                  end
            | EmptyString => None
            end
          else if Ascii.eqb c "[" then
            match skipWS r with
            | String d r' =>
                if Ascii.eqb d "]" then Some (JArray [], r')
                else
                  match parseElems f (String d r') with
                  | Some (es, rest) => Some (JArray es, rest)
                  | None => None
                  end
            | EmptyString => None
            end
          else if Ascii.eqb c DQ then
            match parseString (String.length r) r "" with
            | Some (str, rest) => Some (JString str, rest)
            | None => None
            end
          else if Ascii.eqb c "n" then
            option_map (fun rest => (JNull, rest)) (stripPrefix "ull" r)
          else if Ascii.eqb c "t" then
            option_map (fun rest => (JBool true, rest)) (stripPrefix "rue" r)
          else if Ascii.eqb c "f" then
            option_map (fun rest => (JBool false, rest)) (stripPrefix "alse" r)
          else
            option_map (fun rest => (JNumber (consumed s rest), rest)) (scanNumber s)
      end
  end
with parseElems (fuel : nat) (s : string) : option (list json * string) :=
  match fuel with
  | O => None
  | S f =>
      match parseValue f s with
      | None => None
      | Some (v, rest) =>
          match skipWS rest with
          | String c r =>
              if Ascii.eqb c "," then
                match parseElems f (skipWS r) with
                | Some (vs, rest') => Some (v :: vs, rest')
                | None => None
                end
              else if Ascii.eqb c "]" then Some ([v], r)
              else None
          | EmptyString => None
          end
      end
  end
with parseMembers (fuel : nat) (s : string)
    : option (list (string * (string * json)) * string) :=
  match fuel with
  | O => None
  | S f =>
      match s with
      | String q r0 =>
          if Ascii.eqb q DQ then
            match parseString (String.length r0) r0 "" with
            | None => None
            | Some (key, afterKey) =>
                match skipWS afterKey with
                | String colon r1 =>
                    if Ascii.eqb colon ":" then
                      let start := skipWS r1 in
                      match parseValue f start with
                      | None => None
                      | Some (v, rest) =>
                          let m := (key, (consumed start rest, v)) in
                          match skipWS rest with
                          | String c r =>
                              if Ascii.eqb c "," then
                                match parseMembers f (skipWS r) with
                                | Some (ms, rest') => Some (m :: ms, rest')
                                | None => None
                                end
                              else if Ascii.eqb c "}" then Some ([m], r)
                              else None
                          | EmptyString => None
                          end
                      end
                    else None
                | EmptyString => None
                end
            end
          else None
      | EmptyString => None
      end
  end.

Definition syntaxError : error := jsonError "invalid JSON input".

(** The whole of [data] as one JSON value, white space around it allowed:
    what [json.Unmarshal] checks before it stores anything.  The value
    comes with its own text. *)
Definition parseJSON (data : string) : result (string * json) :=
  let start := skipWS data in
  match parseValue (2 * String.length start + 2) start with
  | Some (v, rest) =>
      match skipWS rest with
      | EmptyString => Ok (consumed start rest, v)
      | String _ _ => Err syntaxError
      end
  | None => Err syntaxError
  end.

Definition kindOf (v : json) : string :=
  match v with
  | JNull => "null"
  | JBool _ => "bool"
  | JNumber _ => "number"
  | JString _ => "string"
  | JArray _ => "array"
  | JObject _ => "object"
  end.

(** [json.UnmarshalTypeError]. *)
Definition typeError (v : json) (goType : string) : error :=
  jsonError ("json: cannot unmarshal " ++ kindOf v ++ " into Go value of type " ++ goType).

Definition lower (c : ascii) : ascii :=
  if ((65 <=? code c) && (code c <=? 90))%N then byte (code c + 32) else c.

Fixpoint lowerString (s : string) : string :=
  match s with
  | EmptyString => EmptyString
  | String c r => String (lower c) (lowerString r)
  end.

(** A key of the input names the field tagged [name] (lower case here):
    exactly, or up to the case of its ASCII letters. *)
Definition fieldIs (name key : string) : bool :=
  String.eqb key name || String.eqb (lowerString key) name.

Fixpoint digitsToZ (s : string) (acc : Z) : option Z :=
  match s with
  | EmptyString => Some acc
  | String c r =>
      if isDigit c then digitsToZ r (acc * 10 + Z.of_N (code c - 48))%Z else None
  end.

(** [strconv.ParseInt lit 10 64]. *)
Definition parseInt (lit : string) : option Z :=
  let z :=
    match lit with
    | EmptyString => None
    | String c r =>
        if Ascii.eqb c "-" then
          match r with
          | EmptyString => None
          | String _ _ => option_map Z.opp (digitsToZ r 0)
          end
        else digitsToZ lit 0
    end in
  match z with
  | Some n => if ((- 2 ^ 63 <=? n) && (n <? 2 ^ 63))%Z then Some n else None
  | None => None
  end.

(** Storing a JSON value into a field that holds [cur]: [null] leaves a
    string, a number, a boolean or a struct as it is and clears a pointer
    or a slice; a value of another kind is a type error. *)
Definition intoString (v : json) (cur : string) : result string :=
  match v with
  | JNull => Ok cur
  | JString s => Ok s
  | _ => Err (typeError v "string")
  end.

Definition intoInt (v : json) (cur : Z) : result Z :=
  match v with
  | JNull => Ok cur
  | JNumber lit =>
      match parseInt lit with
      | Some n => Ok n
      | None => Err (typeError v "int")
      end
  | _ => Err (typeError v "int")
  end.

Definition intoBool (v : json) (cur : bool) : result bool :=
  match v with
  | JNull => Ok cur
  | JBool b => Ok b
  | _ => Err (typeError v "bool")
  end.

(** How a struct type stores the member [key] (raw text [raw], value [v]). *)
Definition Setter (A : Type) : Type := string -> string -> json -> A -> result A.

Definition intoStruct {A : Type} (field : Setter A) (goType : string)
    (v : json) (cur : A) : result A :=
  match v with
  | JNull => Ok cur
  | JObject members =>
      fold_left
        (fun acc m => x <- acc ;; field (fst m) (fst (snd m)) (snd (snd m)) x)
        members (Ok cur)
  | _ => Err (typeError v goType)
  end.

Definition intoPtr {A : Type} (into : json -> A -> result A) (zero : A)
    (v : json) (cur : option A) : result (option A) :=
  match v with
  | JNull => Ok None
  | _ =>
      x <- into v (match cur with Some c => c | None => zero end) ;; Ok (Some x)
  end.

Fixpoint mapM {A B : Type} (f : A -> result B) (l : list A) : result (list B) :=
  match l with
  | [] => Ok []
  | a :: l' => b <- f a ;; bs <- mapM f l' ;; Ok (b :: bs)
  end.

Definition intoSlice {A : Type} (into : json -> A -> result A) (zero : A)
    (goType : string) (v : json) (cur : list A) : result (list A) :=
  match v with
  | JNull => Ok []
  | JArray elems => mapM (fun e => into e zero) elems
  | _ => Err (typeError v goType)
  end.

(** [json.Unmarshal data &x] for [x] of a struct type without methods. *)
Definition json_Unmarshal {A : Type} (field : Setter A) (goType : string)
    (data : string) (x : A) : result A :=
  p <- parseJSON data ;; intoStruct field goType (snd p) x.

(* ================================================================= *)
(** ** Thread items *)

Definition ItemAgentMessage : string := "agent_message".
Definition ItemReasoning : string := "reasoning".
Definition ItemCommandExecution : string := "command_execution".
Definition ItemFileChange : string := "file_change".
Definition ItemMcpToolCall : string := "mcp_tool_call".
Definition ItemWebSearch : string := "web_search".
Definition ItemTodoList : string := "todo_list".
Definition ItemError : string := "error".

Module AgentMessageItem.
Record t : Type := { ID : string; Type_ : string; Text : string }.
Definition zero : t := {| ID := ""; Type_ := ""; Text := "" |}.
Definition field : Setter t := fun key raw v x =>
  if fieldIs "id" key then
    r <- intoString v (ID x) ;; Ok {| ID := r; Type_ := Type_ x; Text := Text x |}
  else if fieldIs "type" key then
    r <- intoString v (Type_ x) ;; Ok {| ID := ID x; Type_ := r; Text := Text x |}
  else if fieldIs "text" key then
    r <- intoString v (Text x) ;; Ok {| ID := ID x; Type_ := Type_ x; Text := r |}
  else Ok x.
End AgentMessageItem.

Module ReasoningItem.
Record t : Type := { ID : string; Type_ : string; Text : string }.
Definition zero : t := {| ID := ""; Type_ := ""; Text := "" |}.
Definition field : Setter t := fun key raw v x =>
  if fieldIs "id" key then
    r <- intoString v (ID x) ;; Ok {| ID := r; Type_ := Type_ x; Text := Text x |}
  else if fieldIs "type" key then
    r <- intoString v (Type_ x) ;; Ok {| ID := ID x; Type_ := r; Text := Text x |}
  else if fieldIs "text" key then
    r <- intoString v (Text x) ;; Ok {| ID := ID x; Type_ := Type_ x; Text := r |}
  else Ok x.
End ReasoningItem.

Module CommandExecutionItem.
Record t : Type := {
  ID : string; Type_ : string; Command : string; AggregatedOutput : string;
  ExitCode : option Z; Status : string
}.
Definition zero : t :=
  {| ID := ""; Type_ := ""; Command := ""; AggregatedOutput := "";
     ExitCode := None; Status := "" |}.
Definition field : Setter t := fun key raw v x =>
  if fieldIs "id" key then
    r <- intoString v (ID x) ;;
    Ok {| ID := r; Type_ := Type_ x; Command := Command x;
          AggregatedOutput := AggregatedOutput x; ExitCode := ExitCode x;
          Status := Status x |}
  else if fieldIs "type" key then
    r <- intoString v (Type_ x) ;;
    Ok {| ID := ID x; Type_ := r; Command := Command x;
          AggregatedOutput := AggregatedOutput x; ExitCode := ExitCode x;
          Status := Status x |}
  else if fieldIs "command" key then
    r <- intoString v (Command x) ;;
    Ok {| ID := ID x; Type_ := Type_ x; Command := r;
          AggregatedOutput := AggregatedOutput x; ExitCode := ExitCode x;
          Status := Status x |}
  else if fieldIs "aggregated_output" key then
    r <- intoString v (AggregatedOutput x) ;;
    Ok {| ID := ID x; Type_ := Type_ x; Command := Command x;
          AggregatedOutput := r; ExitCode := ExitCode x; Status := Status x |}
  else if fieldIs "exit_code" key then
    r <- intoPtr intoInt 0%Z v (ExitCode x) ;;
    Ok {| ID := ID x; Type_ := Type_ x; Command := Command x;
          AggregatedOutput := AggregatedOutput x; ExitCode := r;
          Status := Status x |}
  else if fieldIs "status" key then
    r <- intoString v (Status x) ;;
    Ok {| ID := ID x; Type_ := Type_ x; Command := Command x;
          AggregatedOutput := AggregatedOutput x; ExitCode := ExitCode x;
          Status := r |}
  else Ok x.
End CommandExecutionItem.

Module FileUpdateChange.
Record t : Type := { Path : string; Kind : string }.
Definition zero : t := {| Path := ""; Kind := "" |}.
Definition field : Setter t := fun key raw v x =>
  if fieldIs "path" key then
    r <- intoString v (Path x) ;; Ok {| Path := r; Kind := Kind x |}
  else if fieldIs "kind" key then
    r <- intoString v (Kind x) ;; Ok {| Path := Path x; Kind := r |}
  else Ok x.
End FileUpdateChange.

Module FileChangeItem.
Record t : Type := {
  ID : string; Type_ : string; Changes : list FileUpdateChange.t; Status : string
}.
Definition zero : t := {| ID := ""; Type_ := ""; Changes := []; Status := "" |}.
Definition field : Setter t := fun key raw v x =>
  if fieldIs "id" key then
    r <- intoString v (ID x) ;;
    Ok {| ID := r; Type_ := Type_ x; Changes := Changes x; Status := Status x |}
  else if fieldIs "type" key then
    r <- intoString v (Type_ x) ;;
    Ok {| ID := ID x; Type_ := r; Changes := Changes x; Status := Status x |}
  else if fieldIs "changes" key then
    r <- intoSlice (intoStruct FileUpdateChange.field "FileUpdateChange")
           FileUpdateChange.zero "[]FileUpdateChange" v (Changes x) ;;
    Ok {| ID := ID x; Type_ := Type_ x; Changes := r; Status := Status x |}
  else if fieldIs "status" key then
    r <- intoString v (Status x) ;;
    Ok {| ID := ID x; Type_ := Type_ x; Changes := Changes x; Status := r |}
  else Ok x.
End FileChangeItem.

Module McpContentBlock.
Record t : Type := { Type_ : string; Text : string; Data : string }.
Definition zero : t := {| Type_ := ""; Text := ""; Data := "" |}.
Definition field : Setter t := fun key raw v x =>
  if fieldIs "type" key then
    r <- intoString v (Type_ x) ;; Ok {| Type_ := r; Text := Text x; Data := Data x |}
  else if fieldIs "text" key then
    r <- intoString v (Text x) ;; Ok {| Type_ := Type_ x; Text := r; Data := Data x |}
  else if fieldIs "data" key then
    Ok {| Type_ := Type_ x; Text := Text x; Data := raw |}
  else Ok x.
End McpContentBlock.

Module McpToolResult.
Record t : Type := { Content : list McpContentBlock.t; StructuredContent : string }.
Definition zero : t := {| Content := []; StructuredContent := "" |}.
Definition field : Setter t := fun key raw v x =>
  if fieldIs "content" key then
    r <- intoSlice (intoStruct McpContentBlock.field "McpContentBlock")
           McpContentBlock.zero "[]McpContentBlock" v (Content x) ;;
    Ok {| Content := r; StructuredContent := StructuredContent x |}
  else if fieldIs "structured_content" key then
    Ok {| Content := Content x; StructuredContent := raw |}
  else Ok x.
End McpToolResult.

Module McpToolError.
Record t : Type := { Message : string }.
Definition zero : t := {| Message := "" |}.
Definition field : Setter t := fun key raw v x =>
  if fieldIs "message" key then
    r <- intoString v (Message x) ;; Ok {| Message := r |}
  else Ok x.
End McpToolError.

Module McpToolCallItem.
Record t : Type := {
  ID : string; Type_ : string; Server : string; Tool : string;
  Arguments : string; Result : option McpToolResult.t;
  Error_ : option McpToolError.t; Status : string
}.
Definition zero : t :=
  {| ID := ""; Type_ := ""; Server := ""; Tool := ""; Arguments := "";
     Result := None; Error_ := None; Status := "" |}.
Definition field : Setter t := fun key raw v x =>
  if fieldIs "id" key then
    r <- intoString v (ID x) ;;
    Ok {| ID := r; Type_ := Type_ x; Server := Server x; Tool := Tool x;
          Arguments := Arguments x; Result := Result x; Error_ := Error_ x;
          Status := Status x |}
  else if fieldIs "type" key then
    r <- intoString v (Type_ x) ;;
    Ok {| ID := ID x; Type_ := r; Server := Server x; Tool := Tool x;
          Arguments := Arguments x; Result := Result x; Error_ := Error_ x;
          Status := Status x |}
  else if fieldIs "server" key then
    r <- intoString v (Server x) ;;
    Ok {| ID := ID x; Type_ := Type_ x; Server := r; Tool := Tool x;
          Arguments := Arguments x; Result := Result x; Error_ := Error_ x;
          Status := Status x |}
  else if fieldIs "tool" key then
    r <- intoString v (Tool x) ;;
    Ok {| ID := ID x; Type_ := Type_ x; Server := Server x; Tool := r;
          Arguments := Arguments x; Result := Result x; Error_ := Error_ x;
          Status := Status x |}
  else if fieldIs "arguments" key then
    Ok {| ID := ID x; Type_ := Type_ x; Server := Server x; Tool := Tool x;
          Arguments := raw; Result := Result x; Error_ := Error_ x;
          Status := Status x |}
  else if fieldIs "result" key then
    r <- intoPtr (intoStruct McpToolResult.field "McpToolResult")
           McpToolResult.zero v (Result x) ;;
    Ok {| ID := ID x; Type_ := Type_ x; Server := Server x; Tool := Tool x;
          Arguments := Arguments x; Result := r; Error_ := Error_ x;
          Status := Status x |}
  else if fieldIs "error" key then
    r <- intoPtr (intoStruct McpToolError.field "McpToolError")
           McpToolError.zero v (Error_ x) ;;
    Ok {| ID := ID x; Type_ := Type_ x; Server := Server x; Tool := Tool x;
          Arguments := Arguments x; Result := Result x; Error_ := r;
          Status := Status x |}
  else if fieldIs "status" key then
    r <- intoString v (Status x) ;;
    Ok {| ID := ID x; Type_ := Type_ x; Server := Server x; Tool := Tool x;
          Arguments := Arguments x; Result := Result x; Error_ := Error_ x;
          Status := r |}
  else Ok x.
End McpToolCallItem.

Module WebSearchItem.
Record t : Type := { ID : string; Type_ : string; Query : string }.
Definition zero : t := {| ID := ""; Type_ := ""; Query := "" |}.
Definition field : Setter t := fun key raw v x =>
  if fieldIs "id" key then
    r <- intoString v (ID x) ;; Ok {| ID := r; Type_ := Type_ x; Query := Query x |}
  else if fieldIs "type" key then
    r <- intoString v (Type_ x) ;; Ok {| ID := ID x; Type_ := r; Query := Query x |}
  else if fieldIs "query" key then
    r <- intoString v (Query x) ;; Ok {| ID := ID x; Type_ := Type_ x; Query := r |}
  else Ok x.
End WebSearchItem.

Module TodoItem.
Record t : Type := { Text : string; Completed : bool }.
Definition zero : t := {| Text := ""; Completed := false |}.
Definition field : Setter t := fun key raw v x =>
  if fieldIs "text" key then
    r <- intoString v (Text x) ;; Ok {| Text := r; Completed := Completed x |}
  else if fieldIs "completed" key then
    r <- intoBool v (Completed x) ;; Ok {| Text := Text x; Completed := r |}
  else Ok x.
End TodoItem.

Module TodoListItem.
Record t : Type := { ID : string; Type_ : string; Items : list TodoItem.t }.
Definition zero : t := {| ID := ""; Type_ := ""; Items := [] |}.
Definition field : Setter t := fun key raw v x =>
  if fieldIs "id" key then
    r <- intoString v (ID x) ;; Ok {| ID := r; Type_ := Type_ x; Items := Items x |}
  else if fieldIs "type" key then
    r <- intoString v (Type_ x) ;; Ok {| ID := ID x; Type_ := r; Items := Items x |}
  else if fieldIs "items" key then
    r <- intoSlice (intoStruct TodoItem.field "TodoItem") TodoItem.zero
           "[]TodoItem" v (Items x) ;;
    Ok {| ID := ID x; Type_ := Type_ x; Items := r |}
  else Ok x.
End TodoListItem.

Module ErrorItem.
Record t : Type := { ID : string; Type_ : string; Message : string }.
Definition zero : t := {| ID := ""; Type_ := ""; Message := "" |}.
Definition field : Setter t := fun key raw v x =>
  if fieldIs "id" key then
    r <- intoString v (ID x) ;; Ok {| ID := r; Type_ := Type_ x; Message := Message x |}
  else if fieldIs "type" key then
    r <- intoString v (Type_ x) ;; Ok {| ID := ID x; Type_ := r; Message := Message x |}
  else if fieldIs "message" key then
    r <- intoString v (Message x) ;; Ok {| ID := ID x; Type_ := Type_ x; Message := r |}
  else Ok x.
End ErrorItem.

(** [UnknownItem]: the discriminator as it was read and the payload bytes. *)
Module UnknownItem.
Record t : Type := { ItemType : string; Raw : string }.
End UnknownItem.

(** The [ThreadItem] interface: one case per implementing type. *)
Inductive ThreadItem : Type :=
| AgentMessage (i : AgentMessageItem.t)
| Reasoning (i : ReasoningItem.t)
| CommandExecution (i : CommandExecutionItem.t)
| FileChange (i : FileChangeItem.t)
| McpToolCall (i : McpToolCallItem.t)
| WebSearch (i : WebSearchItem.t)
| TodoList (i : TodoListItem.t)
| ErrorItemOf (i : ErrorItem.t)
| Unknown (i : UnknownItem.t).

(** The [itemType] method. *)
Definition itemType (item : ThreadItem) : string :=
  match item with
  | AgentMessage _ => ItemAgentMessage
  | Reasoning _ => ItemReasoning
  | CommandExecution _ => ItemCommandExecution
  | FileChange _ => ItemFileChange
  | McpToolCall _ => ItemMcpToolCall
  | WebSearch _ => ItemWebSearch
  | TodoList _ => ItemTodoList
  | ErrorItemOf _ => ItemError
  | Unknown i => UnknownItem.ItemType i
  end.

(** The anonymous struct with the one field [Type] tagged [type]. *)
Definition discriminator_field : Setter string := fun key raw v x =>
  if fieldIs "type" key then intoString v x else Ok x.

(** The first phase of [unmarshalThreadItem]: the discriminator alone. *)
Definition discriminatorOf (data : string) : result string :=
  json_Unmarshal discriminator_field "struct" data "".

(** [unmarshalThreadItem]. *)
Definition unmarshalThreadItem (data : string) : result ThreadItem :=
  ty <- discriminatorOf data ;;
  if String.eqb ty ItemAgentMessage then
    item <- json_Unmarshal AgentMessageItem.field "AgentMessageItem" data
              AgentMessageItem.zero ;;
    Ok (AgentMessage item)
  else if String.eqb ty ItemReasoning then
    item <- json_Unmarshal ReasoningItem.field "ReasoningItem" data
              ReasoningItem.zero ;;
    Ok (Reasoning item)
  else if String.eqb ty ItemCommandExecution then
    item <- json_Unmarshal CommandExecutionItem.field "CommandExecutionItem" data
              CommandExecutionItem.zero ;;
    Ok (CommandExecution item)
  else if String.eqb ty ItemFileChange then
    item <- json_Unmarshal FileChangeItem.field "FileChangeItem" data
              FileChangeItem.zero ;;
    Ok (FileChange item)
  else if String.eqb ty ItemMcpToolCall then
    item <- json_Unmarshal McpToolCallItem.field "McpToolCallItem" data
              McpToolCallItem.zero ;;
    Ok (McpToolCall item)
  else if String.eqb ty ItemWebSearch then
    item <- json_Unmarshal WebSearchItem.field "WebSearchItem" data
              WebSearchItem.zero ;;
    Ok (WebSearch item)
  else if String.eqb ty ItemTodoList then
    item <- json_Unmarshal TodoListItem.field "TodoListItem" data
              TodoListItem.zero ;;
    Ok (TodoList item)
  else if String.eqb ty ItemError then
    item <- json_Unmarshal ErrorItem.field "ErrorItem" data ErrorItem.zero ;;
    Ok (ErrorItemOf item)
  else if String.eqb ty "" then
    Err (errorString "thread item missing type discriminator")
  else
    Ok (Unknown {| UnknownItem.ItemType := ty; UnknownItem.Raw := data |}).

(* ================================================================= *)
(** ** Thread events *)

Definition EventThreadStarted : string := "thread.started".
Definition EventTurnStarted : string := "turn.started".
Definition EventTurnCompleted : string := "turn.completed".
Definition EventTurnFailed : string := "turn.failed".
Definition EventItemStarted : string := "item.started".
Definition EventItemUpdated : string := "item.updated".
Definition EventItemCompleted : string := "item.completed".
Definition EventError : string := "error".

Module Usage.
Record t : Type := { InputTokens : Z; CachedInputTokens : Z; OutputTokens : Z }.
Definition zero : t := {| InputTokens := 0; CachedInputTokens := 0; OutputTokens := 0 |}.
Definition field : Setter t := fun key raw v x =>
  if fieldIs "input_tokens" key then
    r <- intoInt v (InputTokens x) ;;
    Ok {| InputTokens := r; CachedInputTokens := CachedInputTokens x;
          OutputTokens := OutputTokens x |}
  else if fieldIs "cached_input_tokens" key then
    r <- intoInt v (CachedInputTokens x) ;;
    Ok {| InputTokens := InputTokens x; CachedInputTokens := r;
          OutputTokens := OutputTokens x |}
  else if fieldIs "output_tokens" key then
    r <- intoInt v (OutputTokens x) ;;
    Ok {| InputTokens := InputTokens x; CachedInputTokens := CachedInputTokens x;
          OutputTokens := r |}
  else Ok x.
End Usage.

Module ThreadError.
Record t : Type := { Message : string }.
Definition zero : t := {| Message := "" |}.
Definition field : Setter t := fun key raw v x =>
  if fieldIs "message" key then
    r <- intoString v (Message x) ;; Ok {| Message := r |}
  else Ok x.
End ThreadError.

Module ThreadEvent.
Record t : Type := {
  Type_ : string;
  ThreadID : string;
  Usage : option Usage.t;
  Error_ : option ThreadError.t;
  Item : option ThreadItem;
  Message : string;
  rawItem : string
}.
Definition zero : t :=
  {| Type_ := ""; ThreadID := ""; Usage := None; Error_ := None; Item := None;
     Message := ""; rawItem := "" |}.
End ThreadEvent.

(** The [aux] struct of [UnmarshalJSON]: the event's own tagged fields (its
    [Item] is tagged out of the encoding) and the raw [item] member. *)
Record eventAux : Type := {
  aux_event : ThreadEvent.t;
  aux_Item : string
}.

Definition aux_field : Setter eventAux := fun key raw v a =>
  let e := aux_event a in
  let withEvent e' := Ok {| aux_event := e'; aux_Item := aux_Item a |} in
  if fieldIs "type" key then
    r <- intoString v (ThreadEvent.Type_ e) ;;
    withEvent
      {| ThreadEvent.Type_ := r; ThreadEvent.ThreadID := ThreadEvent.ThreadID e;
         ThreadEvent.Usage := ThreadEvent.Usage e;
         ThreadEvent.Error_ := ThreadEvent.Error_ e;
         ThreadEvent.Item := ThreadEvent.Item e;
         ThreadEvent.Message := ThreadEvent.Message e;
         ThreadEvent.rawItem := ThreadEvent.rawItem e |}
  else if fieldIs "thread_id" key then
    r <- intoString v (ThreadEvent.ThreadID e) ;;
    withEvent
      {| ThreadEvent.Type_ := ThreadEvent.Type_ e; ThreadEvent.ThreadID := r;
         ThreadEvent.Usage := ThreadEvent.Usage e;
         ThreadEvent.Error_ := ThreadEvent.Error_ e;
         ThreadEvent.Item := ThreadEvent.Item e;
         ThreadEvent.Message := ThreadEvent.Message e;
         ThreadEvent.rawItem := ThreadEvent.rawItem e |}
  else if fieldIs "usage" key then
    r <- intoPtr (intoStruct Usage.field "Usage") Usage.zero v (ThreadEvent.Usage e) ;;
    withEvent
      {| ThreadEvent.Type_ := ThreadEvent.Type_ e;
         ThreadEvent.ThreadID := ThreadEvent.ThreadID e; ThreadEvent.Usage := r;
         ThreadEvent.Error_ := ThreadEvent.Error_ e;
         ThreadEvent.Item := ThreadEvent.Item e;
         ThreadEvent.Message := ThreadEvent.Message e;
         ThreadEvent.rawItem := ThreadEvent.rawItem e |}
  else if fieldIs "error" key then
    r <- intoPtr (intoStruct ThreadError.field "ThreadError") ThreadError.zero v
           (ThreadEvent.Error_ e) ;;
    withEvent
      {| ThreadEvent.Type_ := ThreadEvent.Type_ e;
         ThreadEvent.ThreadID := ThreadEvent.ThreadID e;
         ThreadEvent.Usage := ThreadEvent.Usage e; ThreadEvent.Error_ := r;
         ThreadEvent.Item := ThreadEvent.Item e;
         ThreadEvent.Message := ThreadEvent.Message e;
         ThreadEvent.rawItem := ThreadEvent.rawItem e |}
  else if fieldIs "message" key then
    r <- intoString v (ThreadEvent.Message e) ;;
    withEvent
      {| ThreadEvent.Type_ := ThreadEvent.Type_ e;
         ThreadEvent.ThreadID := ThreadEvent.ThreadID e;
         ThreadEvent.Usage := ThreadEvent.Usage e;
         ThreadEvent.Error_ := ThreadEvent.Error_ e;
         ThreadEvent.Item := ThreadEvent.Item e; ThreadEvent.Message := r;
         ThreadEvent.rawItem := ThreadEvent.rawItem e |}
  else if fieldIs "item" key then
    Ok {| aux_event := e; aux_Item := raw |}
  else Ok a.

Definition aux_zero : eventAux := {| aux_event := ThreadEvent.zero; aux_Item := "" |}.

(** The first step of [UnmarshalJSON]: [json.Unmarshal data &aux]. *)
Definition decodeAux (data : string) : result eventAux :=
  json_Unmarshal aux_field "ThreadEvent" data aux_zero.

(** [ThreadEvent.UnmarshalJSON]: the event is rebuilt from [aux], its
    [rawItem] kept, and a non-empty raw item decoded by
    [unmarshalThreadItem]. *)
Definition ThreadEvent_UnmarshalJSON (data : string) : result ThreadEvent.t :=
  aux <- decodeAux data ;;
  let e := aux_event aux in
  let e :=
    {| ThreadEvent.Type_ := ThreadEvent.Type_ e;
       ThreadEvent.ThreadID := ThreadEvent.ThreadID e;
       ThreadEvent.Usage := ThreadEvent.Usage e;
       ThreadEvent.Error_ := ThreadEvent.Error_ e;
       ThreadEvent.Item := ThreadEvent.Item e;
       ThreadEvent.Message := ThreadEvent.Message e;
       ThreadEvent.rawItem := aux_Item aux |} in
  if (0 <? String.length (aux_Item aux))%nat then
    match unmarshalThreadItem (aux_Item aux) with
    | Err err => Err (fmt_Errorf_w "decode thread item: " err)
    | Ok item =>
        Ok {| ThreadEvent.Type_ := ThreadEvent.Type_ e;
              ThreadEvent.ThreadID := ThreadEvent.ThreadID e;
              ThreadEvent.Usage := ThreadEvent.Usage e;
              ThreadEvent.Error_ := ThreadEvent.Error_ e;
              ThreadEvent.Item := Some item;
              ThreadEvent.Message := ThreadEvent.Message e;
              ThreadEvent.rawItem := ThreadEvent.rawItem e |}
    end
  else Ok e.

(** [json.Unmarshal data &event] for a [ThreadEvent]: the input is checked
    to be one JSON value, whose text is handed to [UnmarshalJSON]. *)
Definition json_Unmarshal_ThreadEvent (data : string) : result ThreadEvent.t :=
  p <- parseJSON data ;; ThreadEvent_UnmarshalJSON (fst p).

(* ================================================================= *)
(** ** The session, the stream task and the aggregator *)

(** [Thread], as far as the engine reads and writes it: the identifier.
    The mutex orders the accesses, which are sequential here. *)
Record Thread : Type := { id : string }.

(** [Codex.StartThread] and [Codex.ResumeThread]. *)
Definition StartThread : Thread := {| id := "" |}.
Definition ResumeThread (savedID : string) : Thread := {| id := savedID |}.

(** [Thread.ID], [Thread.setID] and [Thread.currentID]. *)
Definition ID (t : Thread) : string := id t.

Definition setID (newID : string) (t : Thread) : Thread :=
  if String.eqb newID "" then t else {| id := newID |}.

Definition currentID (t : Thread) : string := id t.

(** [Turn]. *)
Module Turn.
Record t : Type := {
  Items : list ThreadItem;
  FinalResponse : string;
  Usage : option Usage.t
}.
End Turn.

(** The reader over the standard output: the results its successive
    [ReadBytes] calls return, each the bytes read and the error met. *)
Definition ReadResult : Type := (string * option error)%type.
Definition Reader : Type := list ReadResult.

(** [bufio.NewReader stdout] for a pipe that carries [s] and then fails
    with [final] ([io.EOF] at a clean end): one read per line, delimiter
    included, and a last one with what follows the last delimiter. *)
Fixpoint readsOf (s : string) (final : error) : Reader :=
  match s with
  | EmptyString => [("", Some final)]
  | String c r =>
      if Ascii.eqb c LF then (String c "", None) :: readsOf r final
      else
        match readsOf r final with
        | (line, e) :: rest => (String c line, e) :: rest
        | [] => [(String c "", Some final)]
        end
  end.

Definition stdoutReader (p : Process) : Reader :=
  readsOf (stdoutBytes p)
    (match stdoutErr p with Some e => e | None => io_EOF end).

(** [reader.ReadBytes]: the next result; a reader with nothing left gives
    no bytes and [io.EOF]. *)
Definition ReadBytes (r : Reader) : ReadResult * Reader :=
  match r with
  | [] => (("", Some io_EOF), [])
  | x :: r' => (x, r')
  end.

(** What the Go scheduler and the caller decide during one streamed run.
    The task observes the context at the head of each iteration and in
    each [select]; observations are numbered from 0.
    - [cancelAt]: the caller's context is done from this observation on;
    - [ctxCause]: what [ctx.Err] then returns;
    - [lag]: how many further observations pass before a cancellation by
      the consumer is seen;
    - [chooseSend]: the case a [select] takes when the consumer is
      receiving and the context is done. *)
Record Schedule : Type := {
  cancelAt : option nat;
  ctxCause : error;
  lag : nat;
  chooseSend : nat -> bool
}.

(** No cancellation by the caller, the consumer's own seen at once. *)
Definition calm : Schedule :=
  {| cancelAt := None; ctxCause := context_Canceled; lag := 0;
     chooseSend := fun _ => true |}.

(** The state of the background task of [runStreamedInternal]: the thread,
    the events the consumer has received, the number of observations of
    the context made, since when the context is done and with which error,
    and, once the consumer has stopped receiving, the error of the context
    it cancelled. *)
Record TaskState : Type := {
  ts_thread : Thread;
  ts_events : list ThreadEvent.t;
  ts_obs : nat;
  ts_done : option (nat * error);
  ts_gone : option error
}.

(** [ctx.Err] at the current observation. *)
Definition ctx_Err (st : TaskState) : option error :=
  match ts_done st with
  | Some (since, e) => if (since <=? ts_obs st)%nat then Some e else None
  | None => None
  end.

Definition observed (st : TaskState) : TaskState :=
  {| ts_thread := ts_thread st; ts_events := ts_events st;
     ts_obs := S (ts_obs st); ts_done := ts_done st;
     ts_gone := ts_gone st |}.

(** The consumer cancels the context at observation [at_]: it is done from
    then on with [context.Canceled], unless it was done before. *)
Definition cancelFrom (at_ : nat) (done : option (nat * error)) : nat * error :=
  match done with
  | Some (since, e) => if (since <=? at_)%nat then (since, e) else (at_, context_Canceled)
  | None => (at_, context_Canceled)
  end.

(** The consumer receives [event]; when [stop event] holds it cancels the
    context and receives nothing more. *)
Definition deliver (sch : Schedule) (stop : ThreadEvent.t -> bool)
    (event : ThreadEvent.t) (st : TaskState) : TaskState :=
  let cancelled := cancelFrom (ts_obs st + lag sch) (ts_done st) in
  {| ts_thread := ts_thread st;
     ts_events := ts_events st ++ [event];
     ts_obs := ts_obs st;
     ts_done := if stop event then Some cancelled else ts_done st;
     ts_gone := if stop event then Some (snd cancelled) else None |}.

(** The [select] of the loop: the send, or the end of the context.  A
    consumer that stopped has cancelled, so the second case is then the one
    taken, at once or when the cancellation arrives. *)
Definition select (sch : Schedule) (stop : ThreadEvent.t -> bool)
    (event : ThreadEvent.t) (st : TaskState) : TaskState * option error :=
  let st' := observed st in
  match ts_gone st with
  | Some e => (st', Some e)
  | None =>
      match ctx_Err st with
      | Some e => if chooseSend sch (ts_obs st) then (deliver sch stop event st', None)
                  else (st', Some e)
      | None => (deliver sch stop event st', None)
      end
  end.

(** One pass through the part of the loop body that handles the bytes
    just read: [Failed] is the [break] on a line that does not decode,
    [Handled] carries the [runErr] the [select] may have set. *)
Inductive Handling : Type :=
| Failed (st : TaskState) (runErr : error)
| Handled (st : TaskState) (runErr : option error).

Definition handleLine (sch : Schedule) (stop : ThreadEvent.t -> bool)
    (line : string) (st : TaskState) : Handling :=
  let trimmed := TrimSpace line in
  if (0 <? String.length trimmed)%nat then
    match json_Unmarshal_ThreadEvent trimmed with
    | Err err => Failed st (fmt_Errorf_w "parse codex event: " err)
    | Ok event =>
        let st :=
          if String.eqb (ThreadEvent.Type_ event) EventThreadStarted
             && negb (String.eqb (ThreadEvent.ThreadID event) "")
          then {| ts_thread := setID (ThreadEvent.ThreadID event) (ts_thread st);
                  ts_events := ts_events st; ts_obs := ts_obs st;
                  ts_done := ts_done st; ts_gone := ts_gone st |}
          else st in
        let (st', runErr) := select sch stop event st in
        Handled st' runErr
    end
  else Handled st None.

(** The [runErr] the loop ends with after a read that met [readErr]. *)
Definition afterReadErr (readErr : error) (runErr : option error) : option error :=
  if errors_Is readErr io_EOF then runErr
  else
    match runErr with
    | None => Some (fmt_Errorf_w "read codex output: " readErr)
    | Some _ => runErr
    end.

(** Where the loop stops: the state, [runErr] and what was left unread. *)
Record LoopEnd : Type := {
  le_state : TaskState;
  le_runErr : option error;
  le_unread : Reader
}.

(** The [for] loop of the task. *)
Fixpoint readLoop (sch : Schedule) (stop : ThreadEvent.t -> bool)
    (reader : Reader) (st : TaskState) : LoopEnd :=
  match ctx_Err st with
  | Some ctxErr =>
      {| le_state := observed st; le_runErr := Some ctxErr; le_unread := reader |}
  | None =>
      let st := observed st in
      match reader with
      | [] =>
          (* no bytes and io.EOF: nothing to decode, the loop ends *)
          {| le_state := st; le_runErr := None; le_unread := [] |}
      | (line, readErr) :: reader' =>
          match handleLine sch stop line st with
          | Failed st' runErr =>
              {| le_state := st'; le_runErr := Some runErr; le_unread := reader' |}
          | Handled st' runErr =>
              match readErr with
              | Some e =>
                  {| le_state := st'; le_runErr := afterReadErr e runErr;
                     le_unread := reader' |}
              | None =>
                  match runErr with
                  | Some _ =>
                      {| le_state := st'; le_runErr := runErr; le_unread := reader' |}
                  | None => readLoop sch stop reader' st'
                  end
              end
          end
      end
  end.

(** The end of the task: the read error and the error of [stream.Wait]
    made one. *)
Definition reconcile (runErr waitErr : option error) : option error :=
  match runErr with
  | None => waitErr
  | Some re =>
      match waitErr with
      | Some we => if negb (errors_Is re we) then Some (fmt_Errorf_wait re we) else runErr
      | None => runErr
      end
  end.

(** [StreamedTurn]: the events the channel carried until it was closed, the
    buffer of [errCh], which [waitFn] receives from, and the once-guard of
    [Wait] with its cached error. *)
Record StreamedTurn : Type := {
  Events : list ThreadEvent.t;
  errCh : list (option error);
  waitOnce : bool;
  waitErr : option error
}.

(** [StreamedTurn.Wait]; [None] when the receive from [errCh] would block
    for ever. *)
Definition StreamedTurn_Wait (s : StreamedTurn) : option (option error * StreamedTurn) :=
  if waitOnce s then Some (waitErr s, s)
  else
    match errCh s with
    | v :: rest =>
        Some (v, {| Events := Events s; errCh := rest; waitOnce := true; waitErr := v |})
    | [] => None
    end.

(** One streamed run, once its task has ended: the handle, the thread as
    the task left it, what the loop ended with, and the error of
    [stream.Wait]. *)
Record StreamRun : Type := {
  sr_streamed : StreamedTurn;
  sr_thread : Thread;
  sr_loop : LoopEnd;
  sr_waitErr : option error
}.

Definition initialTask (sch : Schedule) (t : Thread) : TaskState :=
  {| ts_thread := t; ts_events := []; ts_obs := 0;
     ts_done := match cancelAt sch with
                | Some since => Some (since, ctxCause sch)
                | None => None
                end;
     ts_gone := None |}.

(** The goroutine of [runStreamedInternal] for the process [p], run to its
    end against a consumer that stops after an event [stop] accepts. *)
Definition streamTask (sch : Schedule) (stop : ThreadEvent.t -> bool)
    (t : Thread) (p : Process) : StreamRun :=
  let stream := Exec_Run p in
  let loop := readLoop sch stop (stdoutReader p) (initialTask sch t) in
  let (waitErr, _) := ExecStream_Wait stream in
  let runErr := reconcile (le_runErr loop) waitErr in
  {| sr_streamed :=
       {| Events := ts_events (le_state loop); errCh := [runErr];
          waitOnce := false; waitErr := None |};
     sr_thread := ts_thread (le_state loop);
     sr_loop := loop;
     sr_waitErr := waitErr |}.

(** [runStreamedInternal]: the error of the schema file, of the input or
    of the start of the process, [startErr], is returned before any task
    runs; otherwise the task runs behind the handle returned. *)
Definition runStreamedInternal (sch : Schedule) (stop : ThreadEvent.t -> bool)
    (startErr : option error) (t : Thread) (p : Process) : result StreamRun :=
  match startErr with
  | Some err => Err err
  | None => Ok (streamTask sch stop t p)
  end.

(** A consumer that ranges over [Events] to the end. *)
Definition drain : ThreadEvent.t -> bool := fun _ => false.

(** The variables of [Thread.Run]. *)
Record RunState : Type := {
  items : list ThreadItem;
  finalResponse : string;
  usage : option Usage.t;
  turnFailure : option ThreadError.t
}.

Definition runStart : RunState :=
  {| items := []; finalResponse := ""; usage := None; turnFailure := None |}.

Definition isTurnFailed (event : ThreadEvent.t) : bool :=
  String.eqb (ThreadEvent.Type_ event) EventTurnFailed.

(** The [for event := range streamed.Events] loop of [Thread.Run]; the
    [turn.failed] case cancels and leaves the loop. *)
Fixpoint Run_loop (events : list ThreadEvent.t) (s : RunState) : RunState :=
  match events with
  | [] => s
  | event :: rest =>
      if String.eqb (ThreadEvent.Type_ event) EventItemCompleted then
        match ThreadEvent.Item event with
        | Some item =>
            Run_loop rest
              {| items := items s ++ [item];
                 finalResponse :=
                   match item with
                   | AgentMessage msg => AgentMessageItem.Text msg
                   | _ => finalResponse s
                   end;
                 usage := usage s; turnFailure := turnFailure s |}
        | None => Run_loop rest s
        end
      else if String.eqb (ThreadEvent.Type_ event) EventTurnCompleted then
        Run_loop rest
          {| items := items s; finalResponse := finalResponse s;
             usage := ThreadEvent.Usage event; turnFailure := turnFailure s |}
      else if String.eqb (ThreadEvent.Type_ event) EventTurnFailed then
        {| items := items s; finalResponse := finalResponse s; usage := usage s;
           turnFailure :=
             Some (match ThreadEvent.Error_ event with
                   | Some e => e
                   | None => {| ThreadError.Message := "turn failed" |}
                   end) |}
      else Run_loop rest s
  end.

(** What [Thread.Run] returns once [streamed.Wait] gave [waitErr]: the
    turn, or the error with no turn. *)
Definition Run_return (s : RunState) (waitErr : option error) : result Turn.t :=
  match turnFailure s with
  | Some failure =>
      match waitErr with
      | Some e =>
          if negb (errors_Is e context_Canceled) then Err e
          else Err (errors_New (ThreadError.Message failure))
      | None => Err (errors_New (ThreadError.Message failure))
      end
  | None =>
      match waitErr with
      | Some e => Err e
      | None =>
          Ok {| Turn.Items := items s; Turn.FinalResponse := finalResponse s;
                Turn.Usage := usage s |}
      end
  end.

(** [Thread.Run] over a stream whose channel carries [events] and whose
    [Wait] returns [waitErr]. *)
Definition Run_over (events : list ThreadEvent.t) (waitErr : option error)
    : result Turn.t :=
  Run_return (Run_loop events runStart) waitErr.

(** [Thread.Run] for a turn whose process is [p].  The thread comes back
    as the task left it; [None] would be a call that never returns. *)
Definition Thread_Run (sch : Schedule) (startErr : option error)
    (t : Thread) (p : Process) : option (result Turn.t * Thread) :=
  match runStreamedInternal sch isTurnFailed startErr t p with
  | Err err => Some (Err err, t)
  | Ok run =>
      let streamed := sr_streamed run in
      let s := Run_loop (Events streamed) runStart in
      match StreamedTurn_Wait streamed with
      | Some (waitErr, _) => Some (Run_return s waitErr, sr_thread run)
      | None => None
      end
  end.

(* ================================================================= *)
(** ** Methods of the items and of the events *)

(** The [GetID] method. *)
Definition GetID (item : ThreadItem) : string :=
  match item with
  | AgentMessage i => AgentMessageItem.ID i
  | Reasoning i => ReasoningItem.ID i
  | CommandExecution i => CommandExecutionItem.ID i
  | FileChange i => FileChangeItem.ID i
  | McpToolCall i => McpToolCallItem.ID i
  | WebSearch i => WebSearchItem.ID i
  | TodoList i => TodoListItem.ID i
  | ErrorItemOf i => ErrorItem.ID i
  | Unknown _ => ""
  end.

(** The text of a summary: its first 50 bytes and an ellipsis when it has
    more. *)
Definition shortened (text : string) : string :=
  if (50 <? String.length text)%nat then take 50 text ++ "..." else text.

(** [itemSummary]; [quote] is the verb [%q] on a string, that is
    [strconv.Quote]. *)
Definition itemSummary (quote : string -> string) (item : ThreadItem) : string :=
  match item with
  | AgentMessage v => "agent_message text=" ++ quote (shortened (AgentMessageItem.Text v))
  | Reasoning v => "reasoning text=" ++ quote (shortened (ReasoningItem.Text v))
  | CommandExecution v =>
      "command_execution command=" ++ quote (CommandExecutionItem.Command v)
      ++ " status=" ++ CommandExecutionItem.Status v
  | FileChange v =>
      "file_change changes="
      ++ itoa (Z.of_nat (List.length (FileChangeItem.Changes v)))
      ++ " status=" ++ FileChangeItem.Status v
  | McpToolCall v =>
      "mcp_tool_call server=" ++ quote (McpToolCallItem.Server v)
      ++ " tool=" ++ quote (McpToolCallItem.Tool v)
      ++ " status=" ++ McpToolCallItem.Status v
  | WebSearch v => "web_search query=" ++ quote (WebSearchItem.Query v)
  | TodoList v =>
      "todo_list items=" ++ itoa (Z.of_nat (List.length (TodoListItem.Items v)))
  | ErrorItemOf v => "error message=" ++ quote (ErrorItem.Message v)
  | Unknown v => "unknown type=" ++ UnknownItem.ItemType v
  end.

(** [ThreadEvent.String]. *)
Definition ThreadEvent_String (quote : string -> string) (e : ThreadEvent.t) : string :=
  let ty := ThreadEvent.Type_ e in
  if String.eqb ty EventThreadStarted then
    if negb (String.eqb (ThreadEvent.ThreadID e) "")
    then "thread.started id=" ++ ThreadEvent.ThreadID e
    else "thread.started"
  else if String.eqb ty EventTurnStarted then "turn.started"
  else if String.eqb ty EventTurnCompleted then
    match ThreadEvent.Usage e with
    | Some u =>
        "turn.completed usage={input=" ++ itoa (Usage.InputTokens u)
        ++ " cached=" ++ itoa (Usage.CachedInputTokens u)
        ++ " output=" ++ itoa (Usage.OutputTokens u) ++ "}"
    | None => "turn.completed"
    end
  else if String.eqb ty EventTurnFailed then
    match ThreadEvent.Error_ e with
    | Some err => "turn.failed error=" ++ ThreadError.Message err
    | None => "turn.failed"
    end
  else if String.eqb ty EventItemStarted || String.eqb ty EventItemUpdated
          || String.eqb ty EventItemCompleted then
    match ThreadEvent.Item e with
    | Some item => ty ++ " item=" ++ itemSummary quote item
    | None => ty
    end
  else if String.eqb ty EventError then
    if negb (String.eqb (ThreadEvent.Message e) "")
    then "error message=" ++ ThreadEvent.Message e
    else "error"
  else ty.

(* ================================================================= *)
(** ** Client and thread options *)

(** A Go [map[string]string]: its entries, one per key.  [Map_set] is the
    assignment [m[k] = v], [Map_get] the lookup [m[k]] with its [ok]. *)
Definition Map : Type := list (string * string).

Fixpoint Map_get (m : Map) (k : string) : option string :=
  match m with
  | [] => None
  | (k', v) :: m' => if String.eqb k' k then Some v else Map_get m' k
  end.

Fixpoint Map_set (m : Map) (k v : string) : Map :=
  match m with
  | [] => [(k, v)]
  | (k', v') :: m' =>
      if String.eqb k' k then (k, v) :: m' else (k', v') :: Map_set m' k v
  end.

(** [CodexOptions]; [Env] may be the [nil] map. *)
Module CodexOptions.
Record t : Type := {
  CodexPath : string;
  BaseURL : string;
  APIKey : string;
  Env : option Map
}.
Definition zero : t := {| CodexPath := ""; BaseURL := ""; APIKey := ""; Env := None |}.
End CodexOptions.

(** [Option]: a function that updates the options it is given. *)
Definition Option : Type := CodexOptions.t -> CodexOptions.t.

Definition WithCodexPath (path : string) : Option := fun o =>
  if negb (String.eqb path "") then
    {| CodexOptions.CodexPath := path; CodexOptions.BaseURL := CodexOptions.BaseURL o;
       CodexOptions.APIKey := CodexOptions.APIKey o; CodexOptions.Env := CodexOptions.Env o |}
  else o.

Definition WithBaseURL (url : string) : Option := fun o =>
  if negb (String.eqb url "") then
    {| CodexOptions.CodexPath := CodexOptions.CodexPath o; CodexOptions.BaseURL := url;
       CodexOptions.APIKey := CodexOptions.APIKey o; CodexOptions.Env := CodexOptions.Env o |}
  else o.

Definition WithAPIKey (key : string) : Option := fun o =>
  if negb (String.eqb key "") then
    {| CodexOptions.CodexPath := CodexOptions.CodexPath o;
       CodexOptions.BaseURL := CodexOptions.BaseURL o;
       CodexOptions.APIKey := key; CodexOptions.Env := CodexOptions.Env o |}
  else o.

Definition WithEnv (env : option Map) : Option := fun o =>
  {| CodexOptions.CodexPath := CodexOptions.CodexPath o;
     CodexOptions.BaseURL := CodexOptions.BaseURL o;
     CodexOptions.APIKey := CodexOptions.APIKey o; CodexOptions.Env := env |}.

(** [applyCodexOptions]. *)
Definition applyCodexOptions (opts : list Option) : CodexOptions.t :=
  fold_left (fun options opt => opt options) opts CodexOptions.zero.

(** [ThreadOptions]; the two pointers to [bool] are options. *)
Module ThreadOptions.
Record t : Type := {
  Model : string;
  SandboxMode : string;
  WorkingDirectory : string;
  SkipGitRepoCheck : bool;
  ModelReasoningEffort : string;
  NetworkAccessEnabled : option bool;
  WebSearchEnabled : option bool;
  ApprovalPolicy : string;
  AdditionalDirectories : list string
}.
Definition zero : t :=
  {| Model := ""; SandboxMode := ""; WorkingDirectory := ""; SkipGitRepoCheck := false;
     ModelReasoningEffort := ""; NetworkAccessEnabled := None; WebSearchEnabled := None;
     ApprovalPolicy := ""; AdditionalDirectories := [] |}.
End ThreadOptions.

Definition ThreadOption : Type := ThreadOptions.t -> ThreadOptions.t.

Definition WithModel (model : string) : ThreadOption := fun o =>
  if negb (String.eqb model "") then
    {| ThreadOptions.Model := model;
       ThreadOptions.SandboxMode := ThreadOptions.SandboxMode o;
       ThreadOptions.WorkingDirectory := ThreadOptions.WorkingDirectory o;
       ThreadOptions.SkipGitRepoCheck := ThreadOptions.SkipGitRepoCheck o;
       ThreadOptions.ModelReasoningEffort := ThreadOptions.ModelReasoningEffort o;
       ThreadOptions.NetworkAccessEnabled := ThreadOptions.NetworkAccessEnabled o;
       ThreadOptions.WebSearchEnabled := ThreadOptions.WebSearchEnabled o;
       ThreadOptions.ApprovalPolicy := ThreadOptions.ApprovalPolicy o;
       ThreadOptions.AdditionalDirectories := ThreadOptions.AdditionalDirectories o |}
  else o.

Definition WithSandboxMode (mode : string) : ThreadOption := fun o =>
  {| ThreadOptions.Model := ThreadOptions.Model o;
     ThreadOptions.SandboxMode := mode;
     ThreadOptions.WorkingDirectory := ThreadOptions.WorkingDirectory o;
     ThreadOptions.SkipGitRepoCheck := ThreadOptions.SkipGitRepoCheck o;
     ThreadOptions.ModelReasoningEffort := ThreadOptions.ModelReasoningEffort o;
     ThreadOptions.NetworkAccessEnabled := ThreadOptions.NetworkAccessEnabled o;
     ThreadOptions.WebSearchEnabled := ThreadOptions.WebSearchEnabled o;
     ThreadOptions.ApprovalPolicy := ThreadOptions.ApprovalPolicy o;
     ThreadOptions.AdditionalDirectories := ThreadOptions.AdditionalDirectories o |}.

Definition WithWorkingDirectory (dir : string) : ThreadOption := fun o =>
  if negb (String.eqb dir "") then
    {| ThreadOptions.Model := ThreadOptions.Model o;
       ThreadOptions.SandboxMode := ThreadOptions.SandboxMode o;
       ThreadOptions.WorkingDirectory := dir;
       ThreadOptions.SkipGitRepoCheck := ThreadOptions.SkipGitRepoCheck o;
       ThreadOptions.ModelReasoningEffort := ThreadOptions.ModelReasoningEffort o;
       ThreadOptions.NetworkAccessEnabled := ThreadOptions.NetworkAccessEnabled o;
       ThreadOptions.WebSearchEnabled := ThreadOptions.WebSearchEnabled o;
       ThreadOptions.ApprovalPolicy := ThreadOptions.ApprovalPolicy o;
       ThreadOptions.AdditionalDirectories := ThreadOptions.AdditionalDirectories o |}
  else o.

Definition WithSkipGitRepoCheck : ThreadOption := fun o =>
  {| ThreadOptions.Model := ThreadOptions.Model o;
     ThreadOptions.SandboxMode := ThreadOptions.SandboxMode o;
     ThreadOptions.WorkingDirectory := ThreadOptions.WorkingDirectory o;
     ThreadOptions.SkipGitRepoCheck := true;
     ThreadOptions.ModelReasoningEffort := ThreadOptions.ModelReasoningEffort o;
     ThreadOptions.NetworkAccessEnabled := ThreadOptions.NetworkAccessEnabled o;
     ThreadOptions.WebSearchEnabled := ThreadOptions.WebSearchEnabled o;
     ThreadOptions.ApprovalPolicy := ThreadOptions.ApprovalPolicy o;
     ThreadOptions.AdditionalDirectories := ThreadOptions.AdditionalDirectories o |}.

Definition WithModelReasoningEffort (effort : string) : ThreadOption := fun o =>
  {| ThreadOptions.Model := ThreadOptions.Model o;
     ThreadOptions.SandboxMode := ThreadOptions.SandboxMode o;
     ThreadOptions.WorkingDirectory := ThreadOptions.WorkingDirectory o;
     ThreadOptions.SkipGitRepoCheck := ThreadOptions.SkipGitRepoCheck o;
     ThreadOptions.ModelReasoningEffort := effort;
     ThreadOptions.NetworkAccessEnabled := ThreadOptions.NetworkAccessEnabled o;
     ThreadOptions.WebSearchEnabled := ThreadOptions.WebSearchEnabled o;
     ThreadOptions.ApprovalPolicy := ThreadOptions.ApprovalPolicy o;
     ThreadOptions.AdditionalDirectories := ThreadOptions.AdditionalDirectories o |}.

Definition WithNetworkAccess (enabled : bool) : ThreadOption := fun o =>
  {| ThreadOptions.Model := ThreadOptions.Model o;
     ThreadOptions.SandboxMode := ThreadOptions.SandboxMode o;
     ThreadOptions.WorkingDirectory := ThreadOptions.WorkingDirectory o;
     ThreadOptions.SkipGitRepoCheck := ThreadOptions.SkipGitRepoCheck o;
     ThreadOptions.ModelReasoningEffort := ThreadOptions.ModelReasoningEffort o;
     ThreadOptions.NetworkAccessEnabled := Some enabled;
     ThreadOptions.WebSearchEnabled := ThreadOptions.WebSearchEnabled o;
     ThreadOptions.ApprovalPolicy := ThreadOptions.ApprovalPolicy o;
     ThreadOptions.AdditionalDirectories := ThreadOptions.AdditionalDirectories o |}.

Definition WithWebSearch (enabled : bool) : ThreadOption := fun o =>
  {| ThreadOptions.Model := ThreadOptions.Model o;
     ThreadOptions.SandboxMode := ThreadOptions.SandboxMode o;
     ThreadOptions.WorkingDirectory := ThreadOptions.WorkingDirectory o;
     ThreadOptions.SkipGitRepoCheck := ThreadOptions.SkipGitRepoCheck o;
     ThreadOptions.ModelReasoningEffort := ThreadOptions.ModelReasoningEffort o;
     ThreadOptions.NetworkAccessEnabled := ThreadOptions.NetworkAccessEnabled o;
     ThreadOptions.WebSearchEnabled := Some enabled;
     ThreadOptions.ApprovalPolicy := ThreadOptions.ApprovalPolicy o;
     ThreadOptions.AdditionalDirectories := ThreadOptions.AdditionalDirectories o |}.

Definition WithApprovalPolicy (policy : string) : ThreadOption := fun o =>
  {| ThreadOptions.Model := ThreadOptions.Model o;
     ThreadOptions.SandboxMode := ThreadOptions.SandboxMode o;
     ThreadOptions.WorkingDirectory := ThreadOptions.WorkingDirectory o;
     ThreadOptions.SkipGitRepoCheck := ThreadOptions.SkipGitRepoCheck o;
     ThreadOptions.ModelReasoningEffort := ThreadOptions.ModelReasoningEffort o;
     ThreadOptions.NetworkAccessEnabled := ThreadOptions.NetworkAccessEnabled o;
     ThreadOptions.WebSearchEnabled := ThreadOptions.WebSearchEnabled o;
     ThreadOptions.ApprovalPolicy := policy;
     ThreadOptions.AdditionalDirectories := ThreadOptions.AdditionalDirectories o |}.

Definition WithAdditionalDirectories (dirs : list string) : ThreadOption := fun o =>
  {| ThreadOptions.Model := ThreadOptions.Model o;
     ThreadOptions.SandboxMode := ThreadOptions.SandboxMode o;
     ThreadOptions.WorkingDirectory := ThreadOptions.WorkingDirectory o;
     ThreadOptions.SkipGitRepoCheck := ThreadOptions.SkipGitRepoCheck o;
     ThreadOptions.ModelReasoningEffort := ThreadOptions.ModelReasoningEffort o;
     ThreadOptions.NetworkAccessEnabled := ThreadOptions.NetworkAccessEnabled o;
     ThreadOptions.WebSearchEnabled := ThreadOptions.WebSearchEnabled o;
     ThreadOptions.ApprovalPolicy := ThreadOptions.ApprovalPolicy o;
     ThreadOptions.AdditionalDirectories :=
       (ThreadOptions.AdditionalDirectories o ++ dirs)%list |}.

(** [applyThreadOptions]. *)
Definition applyThreadOptions (opts : list ThreadOption) : ThreadOptions.t :=
  fold_left (fun options opt => opt options) opts ThreadOptions.zero.

(* ================================================================= *)
(** ** The command line and the environment of the process *)

(** [ExecArgs]. *)
Module ExecArgs.
Record t : Type := {
  Input : string;
  BaseURL : string;
  APIKey : string;
  ThreadID : string;
  Images : list string;
  Model : string;
  SandboxMode : string;
  WorkingDirectory : string;
  SkipGitRepoCheck : bool;
  OutputSchemaFile : string;
  ModelReasoningEffort : string;
  NetworkAccessEnabled : option bool;
  WebSearchEnabled : option bool;
  ApprovalPolicy : string;
  AdditionalDirectories : list string
}.
End ExecArgs.

(** [Exec]: the path of the binary and the custom environment, possibly the
    [nil] map. *)
Module Exec.
Record t : Type := { path : string; env : option Map }.
End Exec.

(** [%t] of [fmt]. *)
Definition btoa (b : bool) : string := if b then "true" else "false".

(** [fmt.Sprintf] of a key, ["="] and the quoted value [%s] between two
    double quotes. *)
Definition quotedSetting (key value : string) : string :=
  key ++ "=" ++ String DQ (value ++ String DQ "").

(** The [commandArgs] of [Exec.Run], built append by append. *)
Definition commandArgs (args : ExecArgs.t) : list string :=
  let commandArgs := ["exec"; "--experimental-json"] in
  let commandArgs :=
    if negb (String.eqb (ExecArgs.Model args) "")
    then (commandArgs ++ ["--model"; ExecArgs.Model args])%list else commandArgs in
  let commandArgs :=
    if negb (String.eqb (ExecArgs.SandboxMode args) "")
    then (commandArgs ++ ["--sandbox"; ExecArgs.SandboxMode args])%list else commandArgs in
  let commandArgs :=
    if negb (String.eqb (ExecArgs.WorkingDirectory args) "")
    then (commandArgs ++ ["--cd"; ExecArgs.WorkingDirectory args])%list else commandArgs in
  let commandArgs :=
    fold_left
      (fun commandArgs dir =>
         if negb (String.eqb dir "") then (commandArgs ++ ["--add-dir"; dir])%list
         else commandArgs)
      (ExecArgs.AdditionalDirectories args) commandArgs in
  let commandArgs :=
    if ExecArgs.SkipGitRepoCheck args
    then (commandArgs ++ ["--skip-git-repo-check"])%list else commandArgs in
  let commandArgs :=
    if negb (String.eqb (ExecArgs.OutputSchemaFile args) "")
    then (commandArgs ++ ["--output-schema"; ExecArgs.OutputSchemaFile args])%list
    else commandArgs in
  let commandArgs :=
    if negb (String.eqb (ExecArgs.ModelReasoningEffort args) "")
    then (commandArgs
          ++ ["--config";
              quotedSetting "model_reasoning_effort" (ExecArgs.ModelReasoningEffort args)])%list
    else commandArgs in
  let commandArgs :=
    match ExecArgs.NetworkAccessEnabled args with
    | Some enabled =>
        (commandArgs
         ++ ["--config"; ("sandbox_workspace_write.network_access=" ++ btoa enabled)%string])%list
    | None => commandArgs
    end in
  let commandArgs :=
    match ExecArgs.WebSearchEnabled args with
    | Some enabled =>
        (commandArgs ++ ["--config"; ("features.web_search_request=" ++ btoa enabled)%string])%list
    | None => commandArgs
    end in
  let commandArgs :=
    if negb (String.eqb (ExecArgs.ApprovalPolicy args) "")
    then (commandArgs
          ++ ["--config"; quotedSetting "approval_policy" (ExecArgs.ApprovalPolicy args)])%list
    else commandArgs in
  let commandArgs :=
    fold_left
      (fun commandArgs image =>
         if negb (String.eqb image "") then (commandArgs ++ ["--image"; image])%list
         else commandArgs)
      (ExecArgs.Images args) commandArgs in
  let commandArgs :=
    if negb (String.eqb (ExecArgs.ThreadID args) "")
    then (commandArgs ++ ["resume"; ExecArgs.ThreadID args])%list else commandArgs in
  commandArgs.

Definition internalOriginatorEnv : string := "CODEX_INTERNAL_ORIGINATOR_OVERRIDE".
Definition goSDKOriginator : string := "codex_sdk_go".

(** [strings.IndexByte s c]: the index of the first [c] in [s]; [None] is
    the result -1. *)
Fixpoint strings_IndexByte (s : string) (c : ascii) : option nat :=
  match s with
  | EmptyString => None
  | String a r =>
      if Ascii.eqb a c then Some 0%nat else option_map S (strings_IndexByte r c)
  end.

(** The slice [s[n:]]. *)
Fixpoint drop (n : nat) (s : string) : string :=
  match n, s with
  | S n', String _ r => drop n' r
  | _, _ => s
  end.

(** The map [buildEnvironment] fills from [os.Environ], entry after entry:
    an entry without ["="] is skipped, one with a key met before
    overwrites. *)
Definition inherited (environ : list string) : Map :=
  fold_left
    (fun envMap kv =>
       match strings_IndexByte kv "=" with
       | Some idx => Map_set envMap (take idx kv) (drop (S idx) kv)
       | None => envMap
       end)
    environ [].

(** What [buildEnvironment] starts from: the copy of the custom
    environment, or else what [os.Environ] returns, [environ]. *)
Definition baseEnv (e : Exec.t) (environ : list string) : Map :=
  match Exec.env e with
  | Some env => fold_left (fun envMap kv => Map_set envMap (fst kv) (snd kv)) env []
  | None => inherited environ
  end.

(** The [envMap] of [buildEnvironment] before it is turned into a slice. *)
Definition envMap (e : Exec.t) (environ : list string) (baseURL apiKey : string) : Map :=
  let envMap := baseEnv e environ in
  let envMap :=
    match Map_get envMap internalOriginatorEnv with
    | Some value =>
        if String.eqb value "" then Map_set envMap internalOriginatorEnv goSDKOriginator
        else envMap
    | None => Map_set envMap internalOriginatorEnv goSDKOriginator
    end in
  let envMap :=
    if negb (String.eqb baseURL "") then Map_set envMap "OPENAI_BASE_URL" baseURL
    else envMap in
  let envMap :=
    if negb (String.eqb apiKey "") then Map_set envMap "CODEX_API_KEY" apiKey
    else envMap in
  envMap.

(** [sort.Strings]: the strings in increasing order, bytes compared. *)
Fixpoint insertSorted (s : string) (l : list string) : list string :=
  match l with
  | [] => [s]
  | x :: l' => if String.leb s x then s :: l else x :: insertSorted s l'
  end.

Definition sort_Strings (l : list string) : list string := fold_right insertSorted [] l.

(** The entry [k+"="+v] of the environment. *)
Definition entry (kv : string * string) : string := fst kv ++ "=" ++ snd kv.

(** [Exec.buildEnvironment]. *)
Definition buildEnvironment (e : Exec.t) (environ : list string)
    (baseURL apiKey : string) : list string :=
  sort_Strings (map entry (envMap e environ baseURL apiKey)).

(** The command [Exec.Run] starts: [cmd.Args], the path first, and
    [cmd.Env]. *)
Record Cmd : Type := { Args : list string; Env : list string }.

Definition Exec_Run_cmd (e : Exec.t) (environ : list string) (args : ExecArgs.t) : Cmd :=
  {| Args := Exec.path e :: commandArgs args;
     Env := buildEnvironment e environ (ExecArgs.BaseURL args) (ExecArgs.APIKey args) |}.

(* ================================================================= *)
(** ** Finding the binary *)

(** [resolveTargetTriple]. *)
Definition resolveTargetTriple (goos goarch : string) : result string :=
  let unsupported :=
    Err (errors_New ("unsupported platform " ++ goos ++ "/" ++ goarch)) in
  if String.eqb goos "linux" || String.eqb goos "android" then
    if String.eqb goarch "amd64" then Ok "x86_64-unknown-linux-musl"
    else if String.eqb goarch "arm64" then Ok "aarch64-unknown-linux-musl"
    else unsupported
  else if String.eqb goos "darwin" then
    if String.eqb goarch "amd64" then Ok "x86_64-apple-darwin"
    else if String.eqb goarch "arm64" then Ok "aarch64-apple-darwin"
    else unsupported
  else if String.eqb goos "windows" then
    if String.eqb goarch "amd64" then Ok "x86_64-pc-windows-msvc"
    else if String.eqb goarch "arm64" then Ok "aarch64-pc-windows-msvc"
    else unsupported
  else unsupported.

(** [os.FileInfo], as far as it is read. *)
Record FileInfo : Type := { IsDir : bool }.






(** [Codex] and [New]. *)
Module Codex.
Record t : Type := { exec : Exec.t; options : CodexOptions.t }.
End Codex.


(** The fields of a [Thread] that [StartThread] and [ResumeThread] set once:
    the runner and the two sets of options.  The identifier, the one field
    that changes, is the [Thread] above. *)
Record ThreadConfig : Type := {
  tc_exec : Exec.t;
  tc_codexOptions : CodexOptions.t;
  tc_threadOptions : ThreadOptions.t
}.

(** [Codex.StartThread] and [Codex.ResumeThread] with their options. *)
Definition Codex_StartThread (c : Codex.t) (opts : list ThreadOption)
    : ThreadConfig * Thread :=
  ({| tc_exec := Codex.exec c; tc_codexOptions := Codex.options c;
      tc_threadOptions := applyThreadOptions opts |}, StartThread).

Definition Codex_ResumeThread (c : Codex.t) (savedID : string) (opts : list ThreadOption)
    : ThreadConfig * Thread :=
  ({| tc_exec := Codex.exec c; tc_codexOptions := Codex.options c;
      tc_threadOptions := applyThreadOptions opts |}, ResumeThread savedID).

(** The [ExecArgs] that [runStreamedInternal] hands to [Exec.Run] for the
    prompt, the images and the schema file of a turn. *)
Definition turnExecArgs (cfg : ThreadConfig) (t : Thread) (prompt : string)
    (images : list string) (schemaPath : string) : ExecArgs.t :=
  {| ExecArgs.Input := prompt;
     ExecArgs.BaseURL := CodexOptions.BaseURL (tc_codexOptions cfg);
     ExecArgs.APIKey := CodexOptions.APIKey (tc_codexOptions cfg);
     ExecArgs.ThreadID := currentID t;
     ExecArgs.Images := images;
     ExecArgs.Model := ThreadOptions.Model (tc_threadOptions cfg);
     ExecArgs.SandboxMode := ThreadOptions.SandboxMode (tc_threadOptions cfg);
     ExecArgs.WorkingDirectory := ThreadOptions.WorkingDirectory (tc_threadOptions cfg);
     ExecArgs.SkipGitRepoCheck := ThreadOptions.SkipGitRepoCheck (tc_threadOptions cfg);
     ExecArgs.OutputSchemaFile := schemaPath;
     ExecArgs.ModelReasoningEffort :=
       ThreadOptions.ModelReasoningEffort (tc_threadOptions cfg);
     ExecArgs.NetworkAccessEnabled :=
       ThreadOptions.NetworkAccessEnabled (tc_threadOptions cfg);
     ExecArgs.WebSearchEnabled := ThreadOptions.WebSearchEnabled (tc_threadOptions cfg);
     ExecArgs.ApprovalPolicy := ThreadOptions.ApprovalPolicy (tc_threadOptions cfg);
     ExecArgs.AdditionalDirectories :=
       ThreadOptions.AdditionalDirectories (tc_threadOptions cfg) |}.

(* ================================================================= *)
(** ** The input of a turn *)

(** [ErrInvalidInput]. *)
Module ErrInvalidInput.
Record t : Type := { Field : string; Value : string; Reason : string }.
End ErrInvalidInput.

Definition InputText : string := "text".
Definition InputLocalImage : string := "local_image".

(** [UserInput] and [Input]. *)
Module UserInput.
Record t : Type := { Type_ : string; Text : string; Path : string }.
End UserInput.

Module Input.
Record t : Type := { prompt : string; parts : list UserInput.t }.
End Input.

(** [Text], [Compose], [TextPart] and [ImagePart]. *)
Definition Text (prompt : string) : Input.t :=
  {| Input.prompt := prompt; Input.parts := [] |}.

Definition Compose (parts : list UserInput.t) : Input.t :=
  {| Input.prompt := ""; Input.parts := parts |}.

Definition TextPart (text : string) : UserInput.t :=
  {| UserInput.Type_ := InputText; UserInput.Text := text; UserInput.Path := "" |}.

Definition ImagePart (path : string) : UserInput.t :=
  {| UserInput.Type_ := InputLocalImage; UserInput.Text := ""; UserInput.Path := path |}.

(** The separator of the prompt parts: two newlines. *)
Definition paragraph : string := String LF (String LF "").

(** The [for idx, part := range input.parts] loop of [normalizeInput], from
    the index [idx] on, with the [promptParts] and [images] gathered so
    far. *)
Fixpoint normalizeParts (idx : nat) (parts : list UserInput.t)
    (promptParts images : list string)
    : (list string * list string) + ErrInvalidInput.t :=
  match parts with
  | [] => inl (promptParts, images)
  | part :: rest =>
      if String.eqb (UserInput.Type_ part) InputText then
        normalizeParts (S idx) rest (promptParts ++ [UserInput.Text part])%list images
      else if String.eqb (UserInput.Type_ part) InputLocalImage then
        if String.eqb (UserInput.Path part) "" then
          inr {| ErrInvalidInput.Field := "image path";
                 ErrInvalidInput.Value := "";
                 ErrInvalidInput.Reason :=
                   "input part " ++ itoa (Z.of_nat idx)
                   ++ ": local image path must be set" |}
        else
          normalizeParts (S idx) rest promptParts (images ++ [UserInput.Path part])%list
      else if String.eqb (UserInput.Type_ part) "" then
        inr {| ErrInvalidInput.Field := "input type";
               ErrInvalidInput.Value := "";
               ErrInvalidInput.Reason :=
                 "input part " ++ itoa (Z.of_nat idx) ++ ": type must be set" |}
      else
        inr {| ErrInvalidInput.Field := "input type";
               ErrInvalidInput.Value := UserInput.Type_ part;
               ErrInvalidInput.Reason :=
                 "input part " ++ itoa (Z.of_nat idx) ++ ": unsupported type" |}
  end.

(** [normalizeInput]: the prompt and the image paths, or the error. *)
Definition normalizeInput (input : Input.t) : (string * list string) + ErrInvalidInput.t :=
  match Input.parts input with
  | [] => inl (Input.prompt input, [])
  | _ :: _ =>
      let promptParts :=
        if negb (String.eqb (Input.prompt input) "") then [Input.prompt input] else [] in
      match normalizeParts 0 (Input.parts input) promptParts [] with
      | inl (promptParts, images) => inl (String.concat paragraph promptParts, images)
      | inr err => inr err
      end
  end.

(* ================================================================= *)
(** ** Validation *)

(** [validateNonEmpty]. *)
Definition validateNonEmpty (field value : string) : option ErrInvalidInput.t :=
  if String.eqb (TrimSpace value) "" then
    Some {| ErrInvalidInput.Field := field; ErrInvalidInput.Value := value;
            ErrInvalidInput.Reason := "must not be empty" |}
  else None.

(** [validatePath]; [stat] is what [os.Stat path] answers and [isNotExist]
    is [os.IsNotExist]. *)
Definition validatePath (isNotExist : error -> bool) (stat : result FileInfo)
    (field path : string) : option ErrInvalidInput.t :=
  if String.eqb path "" then
    Some {| ErrInvalidInput.Field := field; ErrInvalidInput.Value := path;
            ErrInvalidInput.Reason := "path must not be empty" |}
  else
    match stat with
    | Err err =>
        if isNotExist err then
          Some {| ErrInvalidInput.Field := field; ErrInvalidInput.Value := path;
                  ErrInvalidInput.Reason := "path does not exist" |}
        else
          Some {| ErrInvalidInput.Field := field; ErrInvalidInput.Value := path;
                  ErrInvalidInput.Reason := "path is not accessible: " ++ Error err |}
    | Ok _ => None
    end.

(** [validateExecutablePath]; [stat] and [again] are the answers of its two
    calls of [os.Stat path], the first made by [validatePath]. *)
Definition validateExecutablePath (isNotExist : error -> bool)
    (stat again : result FileInfo) (field path : string) : option ErrInvalidInput.t :=
  match validatePath isNotExist stat field path with
  | Some err => Some err
  | None =>
      match again with
      | Err err =>
          Some {| ErrInvalidInput.Field := field; ErrInvalidInput.Value := path;
                  ErrInvalidInput.Reason := "cannot stat file: " ++ Error err |}
      | Ok info =>
          if IsDir info then
            Some {| ErrInvalidInput.Field := field; ErrInvalidInput.Value := path;
                    ErrInvalidInput.Reason := "path is a directory, not a file" |}
          else None
      end
  end.

(* ================================================================= *)
(** ** The output schema *)

(** [reflect.Kind], the invalid kind left out: the four kinds that
    [validateOutputSchema] tells apart, and the others. *)
Module reflect.
Inductive Basic : Type :=
| Bool | Int | Int8 | Int16 | Int32 | Int64
| Uint | Uint8 | Uint16 | Uint32 | Uint64 | Uintptr
| Float32 | Float64 | Complex64 | Complex128
| Array | Chan | Func | Slice | String | UnsafePointer.

Inductive Kind : Type :=
| Interface
| Map
| Pointer
| Struct
| Other (kind : Basic).
End reflect.

(** A Go value as [validateOutputSchema] inspects it through [reflect]:
    a pointer, [nil] or to a value; a variable of an interface type (what
    [Elem] of a pointer to one gives), [nil] or holding a value; a map,
    [nil] or not, with the kind of its keys; a struct; or a value of
    one of the other kinds, [kind].  A pointer that leads back to itself,
    on which the loop over the pointers would not end, is no value of this
    type. *)
Inductive GoValue : Type :=
| PointerTo (elem : option GoValue)
| InterfaceOf (dynamic : option GoValue)
| MapOf (isNil : bool) (key : reflect.Kind)
| StructOf
| Plain (kind : reflect.Basic).

(** [Value.Kind]. *)
Definition GoValue_Kind (v : GoValue) : reflect.Kind :=
  match v with
  | PointerTo _ => reflect.Pointer
  | InterfaceOf _ => reflect.Interface
  | MapOf _ _ => reflect.Map
  | StructOf => reflect.Struct
  | Plain kind => reflect.Other kind
  end.

Definition isStringKind (k : reflect.Kind) : bool :=
  match k with
  | reflect.Other reflect.String => true
  | _ => false
  end.

Definition notAnObject : ErrInvalidInput.t :=
  {| ErrInvalidInput.Field := "output schema"; ErrInvalidInput.Value := "";
     ErrInvalidInput.Reason := "must be a JSON object, not a primitive or array" |}.

Definition notStringKeyed : ErrInvalidInput.t :=
  {| ErrInvalidInput.Field := "output schema"; ErrInvalidInput.Value := "";
     ErrInvalidInput.Reason := "must be a JSON object with string keys" |}.

(** [validateOutputSchema] on a schema that is not the [nil] interface: the
    loop over the pointers, then the [switch] on the kind reached. *)
Fixpoint validateValue (v : GoValue) : option ErrInvalidInput.t :=
  match v with
  | PointerTo None => None
  | PointerTo (Some elem) => validateValue elem
  | MapOf isNil key =>
      if isNil then None
      else if negb (isStringKind key) then Some notStringKeyed
      else None
  | StructOf => None
  | InterfaceOf None => None
  | InterfaceOf (Some dynamic) => validateValue dynamic
  | Plain _ => Some notAnObject
  end.

(** [validateOutputSchema]; [None] as the schema is the [nil] interface. *)
Definition validateOutputSchema (schema : option GoValue) : option ErrInvalidInput.t :=
  match schema with
  | None => None
  | Some v => validateValue v
  end.

(** [TurnOptions], [WithOutputSchema] and [applyTurnOptions]. *)
Module TurnOptions.
Record t : Type := { OutputSchema : option GoValue }.
Definition zero : t := {| OutputSchema := None |}.
End TurnOptions.

Definition TurnOption : Type := TurnOptions.t -> TurnOptions.t.

Definition WithOutputSchema (schema : option GoValue) : TurnOption := fun o =>
  {| TurnOptions.OutputSchema := schema |}.

Definition applyTurnOptions (opts : list TurnOption) : TurnOptions.t :=
  fold_left (fun options opt => opt options) opts TurnOptions.zero.

(** The calls that change the file system, in the order made. *)
Inductive FsCall : Type :=
| MkdirTemp (dir : string)
| WriteFile (path data : string)
| RemoveAll (dir : string).

(** What the calls of [createOutputSchemaFile] and of the cleanup answer:
    [os.MkdirTemp] the directory made, [json.Marshal schema] the data,
    [filepath.Join dir "schema.json"] the path, [os.WriteFile] and
    [os.RemoveAll] their errors. *)
Record SchemaIO : Type := {
  os_MkdirTemp : result string;
  json_Marshal : result string;
  schema_Join : string -> string;
  os_WriteFile : option error;
  os_RemoveAll : option error
}.

(** The [cleanup] of an [outputSchemaFile]: the function that does nothing,
    or the one that removes [dir]. *)
Inductive cleanupFn : Type :=
| nothing
| removeAll (dir : string).

Record outputSchemaFile : Type := {
  osf_path : string;
  osf_cleanup : option cleanupFn
}.

(** [outputSchemaFile.Path] and [outputSchemaFile.Cleanup], on a receiver
    that may be [nil]; [Cleanup] comes with the calls it made. *)
Definition outputSchemaFile_Path (f : option outputSchemaFile) : string :=
  match f with
  | None => ""
  | Some f => osf_path f
  end.

Definition runCleanup (io : SchemaIO) (c : cleanupFn) : option error * list FsCall :=
  match c with
  | nothing => (None, [])
  | removeAll dir => (os_RemoveAll io, [RemoveAll dir])
  end.

Definition outputSchemaFile_Cleanup (io : SchemaIO) (f : option outputSchemaFile)
    : option error * list FsCall :=
  match f with
  | None => (None, [])
  | Some f =>
      match osf_cleanup f with
      | None => (None, [])
      | Some c => runCleanup io c
      end
  end.

(** What [runStreamedInternal] may return in place of a stream: an invalid
    input, or an error of the system. *)
Inductive startError : Type :=
| invalidInput (err : ErrInvalidInput.t)
| systemError (err : error).

(** [createOutputSchemaFile], with the calls it made. *)
Definition createOutputSchemaFile (io : SchemaIO) (schema : option GoValue)
    : (outputSchemaFile + startError) * list FsCall :=
  match schema with
  | None => (inl {| osf_path := ""; osf_cleanup := Some nothing |}, [])
  | Some _ =>
      match validateOutputSchema schema with
      | Some err => (inr (invalidInput err), [])
      | None =>
          match os_MkdirTemp io with
          | Err err => (inr (systemError err), [])
          | Ok dir =>
              let cleanup := removeAll dir in
              match json_Marshal io with
              | Err err =>
                  (inr (systemError err),
                   MkdirTemp dir :: snd (runCleanup io cleanup))
              | Ok data =>
                  let path := schema_Join io dir in
                  match os_WriteFile io with
                  | Some err =>
                      (inr (systemError err),
                       MkdirTemp dir :: WriteFile path data :: snd (runCleanup io cleanup))
                  | None =>
                      (inl {| osf_path := path; osf_cleanup := Some cleanup |},
                       [MkdirTemp dir; WriteFile path data])
                  end
              end
          end
      end
  end.

(** How the start of the command ends: one of the three pipes or the start
    itself fails, or the process runs. *)
Inductive Spawn : Type :=
| StdinPipeFailed (err : error)
| StdoutPipeFailed (err : error)
| StderrPipeFailed (err : error)
| StartFailed (err : error)
| Started (p : Process).

(** [Exec.Run] from the command on: the error of the pipe or of the start,
    wrapped, or the process behind its stream. *)
Definition Exec_Run_spawn (s : Spawn) : result Process :=
  match s with
  | StdinPipeFailed err => Err (fmt_Errorf_w "open stdin pipe: " err)
  | StdoutPipeFailed err => Err (fmt_Errorf_w "open stdout pipe: " err)
  | StderrPipeFailed err => Err (fmt_Errorf_w "open stderr pipe: " err)
  | StartFailed err => Err (fmt_Errorf_w "start codex exec: " err)
  | Started p => Ok p
  end.

(** One call of [Thread.RunStreamed], the task run to its end: what it
    returned, the command it built (if it came to that), and the calls
    on the file system made by then, the deferred cleanup of the task
    included. *)
Record Streamed : Type := {
  rs_result : StreamRun + startError;
  rs_cmd : option Cmd;
  rs_calls : list FsCall
}.

(** [Thread.RunStreamed], that is [runStreamedInternal] whole: the schema
    file, the input, the command, and the task of [streamTask].  [spawn]
    tells how the start of a command ends. *)
Definition Thread_RunStreamed (io : SchemaIO) (environ : list string)
    (spawn : Cmd -> Spawn) (sch : Schedule) (stop : ThreadEvent.t -> bool)
    (cfg : ThreadConfig) (t : Thread) (input : Input.t) (opts : list TurnOption)
    : Streamed :=
  let turnOptions := applyTurnOptions opts in
  match createOutputSchemaFile io (TurnOptions.OutputSchema turnOptions) with
  | (inr err, calls) => {| rs_result := inr err; rs_cmd := None; rs_calls := calls |}
  | (inl schemaFile, calls) =>
      let cleanup := snd (outputSchemaFile_Cleanup io (Some schemaFile)) in
      match normalizeInput input with
      | inr err =>
          {| rs_result := inr (invalidInput err); rs_cmd := None;
             rs_calls := (calls ++ cleanup)%list |}
      | inl (prompt, images) =>
          let args :=
            turnExecArgs cfg t prompt images (outputSchemaFile_Path (Some schemaFile)) in
          let cmd := Exec_Run_cmd (tc_exec cfg) environ args in
          match Exec_Run_spawn (spawn cmd) with
          | Err err =>
              {| rs_result := inr (systemError err); rs_cmd := Some cmd;
                 rs_calls := (calls ++ cleanup)%list |}
          | Ok p =>
              {| rs_result := inl (streamTask sch stop t p); rs_cmd := Some cmd;
                 rs_calls := (calls ++ cleanup)%list |}
          end
      end
  end.

(* ================================================================= *)
(** ** Reference definitions the properties are stated with *)

(** Test fixtures write JSON with single quotes; [js] turns each into a
    double quote. *)
Fixpoint js (s : string) : string :=
  match s with
  | EmptyString => EmptyString
  | String c r => String (if Ascii.eqb c "'" then DQ else c) (js r)
  end.

(** A line of output: [text] and the newline. *)
Definition ln (text : string) : string := text ++ String LF "".

(** The output split at each newline, the delimiters dropped. *)
Fixpoint lines (s : string) : list string :=
  match s with
  | EmptyString => [""]
  | String c r =>
      if Ascii.eqb c LF then "" :: lines r
      else
        match lines r with
        | l :: ls => String c l :: ls
        | [] => [String c ""]
        end
  end.

Definition nonBlank (l : string) : bool := negb (String.eqb l "").

(** The lines of [s] that are not blank, white space around them removed. *)
Definition nonBlankLines (s : string) : list string :=
  filter nonBlank (map TrimSpace (lines s)).

(** The decoding of [ls] in order, up to and excluding the first element
    that fails to decode. *)
Fixpoint decodedPrefix (ls : list string) : list ThreadEvent.t :=
  match ls with
  | [] => []
  | l :: rest =>
      match json_Unmarshal_ThreadEvent l with
      | Ok event => event :: decodedPrefix rest
      | Err _ => []
      end
  end.

(** The error of the first element of [ls] that fails to decode. *)
Fixpoint firstFailure (ls : list string) : option error :=
  match ls with
  | [] => None
  | l :: rest =>
      match json_Unmarshal_ThreadEvent l with
      | Ok _ => firstFailure rest
      | Err err => Some err
      end
  end.

(** The item kinds [unmarshalThreadItem] knows. *)
Definition knownItemTypes : list string :=
  [ItemAgentMessage; ItemReasoning; ItemCommandExecution; ItemFileChange;
   ItemMcpToolCall; ItemWebSearch; ItemTodoList; ItemError].

(** The item of an [item.completed] event, if it has one. *)
Definition completedItem (event : ThreadEvent.t) : option ThreadItem :=
  if String.eqb (ThreadEvent.Type_ event) EventItemCompleted
  then ThreadEvent.Item event else None.

Definition completedItems (events : list ThreadEvent.t) : list ThreadItem :=
  flat_map (fun e => match completedItem e with Some i => [i] | None => [] end) events.

(** The texts of the agent messages among [its], in order. *)
Definition agentTexts (its : list ThreadItem) : list string :=
  flat_map (fun i => match i with
                     | AgentMessage msg => [AgentMessageItem.Text msg]
                     | _ => []
                     end) its.

Definition isTurnCompleted (event : ThreadEvent.t) : bool :=
  String.eqb (ThreadEvent.Type_ event) EventTurnCompleted.

(** The turn the specification describes for a channel content [events]:
    the completed items in order, the text of the last agent message among
    them, the usage of the last [turn.completed] event. *)
Definition turnOf (events : list ThreadEvent.t) : Turn.t :=
  {| Turn.Items := completedItems events;
     Turn.FinalResponse := last (agentTexts (completedItems events)) "";
     Turn.Usage := last (map ThreadEvent.Usage (filter isTurnCompleted events)) None |}.

(** The message [Thread.Run] records for a [turn.failed] event. *)
Definition failureMessage (event : ThreadEvent.t) : string :=
  match ThreadEvent.Error_ event with
  | Some e => ThreadError.Message e
  | None => "turn failed"
  end.

(** A [thread.started] event that carries an identifier. *)
Definition startsThread (event : ThreadEvent.t) : bool :=
  String.eqb (ThreadEvent.Type_ event) EventThreadStarted
  && negb (String.eqb (ThreadEvent.ThreadID event) "").

(** The identifier of the last event of [events] that starts a thread, or
    [initial] when none does. *)
Definition lastStarted (events : list ThreadEvent.t) (initial : string) : string :=
  last (map ThreadEvent.ThreadID (filter startsThread events)) initial.

(** The events that the lines of a reader decode to. *)
Definition decodes (reader : Reader) (event : ThreadEvent.t) : Prop :=
  exists line readErr,
    In (line, readErr) reader
    /\ json_Unmarshal_ThreadEvent (TrimSpace line) = Ok event.

(** The consumer that stops at the events [stop] accepts does not stop at
    any of [events]. *)
Definition unstopped (stop : ThreadEvent.t -> bool) (events : list ThreadEvent.t) : bool :=
  forallb (fun e => negb (stop e)) events.

(** No event of the channel is [turn.failed]. *)
Definition notFailed (event : ThreadEvent.t) : bool := negb (isTurnFailed event).

(** The errors of a line that does not decode, as the task wraps them. *)
Definition parseFailure (err : error) : error :=
  fmt_Errorf_w "parse codex event: " err.

Definition missingDiscriminator : error :=
  errorString "thread item missing type discriminator".

(** The event that has the type [ty] and nothing else. *)
Definition eventOfType (ty : string) : ThreadEvent.t :=
  {| ThreadEvent.Type_ := ty; ThreadEvent.ThreadID := ""; ThreadEvent.Usage := None;
     ThreadEvent.Error_ := None; ThreadEvent.Item := None;
     ThreadEvent.Message := ""; ThreadEvent.rawItem := "" |}.

(** The reads of a pipe: one per line but the last, each with its
    delimiter and no error, then the last line with the final error. *)
Definition readsFor (init : list string) (final : string) (e : error) : Reader :=
  (map (fun l => (ln l, None)) init ++ [(final, Some e)])%list.

(** A task whose context is not done and whose consumer is receiving. *)
Definition quiet (st : TaskState) : Prop := ts_done st = None /\ ts_gone st = None.

(** From [st] to [st'] the consumer received [events], the identity
    followed the events that start a thread, and the task is still
    [quiet]. *)
Definition delivered (events : list ThreadEvent.t) (st st' : TaskState) : Prop :=
  ts_events st' = (ts_events st ++ events)%list
  /\ ID (ts_thread st') = lastStarted events (ID (ts_thread st))
  /\ quiet st'.

(** The identity [t'] is the identity [t] or was written by a
    [thread.started] event that a line of [reader] decodes to. *)
Definition written (reader : Reader) (t t' : Thread) : Prop :=
  ID t' = ID t
  \/ exists event,
       decodes reader event
       /\ ThreadEvent.Type_ event = EventThreadStarted
       /\ ThreadEvent.ThreadID event <> ""
       /\ ID t' = ThreadEvent.ThreadID event.

(* ================================================================= *)
(** ** Processes and events the properties are tried on *)

Definition brokenPipe : error := PathError "write |1: broken pipe".

(** The script of [TestExecEarlyExit]: one line on each of the output
    streams, then status 2.  The script does not read its input; here the
    prompt was written before it exited, and its standard error was copied
    to the end. *)
Definition earlyExit : Process :=
  {| stdoutBytes := ln (js "{'type':'test'}"); stdoutErr := None;
     stderrBytes := ln "early exit error"; stderrCopied := 17;
     cmdWait := Some (ExitError (Exited 2)); stdinWrite := None |}.

(** The same script when it has exited before the prompt is written: the
    write fails on the closed pipe. *)
Definition exitsAfterFailedWrite : Process :=
  {| stdoutBytes := ln (js "{'type':'test'}"); stdoutErr := None;
     stderrBytes := ln "early exit error"; stderrCopied := 17;
     cmdWait := Some (ExitError (Exited 2)); stdinWrite := Some brokenPipe |}.

(** The same script when [cmd.Wait] has closed the pipe of its standard
    error before the copy read anything. *)
Definition exitsBeforeTheCopy : Process :=
  {| stdoutBytes := ln (js "{'type':'test'}"); stdoutErr := None;
     stderrBytes := ln "early exit error"; stderrCopied := 0;
     cmdWait := Some (ExitError (Exited 2)); stdinWrite := None |}.

(** The script of [TestExecStreamReadAndWait]: three lines and a clean
    exit. *)
Definition threeLines : Process :=
  {| stdoutBytes :=
       ln (js "{'type':'line1'}") ++ ln (js "{'type':'line2'}")
       ++ ln (js "{'type':'line3'}");
     stdoutErr := None; stderrBytes := ""; stderrCopied := 0; cmdWait := None;
     stdinWrite := None |}.

(** The payload of the unknown kind in [TestUnmarshalThreadItem]. *)
Definition futureItem : string := js "{'type':'future_type','data':'test'}".

(** A process that prints a [turn.failed] event and then exits with
    status 1 of its own. *)
Definition crashAfterFailure : Process :=
  {| stdoutBytes := ln (js "{'type':'turn.failed','error':{'message':'model overloaded'}}");
     stdoutErr := None;
     stderrBytes := ln "segmentation fault"; stderrCopied := 19;
     cmdWait := Some (ExitError (Exited 1));
     stdinWrite := None |}.

(** What [waitFn] returns for it, and the termination error of the stream
    when the task saw the cancellation before the end of the output. *)
Definition crash : error :=
  ErrExecFailed 1 "segmentation fault" (Some (ExitError (Exited 1))).

Definition cancelledWithCrash : error := fmt_Errorf_wait context_Canceled crash.

Definition overloaded : ThreadEvent.t :=
  {| ThreadEvent.Type_ := EventTurnFailed; ThreadEvent.ThreadID := "";
     ThreadEvent.Usage := None;
     ThreadEvent.Error_ := Some {| ThreadError.Message := "model overloaded" |};
     ThreadEvent.Item := None; ThreadEvent.Message := ""; ThreadEvent.rawItem := "" |}.

Definition turnStarted : ThreadEvent.t := eventOfType EventTurnStarted.

(** A turn: two agent messages and a reasoning item completed, the second
    message after the [turn.completed] event, and an item that only
    started. *)
Definition sampleChannel : list ThreadEvent.t :=
  decodedPrefix
    [js "{'type':'thread.started','thread_id':'th-1'}";
     js "{'type':'item.completed','item':{'id':'1','type':'agent_message','text':'Hello'}}";
     js "{'type':'turn.completed','usage':{'input_tokens':7,'cached_input_tokens':1,'output_tokens':3}}";
     js "{'type':'item.completed','item':{'id':'2','type':'reasoning','text':'because'}}";
     js "{'type':'item.completed','item':{'id':'3','type':'agent_message','text':'Bye'}}";
     js "{'type':'item.started','item':{'id':'4','type':'agent_message','text':'unfinished'}}"].

(** An object without [type], then a well-formed event, then a clean
    exit. *)
Definition untypedThenStarted : Process :=
  {| stdoutBytes := ln "{}" ++ ln (js "{'type':'turn.started'}");
     stdoutErr := None; stderrBytes := ""; stderrCopied := 0; cmdWait := None;
     stdinWrite := None |}.

(** An [item.completed] event whose item has no [type]. *)
Definition itemWithoutType : string :=
  js "{'type':'item.completed','item':{'id':'1','text':'hi'}}".

(** Two [thread.started] events with distinct identifiers. *)
Definition startedTwice : Process :=
  {| stdoutBytes :=
       ln (js "{'type':'thread.started','thread_id':'thread-A'}")
       ++ ln (js "{'type':'thread.started','thread_id':'thread-B'}");
     stdoutErr := None; stderrBytes := ""; stderrCopied := 0; cmdWait := None;
     stdinWrite := None |}.

(** A line that is not JSON, then exit status 3. *)
Definition garbageThenFail : Process :=
  {| stdoutBytes := ln "not json"; stdoutErr := None; stderrBytes := ln "bad flag";
     stderrCopied := 9; cmdWait := Some (ExitError (Exited 3)); stdinWrite := None |}.

(** A task that looks at the context once more before the cancellation of
    the consumer reaches it. *)
Definition late : Schedule :=
  {| cancelAt := None; ctxCause := context_Canceled; lag := 1;
     chooseSend := fun _ => true |}.

(* ================================================================= *)
(** ** Reference definitions for the options, the command and the input *)

(** The key of an entry of [os.Environ]: what precedes its first ["="]. *)
Definition keyOf (kv : string) : string :=
  match strings_IndexByte kv "=" with
  | Some idx => take idx kv
  | None => kv
  end.

(** The value of the last entry of [environ] that is [k], ["="] and a
    value. *)
Fixpoint lastValue (k : string) (environ : list string) : option string :=
  match environ with
  | [] => None
  | kv :: rest =>
      match lastValue k rest with
      | Some v => Some v
      | None => stripPrefix (k ++ "=") kv
      end
  end.

(** The two halves of an entry of [os.Environ]: what precedes and what
    follows its first ["="]. *)
Definition halves (kv : string) : string * string :=
  match strings_IndexByte kv "=" with
  | Some idx => (take idx kv, drop (S idx) kv)
  | None => (kv, "")
  end.

(** A flag and its value, or nothing when the value is empty. *)
Definition flagged (flag value : string) : list string :=
  if String.eqb value "" then [] else [flag; value].

(** [--config] and a setting, for an option that is set. *)
Definition configured (setting : option string) : list string :=
  match setting with
  | Some s => ["--config"; s]
  | None => []
  end.

(** The arguments with other secrets: another prompt, URL and key. *)
Definition withSecrets (input baseURL apiKey : string) (args : ExecArgs.t) : ExecArgs.t :=
  {| ExecArgs.Input := input; ExecArgs.BaseURL := baseURL; ExecArgs.APIKey := apiKey;
     ExecArgs.ThreadID := ExecArgs.ThreadID args;
     ExecArgs.Images := ExecArgs.Images args;
     ExecArgs.Model := ExecArgs.Model args;
     ExecArgs.SandboxMode := ExecArgs.SandboxMode args;
     ExecArgs.WorkingDirectory := ExecArgs.WorkingDirectory args;
     ExecArgs.SkipGitRepoCheck := ExecArgs.SkipGitRepoCheck args;
     ExecArgs.OutputSchemaFile := ExecArgs.OutputSchemaFile args;
     ExecArgs.ModelReasoningEffort := ExecArgs.ModelReasoningEffort args;
     ExecArgs.NetworkAccessEnabled := ExecArgs.NetworkAccessEnabled args;
     ExecArgs.WebSearchEnabled := ExecArgs.WebSearchEnabled args;
     ExecArgs.ApprovalPolicy := ExecArgs.ApprovalPolicy args;
     ExecArgs.AdditionalDirectories := ExecArgs.AdditionalDirectories args |}.

(** The thread options the package offers, as data. *)
Inductive threadOpt : Type :=
| optModel (model : string)
| optSandboxMode (mode : string)
| optWorkingDirectory (dir : string)
| optSkipGitRepoCheck
| optModelReasoningEffort (effort : string)
| optNetworkAccess (enabled : bool)
| optWebSearch (enabled : bool)
| optApprovalPolicy (policy : string)
| optAdditionalDirectories (dirs : list string).

Definition threadOption (o : threadOpt) : ThreadOption :=
  match o with
  | optModel model => WithModel model
  | optSandboxMode mode => WithSandboxMode mode
  | optWorkingDirectory dir => WithWorkingDirectory dir
  | optSkipGitRepoCheck => WithSkipGitRepoCheck
  | optModelReasoningEffort effort => WithModelReasoningEffort effort
  | optNetworkAccess enabled => WithNetworkAccess enabled
  | optWebSearch enabled => WithWebSearch enabled
  | optApprovalPolicy policy => WithApprovalPolicy policy
  | optAdditionalDirectories dirs => WithAdditionalDirectories dirs
  end.

(** The values that the options of one kind give, in the order given. *)
Definition models (os : list threadOpt) : list string :=
  flat_map (fun o => match o with optModel m => [m] | _ => [] end) os.
Definition sandboxModes (os : list threadOpt) : list string :=
  flat_map (fun o => match o with optSandboxMode m => [m] | _ => [] end) os.
Definition workingDirectories (os : list threadOpt) : list string :=
  flat_map (fun o => match o with optWorkingDirectory d => [d] | _ => [] end) os.
Definition skips (os : list threadOpt) : bool :=
  existsb (fun o => match o with optSkipGitRepoCheck => true | _ => false end) os.
Definition efforts (os : list threadOpt) : list string :=
  flat_map (fun o => match o with optModelReasoningEffort e => [e] | _ => [] end) os.
Definition networkAccesses (os : list threadOpt) : list (option bool) :=
  flat_map (fun o => match o with optNetworkAccess b => [Some b] | _ => [] end) os.
Definition webSearches (os : list threadOpt) : list (option bool) :=
  flat_map (fun o => match o with optWebSearch b => [Some b] | _ => [] end) os.
Definition policies (os : list threadOpt) : list string :=
  flat_map (fun o => match o with optApprovalPolicy p => [p] | _ => [] end) os.
Definition directories (os : list threadOpt) : list string :=
  flat_map (fun o => match o with optAdditionalDirectories ds => ds | _ => [] end) os.

(** The two parts of a target triple. *)
Definition cpuOf (goarch : string) : option string :=
  if String.eqb goarch "amd64" then Some "x86_64"
  else if String.eqb goarch "arm64" then Some "aarch64"
  else None.

Definition systemOf (goos : string) : option string :=
  if String.eqb goos "linux" || String.eqb goos "android" then Some "unknown-linux-musl"
  else if String.eqb goos "darwin" then Some "apple-darwin"
  else if String.eqb goos "windows" then Some "pc-windows-msvc"
  else None.

(** A part that [normalizeInput] accepts: a text, or a local image with a
    path. *)
Definition validPart (part : UserInput.t) : bool :=
  String.eqb (UserInput.Type_ part) InputText
  || (String.eqb (UserInput.Type_ part) InputLocalImage
      && negb (String.eqb (UserInput.Path part) "")).

(** The texts of the text parts and the paths of the image parts, in
    order. *)
Definition textsOf (parts : list UserInput.t) : list string :=
  flat_map
    (fun part =>
       if String.eqb (UserInput.Type_ part) InputText then [UserInput.Text part] else [])
    parts.

Definition imagesOf (parts : list UserInput.t) : list string :=
  flat_map
    (fun part =>
       if String.eqb (UserInput.Type_ part) InputLocalImage then [UserInput.Path part]
       else [])
    parts.

(** What is wrong with a part that is not valid, the part at index [idx]:
    the path of the image missing, the type missing, or a type that is not
    supported. *)
Definition complaint (idx : nat) (part : UserInput.t) : ErrInvalidInput.t :=
  let at_ := "input part " ++ itoa (Z.of_nat idx) in
  if String.eqb (UserInput.Type_ part) InputLocalImage then
    {| ErrInvalidInput.Field := "image path"; ErrInvalidInput.Value := "";
       ErrInvalidInput.Reason := at_ ++ ": local image path must be set" |}
  else if String.eqb (UserInput.Type_ part) "" then
    {| ErrInvalidInput.Field := "input type"; ErrInvalidInput.Value := "";
       ErrInvalidInput.Reason := at_ ++ ": type must be set" |}
  else
    {| ErrInvalidInput.Field := "input type";
       ErrInvalidInput.Value := UserInput.Type_ part;
       ErrInvalidInput.Reason := at_ ++ ": unsupported type" |}.

(** A byte of ASCII that is not white space. *)
Definition visible (c : ascii) : bool := (code c <? 128)%N && negb (isSpace1 c).

(** The directories that the calls made and those they removed. *)
Definition made (calls : list FsCall) : list string :=
  flat_map (fun c => match c with MkdirTemp dir => [dir] | _ => [] end) calls.

Definition removed (calls : list FsCall) : list string :=
  flat_map (fun c => match c with RemoveAll dir => [dir] | _ => [] end) calls.

(** The [Type] field of an item, the [ItemType] field of an unknown one. *)
Definition typeField (item : ThreadItem) : string :=
  match item with
  | AgentMessage i => AgentMessageItem.Type_ i
  | Reasoning i => ReasoningItem.Type_ i
  | CommandExecution i => CommandExecutionItem.Type_ i
  | FileChange i => FileChangeItem.Type_ i
  | McpToolCall i => McpToolCallItem.Type_ i
  | WebSearch i => WebSearchItem.Type_ i
  | TodoList i => TodoListItem.Type_ i
  | ErrorItemOf i => ErrorItem.Type_ i
  | Unknown i => UnknownItem.ItemType i
  end.

(** A struct whose field [ty] is tagged [type]: a member that the
    discriminator reads is stored in it, and no other member changes it. *)
Definition readsType {A : Type} (field : Setter A) (ty : A -> string) : Prop :=
  forall key raw v x x',
    field key raw v x = Ok x' ->
    if fieldIs "type" key then intoString v (ty x) = Ok (ty x') else ty x' = ty x.

(** What is found behind the pointers and the interfaces of a value:
    nothing when one of them is [nil]. *)
Fixpoint reached (v : GoValue) : option GoValue :=
  match v with
  | PointerTo (Some elem) => reached elem
  | PointerTo None => None
  | InterfaceOf (Some dynamic) => reached dynamic
  | InterfaceOf None => None
  | _ => Some v
  end.

(* ================================================================= *)
(** ** Machines and clients the properties are tried on *)

(** A file system that answers every call without error. *)
Definition obliging : SchemaIO :=
  {| os_MkdirTemp := Ok "/tmp/codex-output-schema-1";
     json_Marshal := Ok "{}";
     schema_Join := fun dir => dir ++ "/schema.json";
     os_WriteFile := None;
     os_RemoveAll := None |}.

(** A client for the binary [/usr/bin/codex] with a key, and a thread of
    it with a model. *)
Definition client : Codex.t :=
  {| Codex.exec := {| Exec.path := "/usr/bin/codex"; Exec.env := None |};
     Codex.options := applyCodexOptions [WithAPIKey "sk-test"] |}.

Definition gpt : ThreadConfig := fst (Codex_StartThread client [WithModel "gpt-5"]).

(* ================================================================= *)
(** * Properties *)

(** ** Errors *)

Lemma ProcessState_eqb_refl (st : ProcessState) : ProcessState_eqb st st = true.
Proof.
  destruct st; simpl; [apply Z.eqb_refl | apply String.eqb_refl].
Qed.

Lemma error_eqb_refl : forall e : error, error_eqb e e = true.
Proof.
  fix IH 1.
  intros [ | | | s | m e | st | c s [e | ] | m | m ]; simpl;
    rewrite ?String.eqb_refl, ?Z.eqb_refl, ?ProcessState_eqb_refl; simpl;
    try reflexivity; apply IH.
Qed.

Lemma errors_Is_refl (e : error) : errors_Is e e = true.
Proof.
  destruct e as [ | | | s | m e | st | c s [e | ] | m | m ]; simpl;
    rewrite ?String.eqb_refl, ?Z.eqb_refl, ?ProcessState_eqb_refl, ?error_eqb_refl;
    reflexivity.
Qed.

(** The error [fmt_Errorf_wait] builds has the read error as its chain and
    both texts in its message. *)
Lemma fmt_Errorf_wait_keeps_both (re we : error) :
  Unwrap (fmt_Errorf_wait re we) = Some re
  /\ errors_Is (fmt_Errorf_wait re we) re = true
  /\ Error (fmt_Errorf_wait re we) = Error re ++ "; wait error: " ++ Error we.
Proof.
  repeat split.
  unfold fmt_Errorf_wait. simpl. rewrite errors_Is_refl. apply orb_true_r.
Qed.

(* ================================================================= *)
(** ** The process runner *)

(** C2: [waitFn] does not decide in the order of the claim.  The script of
    [TestExecEarlyExit] exits with status 2 and never reads its input; when
    it has exited before the prompt is written, [waitFn] returns the wrapped
    error of the write, whose text has neither the exit code nor the
    standard error.  The same script with the prompt written gives the
    [ErrExecFailed] that the test asks for. *)
Theorem waitFn_write_error_hides_exit_status :
  cmdWait exitsAfterFailedWrite = Some (ExitError (Exited 2))
  /\ stdinWrite exitsAfterFailedWrite = Some brokenPipe
  /\ waitFn exitsAfterFailedWrite
     = Some (wrapError "write to codex stdin: write |1: broken pipe" brokenPipe)
  /\ option_map Error (waitFn exitsAfterFailedWrite)
     = Some "write to codex stdin: write |1: broken pipe"
  /\ waitFn earlyExit
     = Some (ErrExecFailed 2 "early exit error" (Some (ExitError (Exited 2))))
  /\ option_map Error (waitFn earlyExit)
     = Some "codex exec exited with code 2: early exit error".
Proof.
  split; [reflexivity | ]. split; [reflexivity | ].
  split; [reflexivity | ]. split; [reflexivity | ].
  split; reflexivity.
Qed.






(** The copy cut short: when [cmd.Wait] closed the pipe before anything of
    the line was copied, the error has the exit code and an empty
    [Stderr]. *)
Lemma waitFn_after_a_short_copy :
  waitFn exitsBeforeTheCopy = Some (ErrExecFailed 2 "" (Some (ExitError (Exited 2))))
  /\ option_map Error (waitFn exitsBeforeTheCopy) = Some "codex exec exited with code 2".
Proof.
  split; reflexivity.
Qed.

(* ================================================================= *)
(** ** Item decoding *)

(** C4: a payload whose discriminator decodes to a non-empty string outside
    the known kinds is decoded, without error, to the [UnknownItem] that
    carries this string and the payload bytes. *)
Theorem unmarshalThreadItem_unknown (data ty : string)
    (discriminated : discriminatorOf data = Ok ty)
    (nonEmpty : ty <> "")
    (unknown : ~ In ty knownItemTypes) :
  unmarshalThreadItem data
  = Ok (Unknown {| UnknownItem.ItemType := ty; UnknownItem.Raw := data |}).
Proof.
  unfold unmarshalThreadItem. rewrite discriminated. simpl.
  assert (miss : forall k, In k knownItemTypes -> String.eqb ty k = false).
  { intros k Hk. apply String.eqb_neq. intros ->. exact (unknown Hk). }
  rewrite !miss by (simpl; tauto).
  apply String.eqb_neq in nonEmpty. rewrite nonEmpty. reflexivity.
Qed.

Lemma unmarshalThreadItem_unknown_witness :
  unmarshalThreadItem futureItem
  = Ok (Unknown {| UnknownItem.ItemType := "future_type";
                   UnknownItem.Raw := futureItem |}).
Proof.
  apply (unmarshalThreadItem_unknown futureItem "future_type").
  - vm_compute. reflexivity.
  - discriminate.
  - simpl. intros H. repeat (destruct H as [H | H]; [discriminate H | ]). exact H.
Defined.

(* ================================================================= *)
(** ** The aggregator *)

Lemma last_cons_default {A : Type} (a : A) (l : list A) (d : A) :
  last (a :: l) d = last l a.
Proof.
  revert a d. induction l as [ | b l IH]; intros a d; [reflexivity | ].
  change (last (a :: b :: l) d) with (last (b :: l) d).
  rewrite (IH b d), (IH b a). reflexivity.
Qed.

Lemma last_app_default {A : Type} (l1 l2 : list A) (d : A) :
  last (l1 ++ l2) d = last l2 (last l1 d).
Proof.
  revert d. induction l1 as [ | a l1 IH]; intros d; [reflexivity | ].
  rewrite <- app_comm_cons, !last_cons_default. apply IH.
Qed.

Lemma completedItems_cons (e : ThreadEvent.t) (rest : list ThreadEvent.t) :
  completedItems (e :: rest)
  = (match completedItem e with Some i => [i] | None => [] end ++ completedItems rest)%list.
Proof. reflexivity. Qed.

Lemma agentTexts_app (a b : list ThreadItem) :
  agentTexts (a ++ b) = (agentTexts a ++ agentTexts b)%list.
Proof. apply flat_map_app. Qed.

(** The loop of [Thread.Run] over events none of which is [turn.failed]:
    every variable in terms of the whole list. *)
Lemma Run_loop_no_failure (events : list ThreadEvent.t) :
  forallb notFailed events = true ->
  forall s,
    Run_loop events s
    = {| items := items s ++ completedItems events;
         finalResponse := last (agentTexts (completedItems events)) (finalResponse s);
         usage := last (map ThreadEvent.Usage (filter isTurnCompleted events)) (usage s);
         turnFailure := turnFailure s |}.
Proof.
  induction events as [ | e rest IH]; intros ok s.
  - simpl. rewrite app_nil_r. destruct s; reflexivity.
  - cbn [forallb] in ok. apply andb_true_iff in ok as [He ok].
    unfold notFailed, isTurnFailed in He. apply negb_true_iff in He.
    cbn [Run_loop filter]. rewrite completedItems_cons.
    unfold completedItem, isTurnCompleted at 1.
    destruct (String.eqb (ThreadEvent.Type_ e) EventItemCompleted) eqn:Hic.
    + assert (Htc : String.eqb (ThreadEvent.Type_ e) EventTurnCompleted = false).
      { apply String.eqb_eq in Hic. rewrite Hic. reflexivity. }
      rewrite Htc.
      destruct (ThreadEvent.Item e) as [item | ]; rewrite (IH ok);
        cbn [items finalResponse usage turnFailure]; [ | reflexivity].
      rewrite <- app_assoc, agentTexts_app, last_app_default.
      f_equal. destruct item; reflexivity.
    + destruct (String.eqb (ThreadEvent.Type_ e) EventTurnCompleted) eqn:Htc.
      * rewrite (IH ok). cbn [items finalResponse usage turnFailure map app].
        rewrite last_cons_default. reflexivity.
      * rewrite He. rewrite (IH ok). reflexivity.
Qed.

(** Events before the first [turn.failed] are consumed one by one. *)
Lemma Run_loop_app (pre rest : list ThreadEvent.t) :
  forallb notFailed pre = true ->
  forall s, Run_loop (pre ++ rest) s = Run_loop rest (Run_loop pre s).
Proof.
  induction pre as [ | e pre IH]; intros ok s; [reflexivity | ].
  simpl in ok. apply andb_true_iff in ok as [He ok].
  unfold notFailed, isTurnFailed in He. apply negb_true_iff in He.
  simpl. rewrite He.
  destruct (String.eqb (ThreadEvent.Type_ e) EventItemCompleted);
    [destruct (ThreadEvent.Item e) | ];
    [ | | destruct (String.eqb (ThreadEvent.Type_ e) EventTurnCompleted)];
    apply (IH ok).
Qed.

(** C1, as stated, fails.  The process [crashAfterFailure] fails on its
    own account after it printed [turn.failed].  The task sees the
    cancellation of the aggregator at the head of its next iteration, then
    awaits the process: the termination error of the stream is the
    cancellation with the process failure appended, which is present and is
    not simply the cancellation.  [Thread.Run] does not return it: it
    returns the message of the turn failure, and the process failure is
    lost. *)
Lemma Run_hides_process_failure :
  let run := streamTask calm isTurnFailed StartThread crashAfterFailure in
  map ThreadEvent.Type_ (Events (sr_streamed run)) = [EventTurnFailed]
  /\ sr_waitErr run = Some crash
  /\ option_map fst (StreamedTurn_Wait (sr_streamed run)) = Some (Some cancelledWithCrash)
  /\ Error cancelledWithCrash
     = "context canceled; wait error: codex exec exited with code 1: segmentation fault"
  /\ cancelledWithCrash <> context_Canceled
  /\ option_map fst (Thread_Run calm None StartThread crashAfterFailure)
     = Some (Err (errorString "model overloaded"))
  /\ Run_over (Events (sr_streamed run)) (Some cancelledWithCrash)
     <> Err cancelledWithCrash.
Proof.
  vm_compute. repeat split; discriminate.
Qed.

(** C1, amended: when a [turn.failed] event was observed, [Thread.Run]
    returns no turn; it returns the termination error of the stream when
    there is one that has no [context.Canceled] in its chain, and otherwise
    (no stream error, the cancellation, or the cancellation with an await
    error appended) an error that carries the message recorded from the
    first [turn.failed] event, [turn failed] when the event had none. *)
Theorem Run_after_turn_failed (pre post : list ThreadEvent.t)
    (failed : ThreadEvent.t) (waitErr : option error)
    (before : forallb notFailed pre = true)
    (isFailed : isTurnFailed failed = true) :
  Run_over (pre ++ failed :: post) waitErr
  = Err (match waitErr with
         | Some e =>
             if errors_Is e context_Canceled
             then errors_New (failureMessage failed) else e
         | None => errors_New (failureMessage failed)
         end).
Proof.
  unfold Run_over. rewrite (Run_loop_app pre _ before).
  rewrite (Run_loop_no_failure pre before). simpl.
  unfold isTurnFailed in isFailed. apply String.eqb_eq in isFailed.
  rewrite isFailed. simpl. unfold Run_return, failureMessage. simpl.
  destruct waitErr as [e | ]; [ | destruct (ThreadEvent.Error_ failed); reflexivity].
  destruct (errors_Is e context_Canceled); simpl;
    destruct (ThreadEvent.Error_ failed); reflexivity.
Qed.

Lemma Run_after_turn_failed_witness :
  Run_over ([turnStarted] ++ overloaded :: [turnStarted]) (Some crash) = Err crash
  /\ Run_over ([turnStarted] ++ overloaded :: [turnStarted]) (Some cancelledWithCrash)
     = Err (errorString "model overloaded").
Proof.
  split.
  - exact (Run_after_turn_failed [turnStarted] [turnStarted] overloaded
             (Some crash) eq_refl eq_refl).
  - exact (Run_after_turn_failed [turnStarted] [turnStarted] overloaded
             (Some cancelledWithCrash) eq_refl eq_refl).
Defined.

(** C6: over events without [turn.failed] and a stream without error,
    [Thread.Run] returns the turn of the specification: the items of the
    [item.completed] events in order, the text of the last agent message
    among them (empty when there is none), the usage of the last
    [turn.completed] event ([nil] when there is none).  A [turn.completed]
    event does not end the consumption: the items completed after it are
    part of the turn. *)
Theorem Run_aggregates (events : list ThreadEvent.t)
    (noFailure : forallb notFailed events = true) :
  Run_over events None = Ok (turnOf events)
  /\ forall pre completed post,
       events = (pre ++ completed :: post)%list ->
       isTurnCompleted completed = true ->
       completedItems events = (completedItems pre ++ completedItems post)%list.
Proof.
  split.
  - unfold Run_over. rewrite (Run_loop_no_failure events noFailure). reflexivity.
  - intros pre completed post -> Htc.
    unfold completedItems. rewrite flat_map_app. simpl.
    unfold completedItem. unfold isTurnCompleted in Htc.
    apply String.eqb_eq in Htc. rewrite Htc. reflexivity.
Qed.

Lemma Run_aggregates_witness :
  Run_over sampleChannel None = Ok (turnOf sampleChannel)
  /\ map itemType (Turn.Items (turnOf sampleChannel))
     = [ItemAgentMessage; ItemReasoning; ItemAgentMessage]
  /\ Turn.FinalResponse (turnOf sampleChannel) = "Bye"
  /\ Turn.Usage (turnOf sampleChannel)
     = Some {| Usage.InputTokens := 7; Usage.CachedInputTokens := 1;
               Usage.OutputTokens := 3 |}.
Proof.
  split.
  - apply (Run_aggregates sampleChannel). vm_compute. reflexivity.
  - vm_compute. repeat split.
Defined.

(* ================================================================= *)
(** ** Trimming a line *)

Lemma revOnto_app (s t acc : string) :
  revOnto (s ++ t) acc = revOnto t (revOnto s acc).
Proof.
  revert acc. induction s as [ | c s IH]; intros acc; [reflexivity | apply IH].
Qed.

Lemma reverse_ln (s : string) : reverse (ln s) = String LF (reverse s).
Proof.
  unfold reverse, ln. rewrite revOnto_app. reflexivity.
Qed.

Lemma isSpace2_LF (a : ascii) : isSpace2 a LF = false.
Proof.
  unfold isSpace2. apply andb_false_r.
Qed.

Lemma isSpace3_LF (a b : ascii) : isSpace3 a b LF = false.
Proof.
  unfold isSpace3. change (code LF) with 10%N. cbn.
  rewrite !andb_false_r. reflexivity.
Qed.

(** Left trimming of a line with its newline: nothing is left of a blank
    line, and the newline stays behind anything else. *)
Lemma trimLeft_ln (n : nat) :
  forall l, (String.length l <= n)%nat ->
    trimLeftBy isSpace2 isSpace3 (ln l)
    = match trimLeftBy isSpace2 isSpace3 l with
      | EmptyString => EmptyString
      | u => ln u
      end.
Proof.
  induction n as [ | n IH]; intros l Hlen.
  - destruct l; [reflexivity | simpl in Hlen; lia].
  - destruct l as [ | a [ | b [ | c r]]]; cbn [ln append trimLeftBy String.length] in *.
    + reflexivity.
    + destruct (isSpace1 a); [reflexivity | ].
      rewrite isSpace2_LF. reflexivity.
    + destruct (isSpace1 a).
      * apply (IH (String b "")). simpl. lia.
      * destruct (isSpace2 a b); [reflexivity | ].
        rewrite isSpace3_LF. reflexivity.
    + destruct (isSpace1 a).
      * apply (IH (String b (String c r))). simpl. lia.
      * destruct (isSpace2 a b).
        -- apply (IH (String c r)). simpl. lia.
        -- destruct (isSpace3 a b c); [ | reflexivity].
           apply (IH r). lia.
Qed.

(** [TrimSpace] does not see the delimiter that [ReadBytes] leaves at the
    end of a line. *)
Lemma TrimSpace_ln (l : string) : TrimSpace (ln l) = TrimSpace l.
Proof.
  unfold TrimSpace. rewrite (trimLeft_ln (String.length l) l (le_n _)).
  destruct (trimLeftBy isSpace2 isSpace3 l) as [ | a u] eqn:E; [reflexivity | ].
  rewrite reverse_ln. reflexivity.
Qed.

Lemma nonBlank_length (s : string) : (0 <? String.length s)%nat = nonBlank s.
Proof.
  destruct s; reflexivity.
Qed.

(* ================================================================= *)
(** ** The reader *)

Lemma readsOf_lines (s : string) (e : error) :
  exists init final,
    lines s = (init ++ [final])%list /\ readsOf s e = readsFor init final e.
Proof.
  induction s as [ | c r (init & final & Hl & Hr)].
  - exists [], "". split; reflexivity.
  - cbn [lines readsOf]. destruct (Ascii.eqb c LF) eqn:Hc.
    + apply Ascii.eqb_eq in Hc. subst c.
      exists ("" :: init), final. rewrite Hl, Hr. split; reflexivity.
    + rewrite Hl, Hr. destruct init as [ | l0 init].
      * exists [], (String c final). split; reflexivity.
      * exists (String c l0 :: init), final. split; reflexivity.
Qed.

(* ================================================================= *)
(** ** The stream task without cancellation *)

Lemma lastStarted_cons (e : ThreadEvent.t) (events : list ThreadEvent.t) (i : string) :
  lastStarted (e :: events) i
  = lastStarted events (if startsThread e then ThreadEvent.ThreadID e else i).
Proof.
  unfold lastStarted. cbn [filter]. destruct (startsThread e); [ | reflexivity].
  cbn [map]. apply last_cons_default.
Qed.

Lemma lastStarted_app (a b : list ThreadEvent.t) (i : string) :
  lastStarted (a ++ b) i = lastStarted b (lastStarted a i).
Proof.
  unfold lastStarted. rewrite filter_app, map_app. apply last_app_default.
Qed.

Lemma setID_startsThread (e : ThreadEvent.t) (t : Thread) :
  ID (if startsThread e then setID (ThreadEvent.ThreadID e) t else t)
  = (if startsThread e then ThreadEvent.ThreadID e else ID t).
Proof.
  destruct (startsThread e) eqn:H; [ | reflexivity].
  unfold startsThread in H. apply andb_true_iff in H as [_ H].
  unfold setID. apply negb_true_iff in H. rewrite H. reflexivity.
Qed.

Lemma quiet_observed (st : TaskState) : quiet st -> quiet (observed st).
Proof. intros H. exact H. Qed.

Lemma delivered_observed (events : list ThreadEvent.t) (st st' : TaskState) :
  delivered events (observed st) st' -> delivered events st st'.
Proof. intros H. exact H. Qed.

Lemma delivered_trans (a b : list ThreadEvent.t) (st1 st2 st3 : TaskState) :
  delivered a st1 st2 -> delivered b st2 st3 -> delivered (a ++ b) st1 st3.
Proof.
  intros (E1 & I1 & _) (E2 & I2 & Q). repeat split; try apply Q.
  - rewrite E2, E1. symmetry. apply app_assoc.
  - rewrite I2, I1. symmetry. apply lastStarted_app.
Qed.

Lemma decodedPrefix_first (l : string) (rest : list string) :
  (nonBlank l = true -> exists event, json_Unmarshal_ThreadEvent l = Ok event) ->
  decodedPrefix (filter nonBlank (l :: rest))
  = (decodedPrefix (filter nonBlank [l]) ++ decodedPrefix (filter nonBlank rest))%list
  /\ firstFailure (filter nonBlank (l :: rest)) = firstFailure (filter nonBlank rest).
Proof.
  intros H. cbn [filter]. destruct (nonBlank l); [ | split; reflexivity].
  destruct (H eq_refl) as [event E]. cbn [decodedPrefix firstFailure]. rewrite E.
  split; reflexivity.
Qed.

Lemma unstopped_first (stop : ThreadEvent.t -> bool) (l : string) (rest : list string) :
  unstopped stop (decodedPrefix (filter nonBlank (l :: rest))) = true ->
  unstopped stop (decodedPrefix (filter nonBlank [l])) = true.
Proof.
  cbn [filter]. destruct (nonBlank l); [ | reflexivity].
  cbn [decodedPrefix]. destruct (json_Unmarshal_ThreadEvent l); [ | reflexivity].
  unfold unstopped. cbn [forallb]. intros H. apply andb_true_iff in H as [H _].
  rewrite H. reflexivity.
Qed.

Lemma unstopped_drain (events : list ThreadEvent.t) : unstopped drain events = true.
Proof.
  induction events as [ | e events IH]; [reflexivity | exact IH].
Qed.

Section Uncancelled.

(** The task runs under a schedule [sch], against a consumer that stops
    at the events [stop] accepts. *)
Variable sch : Schedule.
Variable stop : ThreadEvent.t -> bool.

Lemma select_quiet (event : ThreadEvent.t) (st : TaskState) :
  quiet st -> stop event = false ->
  select sch stop event st
  = ({| ts_thread := ts_thread st; ts_events := ts_events st ++ [event];
        ts_obs := S (ts_obs st); ts_done := None; ts_gone := None |}, None).
Proof.
  intros [Hd Hg] Hs. unfold select, ctx_Err, deliver, observed.
  rewrite Hg, Hd, Hs. reflexivity.
Qed.

(** One line handled without cancellation: a blank line changes nothing, a
    line that decodes is delivered, a line that does not is the failure. *)
Lemma handleLine_quiet (line : string) (st : TaskState) :
  quiet st ->
  unstopped stop (decodedPrefix (filter nonBlank [TrimSpace line])) = true ->
  match handleLine sch stop line st with
  | Failed st' runErr =>
      st' = st /\ nonBlank (TrimSpace line) = true
      /\ exists err, json_Unmarshal_ThreadEvent (TrimSpace line) = Err err
                     /\ runErr = fmt_Errorf_w "parse codex event: " err
  | Handled st' runErr =>
      runErr = None
      /\ delivered (decodedPrefix (filter nonBlank [TrimSpace line])) st st'
      /\ (nonBlank (TrimSpace line) = true ->
          exists event, json_Unmarshal_ThreadEvent (TrimSpace line) = Ok event)
  end.
Proof.
  intros Hq. unfold handleLine. rewrite nonBlank_length. cbn [filter].
  destruct (nonBlank (TrimSpace line)) eqn:Hb.
  - cbn [decodedPrefix].
    destruct (json_Unmarshal_ThreadEvent (TrimSpace line)) as [event | err].
    + intros Hs. unfold unstopped in Hs. cbn [forallb] in Hs.
      apply andb_true_iff in Hs as [Hs _]. apply negb_true_iff in Hs.
      fold (startsThread event).
      match goal with
      | |- context [select sch stop event ?s] =>
          rewrite (select_quiet event s)
            by (try exact Hs; destruct (startsThread event); exact Hq)
      end.
      split; [reflexivity | ]. split; [ | intros _; exists event; reflexivity].
      unfold delivered. cbn [ts_events ts_thread ts_done ts_gone].
      split; [ | split; [ | split; reflexivity]].
      * destruct (startsThread event); reflexivity.
      * rewrite lastStarted_cons. unfold lastStarted at 1. cbn [filter map last].
        change (id ?t) with (ID t).
        rewrite <- setID_startsThread.
        destruct (startsThread event); reflexivity.
    + intros _. split; [reflexivity | ]. split; [reflexivity | ].
      exists err. split; reflexivity.
  - intros _. split; [reflexivity | ]. split; [ | discriminate].
    unfold delivered. cbn [decodedPrefix]. rewrite app_nil_r.
    split; [reflexivity | split; [reflexivity | exact Hq]].
Qed.

(** Without cancellation and with a consumer that does not stop, the loop
    delivers the decoding of the non-blank lines up to the first that
    fails, leaves the identity the last started thread gave, and ends with
    the failure of that line, or else with what the last read leaves. *)
Lemma readLoop_quiet (final : string) (e : error) (init : list string) :
  forall st, quiet st ->
    let ls := filter nonBlank (map TrimSpace (init ++ [final])) in
    let loop := readLoop sch stop (readsFor init final e) st in
    unstopped stop (decodedPrefix ls) = true ->
    delivered (decodedPrefix ls) st (le_state loop)
    /\ le_runErr loop
       = match firstFailure ls with
         | Some err => Some (parseFailure err)
         | None => afterReadErr e None
         end.
Proof.
  induction init as [ | l init IH]; intros st Hq ls loop Hs; subst ls loop.
  - unfold readsFor. cbn [map app readLoop].
    assert (Hc : ctx_Err st = None) by (unfold ctx_Err; rewrite (proj1 Hq); reflexivity).
    rewrite Hc.
    pose proof (handleLine_quiet final (observed st) (quiet_observed st Hq) Hs) as H.
    destruct (handleLine sch stop final (observed st)) as [st' runErr | st' runErr].
    + destruct H as (-> & Hb & err & Herr & ->). cbn [le_state le_runErr filter].
      rewrite Hb. cbn [decodedPrefix firstFailure]. rewrite Herr.
      split; [ | reflexivity].
      repeat split; try apply Hq. cbn. symmetry. apply app_nil_r.
    + destruct H as (-> & Hd & Hok). cbn [le_state le_runErr].
      split; [apply delivered_observed; exact Hd | ].
      cbn [filter]. destruct (nonBlank (TrimSpace final)); [ | reflexivity].
      destruct (Hok eq_refl) as [event E]. cbn [firstFailure]. rewrite E. reflexivity.
  - unfold readsFor. cbn [map app readLoop]. fold (readsFor init final e).
    cbn [map app] in Hs.
    assert (Hc : ctx_Err st = None) by (unfold ctx_Err; rewrite (proj1 Hq); reflexivity).
    rewrite Hc.
    pose proof (handleLine_quiet (ln l) (observed st) (quiet_observed st Hq)) as H.
    rewrite TrimSpace_ln in H. specialize (H (unstopped_first stop _ _ Hs)).
    destruct (handleLine sch stop (ln l) (observed st)) as [st' runErr | st' runErr].
    + destruct H as (-> & Hb & err & Herr & ->). cbn [le_state le_runErr filter].
      rewrite Hb. cbn [decodedPrefix firstFailure]. rewrite Herr.
      split; [ | reflexivity].
      repeat split; try apply Hq. cbn. symmetry. apply app_nil_r.
    + destruct H as (-> & Hd & Hok).
      destruct (decodedPrefix_first _ (map TrimSpace (init ++ [final])) Hok) as [E1 E2].
      rewrite E1, E2. rewrite E1 in Hs.
      unfold unstopped in Hs. rewrite forallb_app in Hs.
      apply andb_true_iff in Hs as [_ Hs].
      apply delivered_observed in Hd.
      destruct (IH st' (proj2 (proj2 Hd)) Hs) as [Hd' Hr'].
      split; [exact (delivered_trans _ _ st st' _ Hd Hd') | exact Hr'].
Qed.

Lemma streamTask_uncancelled (t : Thread) (p : Process) :
  cancelAt sch = None ->
  unstopped stop (decodedPrefix (nonBlankLines (stdoutBytes p))) = true ->
  let run := streamTask sch stop t p in
  Events (sr_streamed run) = decodedPrefix (nonBlankLines (stdoutBytes p))
  /\ ID (sr_thread run) = lastStarted (Events (sr_streamed run)) (ID t)
  /\ le_runErr (sr_loop run)
     = match firstFailure (nonBlankLines (stdoutBytes p)) with
       | Some err => Some (parseFailure err)
       | None =>
           afterReadErr (match stdoutErr p with Some e => e | None => io_EOF end) None
       end.
Proof.
  intros Hc. unfold streamTask, stdoutReader, nonBlankLines. cbn.
  set (e := match stdoutErr p with Some e => e | None => io_EOF end).
  destruct (readsOf_lines (stdoutBytes p) e) as (init & final & Hl & Hr).
  rewrite Hr, Hl. intros Hs.
  destruct (readLoop_quiet final e init (initialTask sch t)) as ((E & I & _) & R).
  { unfold initialTask. rewrite Hc. split; reflexivity. }
  { exact Hs. }
  rewrite E, I, R. cbn. repeat split; reflexivity.
Qed.

End Uncancelled.

(** X1: [Thread.Run] from end to end, for a process that prints no
    [turn.failed] event and no line that fails to decode, ends its output
    cleanly and is awaited without error, under a context that is not
    cancelled: the turn of its events. *)
Lemma Thread_Run_clean (sch : Schedule) (t : Thread) (p : Process) :
  let events := decodedPrefix (nonBlankLines (stdoutBytes p)) in
  cancelAt sch = None ->
  forallb notFailed events = true ->
  firstFailure (nonBlankLines (stdoutBytes p)) = None ->
  stdoutErr p = None ->
  waitFn p = None ->
  Thread_Run sch None t p
  = Some (Ok (turnOf events), {| id := lastStarted events (ID t) |}).
Proof.
  intros events Hc Hnf Hff He Hw.
  destruct (streamTask_uncancelled sch isTurnFailed t p Hc Hnf) as (E & I & R).
  rewrite Hff, He in R. cbn in R.
  unfold Thread_Run, runStreamedInternal.
  set (run := streamTask sch isTurnFailed t p) in *.
  assert (Hch : errCh (sr_streamed run) = [None]).
  { unfold run, streamTask in *. cbn in *. rewrite R, Hw. reflexivity. }
  assert (Hwo : waitOnce (sr_streamed run) = false) by reflexivity.
  unfold StreamedTurn_Wait. rewrite Hwo, Hch. rewrite E.
  fold events.
  rewrite (Run_loop_no_failure events Hnf).
  change (Run_return _ None) with (Ok (turnOf events)). f_equal. f_equal.
  destruct (sr_thread run) as [i] eqn:Ht. f_equal.
  rewrite E in I. exact I.
Qed.

(** ** The stream task under any schedule *)









(* ================================================================= *)
(** ** Lines without a discriminator *)

(** C3, as stated, fails for the top-level event: the line [{}] is valid
    JSON without [type], and so is the same with an empty [type]; each
    decodes, without error, to an event of empty type.  The stream goes on:
    the line after it is read and delivered, and [Wait] returns [nil]. *)
Lemma untyped_event_is_delivered :
  let run := streamTask calm drain StartThread untypedThenStarted in
  json_Unmarshal_ThreadEvent "{}" = Ok (eventOfType "")
  /\ json_Unmarshal_ThreadEvent (js "{'type':''}") = Ok (eventOfType "")
  /\ Events (sr_streamed run) = [eventOfType ""; eventOfType EventTurnStarted]
  /\ le_unread (sr_loop run) = []
  /\ option_map fst (StreamedTurn_Wait (sr_streamed run)) = Some None.
Proof.
  vm_compute. repeat split.
Qed.

Lemma parseJSON_nonBlank (data raw : string) (v : json) :
  parseJSON data = Ok (raw, v) -> nonBlank data = true.
Proof.
  destruct data; [discriminate | reflexivity].
Qed.

(** A line that does not decode ends the loop where it stands: no event
    for it, the error recorded, the reads after it left in the reader. *)
Lemma readLoop_stops_at_failure (sch : Schedule) (stop : ThreadEvent.t -> bool)
    (line : string) (readErr : option error) (rest : Reader) (st : TaskState)
    (err : error) :
  ctx_Err st = None ->
  nonBlank (TrimSpace line) = true ->
  json_Unmarshal_ThreadEvent (TrimSpace line) = Err err ->
  readLoop sch stop ((line, readErr) :: rest) st
  = {| le_state := observed st; le_runErr := Some (parseFailure err);
       le_unread := rest |}.
Proof.
  intros Hc Hb He. cbn [readLoop]. rewrite Hc.
  unfold handleLine. rewrite nonBlank_length, Hb, He. reflexivity.
Qed.

(** C3, amended.  A line that is valid JSON and whose [item] member is
    present with an absent or empty [type] does not decode: the loop stops
    at it with the decode error, delivers no event for it, leaves the rest
    of the output unread, and the outcome the task publishes is an error
    with this decode error in its chain.  A top-level object is not checked
    for its [type]: without an [item] member it decodes, whatever its
    [type]. *)
Theorem item_without_type_stops_stream (sch : Schedule)
    (stop : ThreadEvent.t -> bool) (line : string) (readErr : option error)
    (rest : Reader) (st : TaskState) (raw : string) (v : json) (aux : eventAux)
    (running : ctx_Err st = None)
    (valid : parseJSON (TrimSpace line) = Ok (raw, v))
    (decoded : decodeAux raw = Ok aux)
    (hasItem : aux_Item aux <> "")
    (noType : discriminatorOf (aux_Item aux) = Ok "") :
  let failure := parseFailure (fmt_Errorf_w "decode thread item: " missingDiscriminator) in
  json_Unmarshal_ThreadEvent (TrimSpace line)
  = Err (fmt_Errorf_w "decode thread item: " missingDiscriminator)
  /\ readLoop sch stop ((line, readErr) :: rest) st
     = {| le_state := observed st; le_runErr := Some failure; le_unread := rest |}
  /\ ts_events (observed st) = ts_events st
  /\ (forall awaitErr, exists outcome,
         reconcile (Some failure) awaitErr = Some outcome
         /\ errors_Is outcome failure = true)
  /\ (forall data aux',
         decodeAux data = Ok aux' -> aux_Item aux' = "" ->
         exists event,
           ThreadEvent_UnmarshalJSON data = Ok event
           /\ ThreadEvent.Type_ event = ThreadEvent.Type_ (aux_event aux')).
Proof.
  assert (Hdec : json_Unmarshal_ThreadEvent (TrimSpace line)
                 = Err (fmt_Errorf_w "decode thread item: " missingDiscriminator)).
  { unfold json_Unmarshal_ThreadEvent. rewrite valid. cbn [bind fst].
    unfold ThreadEvent_UnmarshalJSON. rewrite decoded. cbn [bind].
    rewrite nonBlank_length.
    destruct (aux_Item aux) as [ | c r] eqn:Hi; [contradiction hasItem; reflexivity | ].
    cbn [nonBlank String.eqb negb].
    unfold unmarshalThreadItem. rewrite noType. reflexivity. }
  intros failure. split; [exact Hdec | ]. split.
  - apply readLoop_stops_at_failure; [exact running | | exact Hdec].
    exact (parseJSON_nonBlank _ _ _ valid).
  - split; [reflexivity | ]. split.
    + intros [we | ]; cbn [reconcile].
      * destruct (errors_Is failure we); cbn [negb].
        -- exists failure. split; [reflexivity | apply errors_Is_refl].
        -- exists (fmt_Errorf_wait failure we). split; [reflexivity | ].
           apply fmt_Errorf_wait_keeps_both.
      * exists failure. split; [reflexivity | apply errors_Is_refl].
    + intros data aux' Hd Hi. unfold ThreadEvent_UnmarshalJSON.
      rewrite Hd. cbn [bind]. rewrite Hi. cbn. eexists. split; reflexivity.
Qed.

Lemma item_without_type_stops_stream_witness :
  readLoop calm drain
    [(ln itemWithoutType, None); (ln (js "{'type':'turn.completed'}"), Some io_EOF)]
    (initialTask calm StartThread)
  = {| le_state := observed (initialTask calm StartThread);
       le_runErr :=
         Some (parseFailure (fmt_Errorf_w "decode thread item: " missingDiscriminator));
       le_unread := [(ln (js "{'type':'turn.completed'}"), Some io_EOF)] |}.
Proof.
  refine (proj1 (proj2
    (item_without_type_stops_stream calm drain (ln itemWithoutType) None
       [(ln (js "{'type':'turn.completed'}"), Some io_EOF)]
       (initialTask calm StartThread)
       itemWithoutType
       (JObject
          [("type", (js "'item.completed'", JString "item.completed"));
           ("item", (js "{'id':'1','text':'hi'}",
                     JObject [("id", (js "'1'", JString "1"));
                              ("text", (js "'hi'", JString "hi"))]))])
       {| aux_event := eventOfType "item.completed";
          aux_Item := js "{'id':'1','text':'hi'}" |}
       _ _ _ _ _))).
  - reflexivity.
  - vm_compute. reflexivity.
  - vm_compute. reflexivity.
  - discriminate.
  - vm_compute. reflexivity.
Defined.

(* ================================================================= *)
(** ** The session identity *)

Lemma select_thread (sch : Schedule) (stop : ThreadEvent.t -> bool)
    (event : ThreadEvent.t) (st : TaskState) :
  ts_thread (fst (select sch stop event st)) = ts_thread st.
Proof.
  unfold select. destruct (ts_gone st); [reflexivity | ].
  destruct (ctx_Err st); [destruct (chooseSend sch (ts_obs st)) | ]; reflexivity.
Qed.

(** What one line does to the identity, under any schedule: nothing, or
    the [setID] of the identifier of a [thread.started] event it decodes
    to. *)
Lemma handleLine_thread (sch : Schedule) (stop : ThreadEvent.t -> bool)
    (line : string) (st : TaskState) :
  match handleLine sch stop line st with
  | Failed st' _ => ts_thread st' = ts_thread st
  | Handled st' _ =>
      match json_Unmarshal_ThreadEvent (TrimSpace line) with
      | Ok event =>
          ts_thread st'
          = if nonBlank (TrimSpace line) && startsThread event
            then setID (ThreadEvent.ThreadID event) (ts_thread st)
            else ts_thread st
      | Err _ => ts_thread st' = ts_thread st
      end
  end.
Proof.
  unfold handleLine. rewrite nonBlank_length.
  destruct (nonBlank (TrimSpace line)).
  - destruct (json_Unmarshal_ThreadEvent (TrimSpace line)) as [event | err];
      [ | reflexivity].
    fold (startsThread event).
    match goal with
    | |- context [select sch stop event ?s] =>
        pose proof (select_thread sch stop event s) as H;
        destruct (select sch stop event s) as [st' runErr]
    end.
    cbn [fst] in H. rewrite H. cbn [andb]. destruct (startsThread event); reflexivity.
  - destruct (json_Unmarshal_ThreadEvent (TrimSpace line)); reflexivity.
Qed.

Lemma written_later (x : ReadResult) (reader : Reader) (t t' : Thread) :
  written reader t t' -> written (x :: reader) t t'.
Proof.
  intros [H | (event & (line & readErr & Hin & Hd) & H)]; [left; exact H | right].
  exists event. split; [ | exact H]. exists line, readErr. split; [right | ]; assumption.
Qed.

Lemma startsThread_true (event : ThreadEvent.t) :
  startsThread event = true ->
  ThreadEvent.Type_ event = EventThreadStarted /\ ThreadEvent.ThreadID event <> "".
Proof.
  unfold startsThread. intros H. apply andb_true_iff in H as [H1 H2].
  split; [apply String.eqb_eq, H1 | ].
  apply negb_true_iff in H2. apply String.eqb_neq, H2.
Qed.

Lemma handleLine_written (sch : Schedule) (stop : ThreadEvent.t -> bool)
    (line : string) (readErr : option error) (reader : Reader) (st : TaskState) :
  match handleLine sch stop line st with
  | Failed st' _ | Handled st' _ =>
      written ((line, readErr) :: reader) (ts_thread st) (ts_thread st')
  end.
Proof.
  pose proof (handleLine_thread sch stop line st) as H.
  destruct (handleLine sch stop line st) as [st' e | st' e].
  - left. rewrite H. reflexivity.
  - destruct (json_Unmarshal_ThreadEvent (TrimSpace line)) as [event | err] eqn:Hd;
      [ | left; rewrite H; reflexivity].
    destruct (nonBlank (TrimSpace line) && startsThread event) eqn:Hs;
      [ | left; rewrite H; reflexivity].
    apply andb_true_iff in Hs as [_ Hs].
    destruct (startsThread_true event Hs) as [Hty Hid].
    right. exists event. split; [ | split; [exact Hty | split; [exact Hid | ]]].
    + exists line, readErr. split; [left; reflexivity | exact Hd].
    + rewrite H. unfold setID. apply String.eqb_neq in Hid. rewrite Hid. reflexivity.
Qed.

Lemma written_trans (reader : Reader) (t1 t2 t3 : Thread) :
  written reader t1 t2 -> written reader t2 t3 -> written reader t1 t3.
Proof.
  intros H12 [H23 | H23]; [ | right; exact H23].
  destruct H12 as [H12 | (event & Hd & Hty & Hid & H12)].
  - left. rewrite H23. exact H12.
  - right. exists event. rewrite H23. repeat split; assumption.
Qed.

(** Under any schedule and consumer, the identity the loop leaves was
    there before or was written by an event of the output. *)
Lemma readLoop_written (sch : Schedule) (stop : ThreadEvent.t -> bool)
    (reader : Reader) :
  forall st,
    written reader (ts_thread st) (ts_thread (le_state (readLoop sch stop reader st))).
Proof.
  induction reader as [ | [line readErr] reader IH]; intros st; cbn [readLoop].
  - destruct (ctx_Err st); left; reflexivity.
  - destruct (ctx_Err st); [left; reflexivity | ].
    pose proof (handleLine_written sch stop line readErr reader (observed st)) as H.
    destruct (handleLine sch stop line (observed st)) as [st' e | st' e];
      [exact H | ].
    destruct readErr as [re | ]; [exact H | ].
    destruct e as [e | ]; [exact H | ].
    apply (written_trans _ _ (ts_thread st') _ H).
    apply written_later. apply IH.
Qed.

Lemma written_nonEmpty (reader : Reader) (t t' : Thread) :
  written reader t t' -> ID t <> "" -> ID t' <> "".
Proof.
  intros [H | (event & _ & _ & Hid & H)] Hne; rewrite H; assumption.
Qed.

(** C8, as stated, fails: after two [thread.started] events with the
    identifiers [thread-A] and [thread-B], [ID] returns the second, not the
    first; and the identifier a resumed thread was seeded with is replaced
    as well. *)
Lemma second_thread_started_overwrites :
  let run := streamTask calm drain StartThread startedTwice in
  map ThreadEvent.Type_ (Events (sr_streamed run))
  = [EventThreadStarted; EventThreadStarted]
  /\ map ThreadEvent.ThreadID (Events (sr_streamed run)) = ["thread-A"; "thread-B"]
  /\ ID (sr_thread run) = "thread-B"
  /\ ID (sr_thread run) <> "thread-A"
  /\ ID (sr_thread (streamTask calm drain (ResumeThread "saved") startedTwice))
     = "thread-B".
Proof.
  vm_compute. repeat split. discriminate.
Qed.

(** C8, amended: the stream writes the identity at every [thread.started]
    event that carries an identifier, over whatever was there.  After a run
    without cancellation, [ID] is the identifier of the last such event
    delivered, and the identity from before (the one a resumed thread was
    seeded with) only when there was none; and under any schedule, a line
    that decodes to such an event sets the identity to its identifier. *)
Theorem identity_follows_last_started (t : Thread) (p : Process) :
  (forall sch, cancelAt sch = None ->
     let run := streamTask sch drain t p in
     ID (sr_thread run) = lastStarted (Events (sr_streamed run)) (ID t))
  /\ (forall first second,
        startsThread second = true ->
        lastStarted [first; second] (ID t) = ThreadEvent.ThreadID second)
  /\ (forall sch stop line st event,
        nonBlank (TrimSpace line) = true ->
        json_Unmarshal_ThreadEvent (TrimSpace line) = Ok event ->
        startsThread event = true ->
        exists st' runErr,
          handleLine sch stop line st = Handled st' runErr
          /\ ID (ts_thread st') = ThreadEvent.ThreadID event).
Proof.
  split; [intros sch Hc;
          apply (streamTask_uncancelled sch drain t p Hc (unstopped_drain _)) | ].
  split.
  - intros first second H. rewrite !lastStarted_cons, H.
    unfold lastStarted. reflexivity.
  - intros sch stop line st event Hb Hd Hs.
    pose proof (handleLine_thread sch stop line st) as H.
    destruct (handleLine sch stop line st) as [st' e | st' e] eqn:Hh.
    + unfold handleLine in Hh. rewrite nonBlank_length, Hb, Hd in Hh.
      destruct (select sch stop event _) in Hh. discriminate Hh.
    + exists st', e. split; [reflexivity | ].
      rewrite Hd, Hb, Hs in H. rewrite H.
      destruct (startsThread_true event Hs) as [_ Hid].
      unfold setID. apply String.eqb_neq in Hid. rewrite Hid. reflexivity.
Qed.

Lemma identity_follows_last_started_witness :
  exists st' runErr,
    handleLine calm drain (ln (js "{'type':'thread.started','thread_id':'thread-B'}"))
      (initialTask calm (ResumeThread "thread-A"))
    = Handled st' runErr
    /\ ID (ts_thread st') = "thread-B".
Proof.
  refine (proj2 (proj2 (identity_follows_last_started StartThread startedTwice))
            calm drain _ _
            {| ThreadEvent.Type_ := EventThreadStarted;
               ThreadEvent.ThreadID := "thread-B"; ThreadEvent.Usage := None;
               ThreadEvent.Error_ := None; ThreadEvent.Item := None;
               ThreadEvent.Message := ""; ThreadEvent.rawItem := "" |}
            _ _ _); vm_compute; reflexivity.
Defined.

(** C10: [setID] with the empty string changes nothing, and [setID] never
    empties an identity.  So, under any schedule and consumer, a run leaves a
    non-empty identity non-empty; the identity it leaves is the one from
    before (empty for a new thread, the saved identifier for a resumed one)
    or the identifier of a [thread.started] event of the output; and a
    [thread.started] event with an empty identifier leaves the identity as
    it was. *)
Theorem identity_is_written (sch : Schedule) (stop : ThreadEvent.t -> bool)
    (t : Thread) (p : Process) :
  let t' := sr_thread (streamTask sch stop t p) in
  setID "" t = t
  /\ (forall newID, ID t <> "" -> ID (setID newID t) <> "")
  /\ (ID t <> "" -> ID t' <> "")
  /\ written (stdoutReader p) t t'
  /\ (forall savedID, ID StartThread = "" /\ ID (ResumeThread savedID) = savedID)
  /\ (forall line st event st' runErr,
        json_Unmarshal_ThreadEvent (TrimSpace line) = Ok event ->
        ThreadEvent.Type_ event = EventThreadStarted ->
        ThreadEvent.ThreadID event = "" ->
        handleLine sch stop line st = Handled st' runErr ->
        ts_thread st' = ts_thread st).
Proof.
  assert (W : written (stdoutReader p) t (sr_thread (streamTask sch stop t p))).
  { unfold streamTask. cbn.
    apply (readLoop_written sch stop (stdoutReader p) (initialTask sch t)). }
  intros t'. split; [reflexivity | ]. split.
  - intros newID Hne. unfold setID. destruct (String.eqb newID "") eqn:E;
      [exact Hne | ]. apply String.eqb_neq in E. exact E.
  - split; [exact (written_nonEmpty _ _ _ W) | ]. split; [exact W | ].
    split; [intros; split; reflexivity | ].
    intros line st event st' runErr Hd Hty Hid Hh.
    pose proof (handleLine_thread sch stop line st) as H.
    rewrite Hh, Hd in H. rewrite H. unfold startsThread, setID.
    rewrite Hid. destruct (nonBlank (TrimSpace line)); cbn;
      rewrite ?andb_false_r; reflexivity.
Qed.

Lemma identity_is_written_witness :
  ID (sr_thread (streamTask calm drain (ResumeThread "saved") untypedThenStarted)) <> "".
Proof.
  refine (proj1 (proj2 (proj2
    (identity_is_written calm drain (ResumeThread "saved") untypedThenStarted))) _).
  discriminate.
Defined.

(* ================================================================= *)
(** ** The outcome of the stream *)

(** C7: when the task has finished reading, what it publishes is the
    await error alone when there was no read error; the read error alone
    when there was no await error or when the two are the same error (as
    [errors.Is] sees it: the await error is the read error or a link of its
    chain); and otherwise the read error with the text of the await error
    appended, the read error still the one that [errors.Is] finds.  The task
    sends this outcome once on [errCh]; [Wait] receives it and returns it at
    every call. *)
Theorem task_publishes_one_outcome (sch : Schedule) (stop : ThreadEvent.t -> bool)
    (t : Thread) (p : Process) (runErr awaitErr : option error) :
  (runErr = None -> reconcile runErr awaitErr = awaitErr)
  /\ (awaitErr = None -> reconcile runErr awaitErr = runErr)
  /\ (forall re, reconcile (Some re) (Some re) = Some re)
  /\ (forall re we, runErr = Some re -> awaitErr = Some we ->
        errors_Is re we = true -> reconcile runErr awaitErr = Some re)
  /\ (forall re we, runErr = Some re -> awaitErr = Some we ->
        errors_Is re we = false ->
        reconcile runErr awaitErr = Some (fmt_Errorf_wait re we)
        /\ errors_Is (fmt_Errorf_wait re we) re = true
        /\ Error (fmt_Errorf_wait re we) = Error re ++ "; wait error: " ++ Error we)
  /\ (let run := streamTask sch stop t p in
      let outcome := reconcile (le_runErr (sr_loop run)) (waitFn p) in
      sr_waitErr run = waitFn p
      /\ errCh (sr_streamed run) = [outcome]
      /\ exists waited,
           StreamedTurn_Wait (sr_streamed run) = Some (outcome, waited)
           /\ errCh waited = []
           /\ StreamedTurn_Wait waited = Some (outcome, waited)).
Proof.
  split; [intros ->; reflexivity | ].
  split; [intros ->; destruct runErr; reflexivity | ].
  split; [intros re; cbn; rewrite errors_Is_refl; reflexivity | ].
  split; [intros re we -> -> H; cbn; rewrite H; reflexivity | ].
  split.
  - intros re we -> -> H. cbn. rewrite H. split; [reflexivity | ].
    split; apply fmt_Errorf_wait_keeps_both.
  - cbn. split; [reflexivity | ]. split; [reflexivity | ].
    eexists. split; [reflexivity | ]. split; reflexivity.
Qed.

Lemma task_publishes_one_outcome_witness :
  errCh (sr_streamed (streamTask calm drain StartThread garbageThenFail))
  = [Some (fmt_Errorf_wait (parseFailure syntaxError)
             (ErrExecFailed 3 "bad flag" (Some (ExitError (Exited 3)))))]
  /\ reconcile (Some context_Canceled) (Some crash) = Some cancelledWithCrash.
Proof.
  split.
  - exact (proj1 (proj2 (proj2 (proj2 (proj2 (proj2 (proj2
      (task_publishes_one_outcome calm drain StartThread garbageThenFail
         None None)))))))).
  - exact (proj1 (proj1 (proj2 (proj2 (proj2 (proj2
      (task_publishes_one_outcome calm drain StartThread garbageThenFail
         (Some context_Canceled) (Some crash)))))) context_Canceled crash
      eq_refl eq_refl eq_refl)).
Defined.

(** [Thread.Run] returns: the outcome it waits for has been published, and
    what it returns is [Run_over] the events of the channel and that
    outcome. *)
Lemma Thread_Run_returns (sch : Schedule) (t : Thread) (p : Process) :
  let run := streamTask sch isTurnFailed t p in
  Thread_Run sch None t p
  = Some (Run_over (Events (sr_streamed run))
            (reconcile (le_runErr (sr_loop run)) (waitFn p)),
          sr_thread run).
Proof. reflexivity. Qed.

(** The process that fails after its [turn.failed] event, once more, with
    the [late] task: it reads to the end of the output, the stream ends
    with the process failure alone, and [Thread.Run] returns it.  With
    [calm] the same process gave the message of the turn failure. *)
Lemma Run_outcome_depends_on_schedule :
  option_map fst (Thread_Run late None StartThread crashAfterFailure)
  = Some (Err crash)
  /\ option_map fst (Thread_Run calm None StartThread crashAfterFailure)
     = Some (Err (errorString "model overloaded")).
Proof.
  vm_compute. split; reflexivity.
Qed.

(** A reader with nothing left behaves as one whose next read gives no
    bytes and [io.EOF], which is what [ReadBytes] returns for it. *)
Lemma readLoop_exhausted (sch : Schedule) (stop : ThreadEvent.t -> bool)
    (st : TaskState) :
  le_state (readLoop sch stop [] st)
  = le_state (readLoop sch stop [fst (ReadBytes [])] st)
  /\ le_runErr (readLoop sch stop [] st)
     = le_runErr (readLoop sch stop [fst (ReadBytes [])] st).
Proof.
  cbn. destruct (ctx_Err st); split; reflexivity.
Qed.

(* ================================================================= *)
(** ** Maps *)

Lemma Map_get_set_same (m : Map) (k v : string) : Map_get (Map_set m k v) k = Some v.
Proof.
  induction m as [ | [k' v'] m IH]; cbn.
  - rewrite String.eqb_refl. reflexivity.
  - destruct (String.eqb k' k) eqn:E; cbn.
    + rewrite String.eqb_refl. reflexivity.
    + rewrite E. exact IH.
Qed.

Lemma Map_get_set_other (m : Map) (k v k' : string) :
  k <> k' -> Map_get (Map_set m k v) k' = Map_get m k'.
Proof.
  intros Hne. induction m as [ | [k0 v0] m IH]; cbn.
  - apply String.eqb_neq in Hne. rewrite Hne. reflexivity.
  - destruct (String.eqb k0 k) eqn:E; cbn.
    + apply String.eqb_eq in E. subst k0.
      apply String.eqb_neq in Hne. rewrite Hne. reflexivity.
    + destruct (String.eqb k0 k'); [reflexivity | exact IH].
Qed.

Lemma Map_get_set (m : Map) (k v k' : string) :
  Map_get (Map_set m k v) k' = if String.eqb k k' then Some v else Map_get m k'.
Proof.
  destruct (String.eqb k k') eqn:E.
  - apply String.eqb_eq in E. subst k'. apply Map_get_set_same.
  - apply String.eqb_neq in E. apply Map_get_set_other. exact E.
Qed.

Lemma Map_set_keys (m : Map) (k v k' : string) :
  In k' (map fst (Map_set m k v)) <-> k' = k \/ In k' (map fst m).
Proof.
  induction m as [ | [k0 v0] m IH]; cbn.
  - intuition.
  - destruct (String.eqb k0 k) eqn:E; cbn.
    + apply String.eqb_eq in E. subst k0. intuition.
    + rewrite IH. intuition.
Qed.

Lemma Map_set_NoDup (m : Map) (k v : string) :
  NoDup (map fst m) -> NoDup (map fst (Map_set m k v)).
Proof.
  induction m as [ | [k0 v0] m IH]; cbn; intros H.
  - constructor; [intros [] | constructor].
  - inversion H as [ | ? ? Hn Hd]; subst.
    destruct (String.eqb k0 k) eqn:E; cbn.
    + apply String.eqb_eq in E. subst k0. constructor; assumption.
    + constructor; [ | apply IH; exact Hd].
      rewrite Map_set_keys. intros [-> | Hin]; [ | exact (Hn Hin)].
      rewrite String.eqb_refl in E. discriminate.
Qed.

Lemma Map_get_In (m : Map) (k v : string) :
  NoDup (map fst m) -> (In (k, v) m <-> Map_get m k = Some v).
Proof.
  induction m as [ | [k0 v0] m IH]; cbn; intros H.
  - split; [intros [] | discriminate].
  - inversion H as [ | ? ? Hn Hd]; subst.
    destruct (String.eqb k0 k) eqn:E.
    + apply String.eqb_eq in E. subst k0. split.
      * intros [Heq | Hin]; [congruence | ].
        exfalso. apply Hn. apply (in_map fst) in Hin. exact Hin.
      * intros Heq. left. congruence.
    + rewrite <- (IH Hd). split.
      * intros [Heq | Hin]; [ | exact Hin].
        inversion Heq; subst. rewrite String.eqb_refl in E. discriminate.
      * intros Hin. right. exact Hin.
Qed.

(** A map that assignments built from the empty one has one entry per key. *)
Lemma fold_Map_set_NoDup {A : Type} (f : Map -> A -> Map) (l : list A) :
  (forall m a, NoDup (map fst m) -> NoDup (map fst (f m a))) ->
  forall m, NoDup (map fst m) -> NoDup (map fst (fold_left f l m)).
Proof.
  intros Hf. induction l as [ | a l IH]; cbn; intros m Hm; [exact Hm | ].
  apply IH. apply Hf. exact Hm.
Qed.

(* ================================================================= *)
(** ** Sorting *)

Lemma Ascii_compare_refl (a : ascii) : Ascii.compare a a = Eq.
Proof. unfold Ascii.compare. apply N.compare_refl. Qed.

Lemma String_leb_refl (s : string) : String.leb s s = true.
Proof.
  unfold String.leb.
  assert (H : String.compare s s = Eq).
  { induction s as [ | a s IH]; cbn; [reflexivity | ].
    rewrite Ascii_compare_refl. exact IH. }
  rewrite H. reflexivity.
Qed.

Lemma String_compare_trans_le (s1 : string) :
  forall s2 s3,
    String.compare s1 s2 <> Gt -> String.compare s2 s3 <> Gt ->
    String.compare s1 s3 <> Gt.
Proof.
  induction s1 as [ | a s1 IH]; intros [ | b s2] [ | c s3]; cbn;
    try congruence.
  unfold Ascii.compare.
  destruct (N.compare_spec (N_of_ascii a) (N_of_ascii b)) as [Hab | Hab | Hab];
    destruct (N.compare_spec (N_of_ascii b) (N_of_ascii c)) as [Hbc | Hbc | Hbc];
    try congruence.
  - rewrite Hab, Hbc, N.compare_refl. apply IH.
  - intros _ _. rewrite Hab. apply N.compare_lt_iff in Hbc. rewrite Hbc. discriminate.
  - intros _ _. rewrite <- Hbc. apply N.compare_lt_iff in Hab. rewrite Hab. discriminate.
  - intros _ _. assert (H : (N_of_ascii a < N_of_ascii c)%N) by lia.
    apply N.compare_lt_iff in H. rewrite H. discriminate.
Qed.

Lemma String_leb_trans (s1 s2 s3 : string) :
  String.leb s1 s2 = true -> String.leb s2 s3 = true -> String.leb s1 s3 = true.
Proof.
  unfold String.leb. intros H12 H23.
  pose proof (String_compare_trans_le s1 s2 s3) as H.
  destruct (String.compare s1 s2); try discriminate;
    destruct (String.compare s2 s3); try discriminate;
    destruct (String.compare s1 s3); try reflexivity;
    exfalso; apply H; congruence.
Qed.

Lemma String_leb_false (s1 s2 : string) :
  String.leb s1 s2 = false -> String.leb s2 s1 = true.
Proof.
  intros H. destruct (String.leb_total s1 s2) as [H' | H']; [congruence | exact H'].
Qed.

Lemma insertSorted_Permutation (s : string) (l : list string) :
  Permutation (insertSorted s l) (s :: l).
Proof.
  induction l as [ | x l IH]; cbn; [apply Permutation_refl | ].
  destruct (String.leb s x); [apply Permutation_refl | ].
  eapply Permutation_trans; [apply perm_skip; exact IH | apply perm_swap].
Qed.

Lemma sort_Strings_Permutation (l : list string) : Permutation (sort_Strings l) l.
Proof.
  induction l as [ | x l IH]; cbn; [constructor | ].
  eapply Permutation_trans; [apply insertSorted_Permutation | ].
  apply perm_skip. exact IH.
Qed.

Lemma insertSorted_Sorted (s : string) (l : list string) :
  Sorted (fun a b => String.leb a b = true) l ->
  Sorted (fun a b => String.leb a b = true) (insertSorted s l).
Proof.
  induction l as [ | x l IH]; cbn; intros H.
  - constructor; constructor.
  - destruct (String.leb s x) eqn:E.
    + constructor; [exact H | constructor; exact E].
    + inversion H as [ | ? ? Hs Hh]; subst.
      constructor; [apply IH; exact Hs | ].
      destruct l as [ | y l]; cbn.
      * constructor. apply String_leb_false. exact E.
      * destruct (String.leb s y); constructor.
        -- apply String_leb_false. exact E.
        -- inversion Hh; subst. assumption.
Qed.

Lemma sort_Strings_Sorted (l : list string) :
  Sorted (fun a b => String.leb a b = true) (sort_Strings l).
Proof.
  induction l as [ | x l IH]; cbn; [constructor | ].
  apply insertSorted_Sorted. exact IH.
Qed.

Lemma insertSorted_comm (x y : string) (l : list string) :
  insertSorted x (insertSorted y l) = insertSorted y (insertSorted x l).
Proof.
  induction l as [ | a l IH]; cbn.
  - destruct (String.leb x y) eqn:Exy, (String.leb y x) eqn:Eyx; try reflexivity.
    + rewrite (String.leb_antisym x y Exy Eyx). reflexivity.
    + apply String_leb_false in Exy. congruence.
  - destruct (String.leb y a) eqn:Eya, (String.leb x a) eqn:Exa; cbn.
    + destruct (String.leb x y) eqn:Exy, (String.leb y x) eqn:Eyx;
        rewrite ?Exa, ?Eya; try reflexivity.
      * rewrite (String.leb_antisym x y Exy Eyx). reflexivity.
      * apply String_leb_false in Exy. congruence.
    + destruct (String.leb x y) eqn:Exy.
      * rewrite (String_leb_trans x y a Exy Eya) in Exa. discriminate.
      * rewrite Exa, Eya. reflexivity.
    + rewrite Exa. destruct (String.leb y x) eqn:Eyx.
      * rewrite (String_leb_trans y x a Eyx Exa) in Eya. discriminate.
      * rewrite Eya. reflexivity.
    + rewrite Exa, Eya. f_equal. exact IH.
Qed.

Lemma sort_Strings_order (l l' : list string) :
  Permutation l l' -> sort_Strings l = sort_Strings l'.
Proof.
  unfold sort_Strings.
  induction 1 as [ | x l l' _ IH | x y l | l l' l'' _ IH1 _ IH2]; cbn.
  - reflexivity.
  - rewrite IH. reflexivity.
  - apply insertSorted_comm.
  - congruence.
Qed.

(* ================================================================= *)
(** ** The environment of the process *)

Lemma Map_get_None (m : Map) (k : string) :
  ~ In k (map fst m) -> Map_get m k = None.
Proof.
  induction m as [ | [k0 v0] m IH]; cbn; intros H; [reflexivity | ].
  destruct (String.eqb k0 k) eqn:E.
  - apply String.eqb_eq in E. exfalso. apply H. left. exact E.
  - apply IH. intros Hin. apply H. right. exact Hin.
Qed.

(** The copy of a map, one entry per key, answers as the map does. *)
Lemma copy_lookup (env : Map) (k : string) :
  NoDup (map fst env) ->
  forall m,
    Map_get (fold_left (fun envMap kv => Map_set envMap (fst kv) (snd kv)) env m) k
    = match Map_get env k with
      | Some v => Some v
      | None => Map_get m k
      end.
Proof.
  induction env as [ | [k0 v0] env IH]; cbn; intros Hn m; [reflexivity | ].
  inversion Hn as [ | ? ? Hnot Hd]; subst.
  rewrite (IH Hd). rewrite Map_get_set.
  destruct (String.eqb k0 k) eqn:E.
  - apply String.eqb_eq in E. subst k0.
    rewrite (Map_get_None env k Hnot). reflexivity.
  - reflexivity.
Qed.

Lemma baseEnv_NoDup (e : Exec.t) (environ : list string) :
  NoDup (map fst (baseEnv e environ)).
Proof.
  unfold baseEnv, inherited. destruct (Exec.env e) as [env | ].
  - apply fold_Map_set_NoDup; [ | constructor].
    intros m a. apply Map_set_NoDup.
  - apply fold_Map_set_NoDup; [ | constructor].
    intros m kv H. destruct (strings_IndexByte kv "="); [ | exact H].
    apply Map_set_NoDup. exact H.
Qed.

Lemma envMap_NoDup (e : Exec.t) (environ : list string) (baseURL apiKey : string) :
  NoDup (map fst (envMap e environ baseURL apiKey)).
Proof.
  unfold envMap.
  pose proof (baseEnv_NoDup e environ) as H0.
  set (m0 := baseEnv e environ) in *.
  assert (H1 : NoDup (map fst
    (match Map_get m0 internalOriginatorEnv with
     | Some value =>
         if String.eqb value "" then Map_set m0 internalOriginatorEnv goSDKOriginator
         else m0
     | None => Map_set m0 internalOriginatorEnv goSDKOriginator
     end))).
  { destruct (Map_get m0 internalOriginatorEnv) as [value | ];
      [destruct (String.eqb value "") | ]; try exact H0; apply Map_set_NoDup; exact H0. }
  set (m1 := match Map_get m0 internalOriginatorEnv with
             | Some _ => _ | None => _ end) in *.
  assert (H2 : NoDup (map fst
    (if negb (String.eqb baseURL "") then Map_set m1 "OPENAI_BASE_URL" baseURL else m1))).
  { destruct (negb (String.eqb baseURL "")); [apply Map_set_NoDup | ]; exact H1. }
  set (m2 := if negb (String.eqb baseURL "") then _ else _) in *.
  destruct (negb (String.eqb apiKey "")); [apply Map_set_NoDup | ]; exact H2.
Qed.

(** The variables of the environment, one by one. *)
Lemma envMap_get (e : Exec.t) (environ : list string) (baseURL apiKey k : string) :
  Map_get (envMap e environ baseURL apiKey) k
  = if String.eqb k "CODEX_API_KEY" && negb (String.eqb apiKey "") then Some apiKey
    else if String.eqb k "OPENAI_BASE_URL" && negb (String.eqb baseURL "")
    then Some baseURL
    else if String.eqb k internalOriginatorEnv then
      match Map_get (baseEnv e environ) k with
      | Some value => if String.eqb value "" then Some goSDKOriginator else Some value
      | None => Some goSDKOriginator
      end
    else Map_get (baseEnv e environ) k.
Proof.
  unfold envMap. set (m0 := baseEnv e environ).
  set (m1 := match Map_get m0 internalOriginatorEnv with
             | Some value =>
                 if String.eqb value "" then Map_set m0 internalOriginatorEnv goSDKOriginator
                 else m0
             | None => Map_set m0 internalOriginatorEnv goSDKOriginator
             end).
  assert (H1 : Map_get m1 k
               = if String.eqb k internalOriginatorEnv then
                   match Map_get m0 k with
                   | Some value =>
                       if String.eqb value "" then Some goSDKOriginator else Some value
                   | None => Some goSDKOriginator
                   end
                 else Map_get m0 k).
  { unfold m1. destruct (String.eqb k internalOriginatorEnv) eqn:E.
    - apply String.eqb_eq in E. subst k.
      destruct (Map_get m0 internalOriginatorEnv) as [value | ] eqn:G.
      + destruct (String.eqb value ""); [apply Map_get_set_same | exact G].
      + apply Map_get_set_same.
    - rewrite String.eqb_sym in E.
      destruct (Map_get m0 internalOriginatorEnv) as [value | ];
        [destruct (String.eqb value "") | ]; try reflexivity;
        rewrite Map_get_set, E; reflexivity. }
  set (m2 := if negb (String.eqb baseURL "") then Map_set m1 "OPENAI_BASE_URL" baseURL
             else m1).
  assert (H2 : Map_get m2 k
               = if String.eqb k "OPENAI_BASE_URL" && negb (String.eqb baseURL "")
                 then Some baseURL else Map_get m1 k).
  { unfold m2. destruct (negb (String.eqb baseURL "")).
    - rewrite Map_get_set, String.eqb_sym, andb_true_r. reflexivity.
    - rewrite andb_false_r. reflexivity. }
  assert (H3 : Map_get (if negb (String.eqb apiKey "")
                        then Map_set m2 "CODEX_API_KEY" apiKey else m2) k
               = if String.eqb k "CODEX_API_KEY" && negb (String.eqb apiKey "")
                 then Some apiKey else Map_get m2 k).
  { destruct (negb (String.eqb apiKey "")).
    - rewrite Map_get_set, String.eqb_sym, andb_true_r. reflexivity.
    - rewrite andb_false_r. reflexivity. }
  rewrite H3, H2, H1. reflexivity.
Qed.

(** The strings of the environment are the entries of its variables. *)
Lemma buildEnvironment_In (e : Exec.t) (environ : list string)
    (baseURL apiKey s : string) :
  In s (buildEnvironment e environ baseURL apiKey)
  <-> exists k v,
        Map_get (envMap e environ baseURL apiKey) k = Some v /\ s = k ++ "=" ++ v.
Proof.
  unfold buildEnvironment. split.
  - intros H.
    apply (Permutation_in _ (sort_Strings_Permutation _)) in H.
    apply in_map_iff in H as [[k v] [<- Hin]].
    exists k, v. split; [ | reflexivity].
    apply Map_get_In; [apply envMap_NoDup | exact Hin].
  - intros (k & v & Hg & ->).
    apply (Permutation_in _ (Permutation_sym (sort_Strings_Permutation _))).
    apply in_map_iff. exists (k, v). split; [reflexivity | ].
    apply Map_get_In; [apply envMap_NoDup | exact Hg].
Qed.

(** X3: the slice that [buildEnvironment] returns is in increasing order,
    has one string per variable of the map, and its strings are the
    entries [k=v] of the variables; the order in which the map is ranged
    over does not show in it. *)
Theorem buildEnvironment_entries (e : Exec.t) (environ : list string)
    (baseURL apiKey : string) :
  let vars := envMap e environ baseURL apiKey in
  let env := buildEnvironment e environ baseURL apiKey in
  Sorted (fun a b => String.leb a b = true) env
  /\ List.length env = List.length vars
  /\ (forall s, In s env
                <-> exists k v, Map_get vars k = Some v /\ s = k ++ "=" ++ v)
  /\ (forall ranged, Permutation ranged vars -> sort_Strings (map entry ranged) = env).
Proof.
  intros vars env. unfold env, buildEnvironment. fold vars.
  split; [apply sort_Strings_Sorted | ].
  split.
  { rewrite (Permutation_length (sort_Strings_Permutation _)). apply length_map. }
  split.
  - intros s. apply buildEnvironment_In.
  - intros ranged Hp. apply sort_Strings_order. apply Permutation_map. exact Hp.
Qed.

(** *** Entries of [os.Environ] *)

Lemma IndexByte_split (kv : string) (c : ascii) (idx : nat) :
  strings_IndexByte kv c = Some idx ->
  kv = take idx kv ++ String c (drop (S idx) kv)
  /\ strings_IndexByte (take idx kv) c = None.
Proof.
  revert idx. induction kv as [ | a r IH]; cbn; intros idx H; [discriminate | ].
  destruct (Ascii.eqb a c) eqn:E.
  - inversion H; subst. apply Ascii.eqb_eq in E. subst a. split; reflexivity.
  - destruct (strings_IndexByte r c) as [i | ]; [ | discriminate].
    inversion H; subst. cbn. destruct (IH i eq_refl) as [H1 H2].
    rewrite E, H2. split; [ | reflexivity].
    f_equal. exact H1.
Qed.

Lemma IndexByte_append (k v : string) (c : ascii) :
  strings_IndexByte k c = None ->
  strings_IndexByte (k ++ String c v) c = Some (String.length k)
  /\ take (String.length k) (k ++ String c v) = k
  /\ drop (S (String.length k)) (k ++ String c v) = v.
Proof.
  induction k as [ | a k IH]; cbn; intros H.
  - rewrite Ascii.eqb_refl. destruct v; repeat split; reflexivity.
  - destruct (Ascii.eqb a c); [discriminate | ].
    destruct (strings_IndexByte k c); [discriminate | ].
    destruct (IH eq_refl) as (H1 & H2 & H3).
    rewrite H1, H2. repeat split. exact H3.
Qed.

Lemma stripPrefix_Some (p s v : string) :
  stripPrefix p s = Some v <-> s = p ++ v.
Proof.
  revert s. induction p as [ | a p IH]; intros s; cbn.
  - split; congruence.
  - destruct s as [ | b s]; [split; discriminate | ].
    destruct (Ascii.eqb a b) eqn:E.
    + apply Ascii.eqb_eq in E. subst b. rewrite IH. split; congruence.
    + split; [discriminate | ].
      intros H. inversion H; subst. rewrite Ascii.eqb_refl in E. discriminate.
Qed.

Lemma append_assoc (a b c : string) : (a ++ b) ++ c = a ++ b ++ c.
Proof. induction a as [ | x a IH]; cbn; [reflexivity | rewrite IH; reflexivity]. Qed.

Lemma append_inj_l (p a b : string) : p ++ a = p ++ b -> a = b.
Proof. induction p as [ | x p IH]; cbn; intros H; [exact H | apply IH; congruence]. Qed.

(** An entry, split at its first ["="], is the entry of the key [k] exactly
    when it is [k], ["="] and a value. *)
Lemma split_entry (kv k : string) :
  strings_IndexByte k "=" = None ->
  stripPrefix (k ++ "=") kv
  = match strings_IndexByte kv "=" with
    | Some idx => if String.eqb (take idx kv) k then Some (drop (S idx) kv) else None
    | None => None
    end.
Proof.
  intros Hk.
  destruct (strings_IndexByte kv "=") as [idx | ] eqn:E.
  - destruct (IndexByte_split kv "=" idx E) as [Hs Hn].
    destruct (String.eqb (take idx kv) k) eqn:Ek.
    + apply String.eqb_eq in Ek. apply stripPrefix_Some.
      rewrite append_assoc. rewrite <- Ek at 1. exact Hs.
    + destruct (stripPrefix (k ++ "=") kv) as [v | ] eqn:Hp; [ | reflexivity].
      apply stripPrefix_Some in Hp. rewrite append_assoc in Hp. cbn in Hp.
      destruct (IndexByte_append k v "=" Hk) as (H1 & H2 & _).
      rewrite <- Hp in H1, H2. rewrite E in H1. inversion H1; subst idx.
      rewrite H2, String.eqb_refl in Ek. discriminate.
  - destruct (stripPrefix (k ++ "=") kv) as [v | ] eqn:Hp; [ | reflexivity].
    apply stripPrefix_Some in Hp. rewrite append_assoc in Hp. cbn in Hp.
    destruct (IndexByte_append k v "=" Hk) as (H1 & _).
    rewrite <- Hp in H1. congruence.
Qed.

Lemma inherited_from (environ : list string) (k : string) :
  strings_IndexByte k "=" = None ->
  forall m,
    Map_get
      (fold_left
         (fun envMap kv =>
            match strings_IndexByte kv "=" with
            | Some idx => Map_set envMap (take idx kv) (drop (S idx) kv)
            | None => envMap
            end) environ m) k
    = match lastValue k environ with
      | Some v => Some v
      | None => Map_get m k
      end.
Proof.
  intros Hk. induction environ as [ | kv environ IH]; cbn; intros m; [reflexivity | ].
  rewrite IH. destruct (lastValue k environ) as [v | ]; [reflexivity | ].
  rewrite (split_entry kv k Hk).
  destruct (strings_IndexByte kv "=") as [idx | ]; [ | reflexivity].
  rewrite Map_get_set. destruct (String.eqb (take idx kv) k); reflexivity.
Qed.

Lemma inherited_keys (environ : list string) (k : string) :
  forall m,
    In k (map fst
            (fold_left
               (fun envMap kv =>
                  match strings_IndexByte kv "=" with
                  | Some idx => Map_set envMap (take idx kv) (drop (S idx) kv)
                  | None => envMap
                  end) environ m)) ->
    In k (map fst m) \/ strings_IndexByte k "=" = None.
Proof.
  induction environ as [ | kv environ IH]; cbn; intros m H; [left; exact H | ].
  destruct (IH _ H) as [Hin | Hn]; [ | right; exact Hn].
  destruct (strings_IndexByte kv "=") as [idx | ] eqn:E; [ | left; exact Hin].
  apply Map_set_keys in Hin as [-> | Hin]; [ | left; exact Hin].
  right. apply (IndexByte_split kv "=" idx E).
Qed.

(** X4: how [buildEnvironment] reads [os.Environ] when there is no custom
    environment.  An entry is split at its first ["="], so no variable has
    a name with ["="] in it, and an entry without ["="] gives none; among
    the entries of one name the last is the one kept. *)
Theorem inherited_lookup (environ : list string) (k : string) :
  Map_get (inherited environ) k
  = match strings_IndexByte k "=" with
    | Some _ => None
    | None => lastValue k environ
    end.
Proof.
  unfold inherited. destruct (strings_IndexByte k "=") as [i | ] eqn:E.
  - apply Map_get_None. intros Hin.
    destruct (inherited_keys environ k [] Hin) as [[] | Hn]. congruence.
  - rewrite (inherited_from environ k E).
    destruct (lastValue k environ); reflexivity.
Qed.

Lemma Map_set_new (m : Map) (k v : string) :
  ~ In k (map fst m) -> Map_set m k v = (m ++ [(k, v)])%list.
Proof.
  induction m as [ | [k0 v0] m IH]; cbn; intros H; [reflexivity | ].
  destruct (String.eqb k0 k) eqn:E.
  - apply String.eqb_eq in E. exfalso. apply H. left. exact E.
  - rewrite IH; [reflexivity | ]. intros Hin. apply H. right. exact Hin.
Qed.

Lemma entry_halves (kv : string) :
  strings_IndexByte kv "=" <> None -> entry (halves kv) = kv.
Proof.
  unfold halves, entry. destruct (strings_IndexByte kv "=") as [idx | ] eqn:E;
    [intros _ | congruence].
  cbn. symmetry. apply (IndexByte_split kv "=" idx E).
Qed.

Lemma fst_halves (kv : string) : fst (halves kv) = keyOf kv.
Proof. unfold halves, keyOf. destruct (strings_IndexByte kv "="); reflexivity. Qed.

Lemma inherited_distinct (environ : list string) :
  Forall (fun kv => strings_IndexByte kv "=" <> None) environ ->
  forall m,
    NoDup (map fst m ++ map keyOf environ)%list ->
    fold_left
      (fun envMap kv =>
         match strings_IndexByte kv "=" with
         | Some idx => Map_set envMap (take idx kv) (drop (S idx) kv)
         | None => envMap
         end) environ m
    = (m ++ map halves environ)%list.
Proof.
  induction 1 as [ | kv environ Hkv _ IH]; cbn; intros m Hn.
  - symmetry. apply app_nil_r.
  - pose proof (fst_halves kv) as Hf. unfold halves in Hf |- *.
    destruct (strings_IndexByte kv "=") as [idx | ] eqn:E; [ | congruence].
    cbn in Hf. rewrite Map_set_new.
    + rewrite IH.
      * rewrite <- app_assoc. reflexivity.
      * rewrite map_app, <- app_assoc. cbn. rewrite Hf. exact Hn.
    + apply NoDup_remove_2 in Hn. intros Hin. apply Hn.
      apply in_or_app. left. rewrite <- Hf. exact Hin.
Qed.

(** X5: without a custom environment and without a key or a URL of its
    own, a process whose environment names each variable once, every entry
    with its ["="], and sets the originator variable to some value inherits
    that environment as it is, in increasing order. *)
Theorem buildEnvironment_inherits (path : string) (environ : list string)
    (originator : string) :
  Forall (fun kv => strings_IndexByte kv "=" <> None) environ ->
  NoDup (map keyOf environ) ->
  In (internalOriginatorEnv ++ "=" ++ originator) environ ->
  originator <> "" ->
  buildEnvironment {| Exec.path := path; Exec.env := None |} environ "" ""
  = sort_Strings environ.
Proof.
  intros Hall Hn Hin Ho.
  assert (Hi : inherited environ = map halves environ).
  { unfold inherited. rewrite (inherited_distinct environ Hall []); [reflexivity | ].
    exact Hn. }
  assert (Hg : Map_get (inherited environ) internalOriginatorEnv = Some originator).
  { apply Map_get_In.
    - rewrite Hi, map_map. erewrite map_ext; [exact Hn | ]. apply fst_halves.
    - rewrite Hi. apply in_map_iff.
      exists (internalOriginatorEnv ++ "=" ++ originator). split; [ | exact Hin].
      unfold halves.
      destruct (IndexByte_append internalOriginatorEnv originator "=" eq_refl)
        as (H1 & H2 & H3).
      change (internalOriginatorEnv ++ "=" ++ originator)
        with (internalOriginatorEnv ++ String "=" originator).
      rewrite H1, H2, H3. reflexivity. }
  unfold buildEnvironment, envMap, baseEnv. cbn [Exec.env].
  rewrite Hg. apply String.eqb_neq in Ho. rewrite Ho. cbn [String.eqb negb].
  rewrite Hi, map_map. f_equal.
  rewrite <- (map_id environ) at 2. apply map_ext_in.
  intros kv Hkv. apply entry_halves.
  rewrite Forall_forall in Hall. exact (Hall kv Hkv).
Qed.

Lemma buildEnvironment_inherits_witness :
  buildEnvironment {| Exec.path := "codex"; Exec.env := None |}
    ["PATH=/usr/bin:/bin"; "CODEX_INTERNAL_ORIGINATOR_OVERRIDE=ide"; "HOME=/root";
     "LS_COLORS=di=34"] "" ""
  = ["CODEX_INTERNAL_ORIGINATOR_OVERRIDE=ide"; "HOME=/root"; "LS_COLORS=di=34";
     "PATH=/usr/bin:/bin"].
Proof.
  refine (eq_trans
    (buildEnvironment_inherits "codex"
       ["PATH=/usr/bin:/bin"; "CODEX_INTERNAL_ORIGINATOR_OVERRIDE=ide"; "HOME=/root";
        "LS_COLORS=di=34"] "ide" _ _ _ _) _).
  - repeat constructor; discriminate.
  - repeat constructor; cbn; intuition discriminate.
  - right. left. reflexivity.
  - discriminate.
  - reflexivity.
Defined.

(** *** What the process finds *)

Lemma In_Map_get (m : Map) (k : string) :
  In k (map fst m) -> exists v, Map_get m k = Some v.
Proof.
  induction m as [ | [k0 v0] m IH]; cbn; intros H; [destruct H | ].
  destruct (String.eqb k0 k) eqn:E; [exists v0; reflexivity | ].
  destruct H as [H | H]; [ | exact (IH H)].
  apply String.eqb_neq in E. contradiction.
Qed.

Lemma Map_get_keys (m : Map) (k v : string) :
  Map_get m k = Some v -> In k (map fst m).
Proof.
  induction m as [ | [k0 v0] m IH]; cbn; [discriminate | ].
  destruct (String.eqb k0 k) eqn:E; intros H.
  - left. apply String.eqb_eq. exact E.
  - right. exact (IH H).
Qed.

Lemma copy_keys (env : Map) (k : string) :
  forall m,
    In k (map fst (fold_left (fun envMap kv => Map_set envMap (fst kv) (snd kv)) env m)) ->
    In k (map fst m) \/ In k (map fst env).
Proof.
  induction env as [ | [k0 v0] env IH]; cbn; intros m H; [left; exact H | ].
  destruct (IH _ H) as [Hin | Hin]; [ | right; right; exact Hin].
  apply Map_set_keys in Hin as [-> | Hin]; [right; left; reflexivity | left; exact Hin].
Qed.

(** No variable of the environment has a name with ["="] in it, unless the
    custom environment has one. *)
Lemma envMap_names (e : Exec.t) (environ : list string) (baseURL apiKey k : string) :
  (forall env, Exec.env e = Some env ->
     Forall (fun kv => strings_IndexByte (fst kv) "=" = None) env) ->
  In k (map fst (envMap e environ baseURL apiKey)) ->
  strings_IndexByte k "=" = None.
Proof.
  intros Hc Hin. apply In_Map_get in Hin as [v Hv]. rewrite envMap_get in Hv.
  destruct (String.eqb_spec k "CODEX_API_KEY") as [-> | _]; [reflexivity | ].
  destruct (String.eqb_spec k "OPENAI_BASE_URL") as [-> | _]; [reflexivity | ].
  destruct (String.eqb_spec k internalOriginatorEnv) as [-> | _]; [reflexivity | ].
  cbn [andb] in Hv. apply Map_get_keys in Hv. unfold baseEnv in Hv.
  destruct (Exec.env e) as [env | ].
  - apply copy_keys in Hv as [[] | Hv].
    specialize (Hc env eq_refl). rewrite Forall_forall in Hc.
    apply in_map_iff in Hv as [kv [<- Hkv]]. exact (Hc kv Hkv).
  - apply inherited_keys in Hv as [[] | Hv]. exact Hv.
Qed.

(** Two entries that are the same string have the same name and value. *)
Lemma entry_inj (k v k' v' : string) :
  strings_IndexByte k "=" = None -> strings_IndexByte k' "=" = None ->
  k ++ "=" ++ v = k' ++ "=" ++ v' -> k = k' /\ v = v'.
Proof.
  intros Hk Hk' H.
  destruct (IndexByte_append k v "=" Hk) as (_ & H2 & H3).
  destruct (IndexByte_append k' v' "=" Hk') as (H1' & H2' & H3').
  destruct (IndexByte_append k v "=" Hk) as (H1 & _).
  change (k ++ String "=" v = k' ++ String "=" v') in H.
  rewrite H in H1, H2, H3. rewrite H1' in H1. injection H1 as Hlen.
  rewrite <- Hlen in H2, H3. split; congruence.
Qed.

Lemma lastValue_In (k v : string) (l : list string) :
  lastValue k l = Some v -> In (k ++ "=" ++ v) l.
Proof.
  induction l as [ | kv l IH]; cbn; [discriminate | ].
  destruct (lastValue k l) as [v' | ]; intros H.
  - right. apply IH. exact H.
  - left. apply stripPrefix_Some in H. rewrite append_assoc in H. exact H.
Qed.

Lemma In_lastValue (k v : string) (l : list string) :
  In (k ++ "=" ++ v) l -> exists v', lastValue k l = Some v'.
Proof.
  induction l as [ | kv l IH]; cbn; intros H; [destruct H | ].
  destruct (lastValue k l) as [v' | ] eqn:E; [exists v'; reflexivity | ].
  destruct H as [-> | H]; [ | destruct (IH H); discriminate].
  exists v. apply stripPrefix_Some. symmetry. apply (append_assoc k "=" v).
Qed.

(** Where every name is plain, the entry of a name is the entry of its
    variable, and there is no other. *)
Lemma buildEnvironment_entry (e : Exec.t) (environ : list string)
    (baseURL apiKey k v : string) :
  (forall env, Exec.env e = Some env ->
     Forall (fun kv => strings_IndexByte (fst kv) "=" = None) env) ->
  strings_IndexByte k "=" = None ->
  In (k ++ "=" ++ v) (buildEnvironment e environ baseURL apiKey)
  <-> Map_get (envMap e environ baseURL apiKey) k = Some v.
Proof.
  intros Hc Hk. rewrite buildEnvironment_In. split.
  - intros (k' & v' & Hg & Heq).
    assert (Hk' : strings_IndexByte k' "=" = None).
    { apply (envMap_names e environ baseURL apiKey k' Hc).
      exact (Map_get_keys _ _ _ Hg). }
    destruct (entry_inj k v k' v' Hk Hk' Heq) as [-> ->]. exact Hg.
  - intros Hg. exists k, v. split; [exact Hg | reflexivity].
Qed.

Lemma buildEnvironment_lastValue (e : Exec.t) (environ : list string)
    (baseURL apiKey k : string) :
  (forall env, Exec.env e = Some env ->
     Forall (fun kv => strings_IndexByte (fst kv) "=" = None) env) ->
  strings_IndexByte k "=" = None ->
  lastValue k (buildEnvironment e environ baseURL apiKey)
  = Map_get (envMap e environ baseURL apiKey) k.
Proof.
  intros Hc Hk.
  destruct (Map_get (envMap e environ baseURL apiKey) k) as [v | ] eqn:Hg.
  - pose proof (proj2 (buildEnvironment_entry e environ baseURL apiKey k v Hc Hk) Hg) as Hin.
    destruct (In_lastValue k v _ Hin) as [v' Hl]. rewrite Hl.
    apply lastValue_In in Hl.
    apply (buildEnvironment_entry e environ baseURL apiKey k v' Hc Hk) in Hl.
    congruence.
  - destruct (lastValue k (buildEnvironment e environ baseURL apiKey)) as [v' | ] eqn:Hl;
      [ | reflexivity].
    apply lastValue_In in Hl.
    apply (buildEnvironment_entry e environ baseURL apiKey k v' Hc Hk) in Hl.
    congruence.
Qed.

(** X2: what the process finds under each variable of the environment
    [buildEnvironment] returns, the value of a name being that of its last
    entry, as [os/exec] has it.  For a name without ["="], and a custom
    environment, if there is one, that is a map (each name once) whose
    names have none: [CODEX_API_KEY]
    and [OPENAI_BASE_URL] hold the key and the URL of the call when these
    are not empty; the originator variable holds what the base environment
    gives it, or [codex_sdk_go] when that is nothing or the empty string,
    so it is never unset nor empty; every other variable, and the first two
    when the call gives no value, are as the base environment has them.
    The base environment is the custom one when there is one, the
    machine's being then not inherited, and else the entries of
    [os.Environ], the last of a name.  The name has no other entry in the
    environment than the one of this value. *)
Theorem buildEnvironment_lookup (e : Exec.t) (environ : list string)
    (baseURL apiKey k : string)
    (name : strings_IndexByte k "=" = None)
    (custom : forall env, Exec.env e = Some env ->
                NoDup (map fst env)
                /\ Forall (fun kv => strings_IndexByte (fst kv) "=" = None) env) :
  let base := match Exec.env e with
              | Some env => Map_get env k
              | None => lastValue k environ
              end in
  let found := lastValue k (buildEnvironment e environ baseURL apiKey) in
  found
  = (if String.eqb k "CODEX_API_KEY" && negb (String.eqb apiKey "") then Some apiKey
     else if String.eqb k "OPENAI_BASE_URL" && negb (String.eqb baseURL "")
     then Some baseURL
     else if String.eqb k internalOriginatorEnv then
       match base with
       | Some value => if String.eqb value "" then Some goSDKOriginator else Some value
       | None => Some goSDKOriginator
       end
     else base)
  /\ forall v, In (k ++ "=" ++ v) (buildEnvironment e environ baseURL apiKey)
               <-> found = Some v.
Proof.
  intros base found.
  assert (Hc : forall env, Exec.env e = Some env ->
                 Forall (fun kv => strings_IndexByte (fst kv) "=" = None) env).
  { intros env H. exact (proj2 (custom env H)). }
  assert (Hb : Map_get (baseEnv e environ) k = base).
  { unfold baseEnv, base. destruct (Exec.env e) as [env | ].
    - rewrite (copy_lookup env k (proj1 (custom env eq_refl)) []).
      destruct (Map_get env k); reflexivity.
    - unfold inherited. rewrite (inherited_from environ k name).
      destruct (lastValue k environ); reflexivity. }
  unfold found. rewrite (buildEnvironment_lastValue e environ baseURL apiKey k Hc name).
  split.
  - rewrite envMap_get, Hb. reflexivity.
  - intros v. apply buildEnvironment_entry; assumption.
Qed.

(** A custom environment with a key of its own and a call with another:
    the process finds the key of the call, and nothing of the machine's
    environment. *)
Lemma buildEnvironment_lookup_witness :
  let e := {| Exec.path := "codex";
              Exec.env := Some [("HOME", "/root"); ("CODEX_API_KEY", "old")] |} in
  let env := buildEnvironment e ["SECRET=1"; "HOME=/home/me"] "" "sk-1" in
  lastValue "CODEX_API_KEY" env = Some "sk-1"
  /\ lastValue "HOME" env = Some "/root"
  /\ lastValue "SECRET" env = None.
Proof.
  assert (H : forall env : Map,
             Some [("HOME", "/root"); ("CODEX_API_KEY", "old")] = Some env ->
             NoDup (map fst env)
             /\ Forall (fun kv => strings_IndexByte (fst kv) "=" = None) env).
  { intros env Heq. injection Heq as <-. split.
    - repeat constructor; cbn; intuition discriminate.
    - repeat constructor. }
  split; [ | split].
  - exact (proj1 (buildEnvironment_lookup
                    {| Exec.path := "codex";
                       Exec.env := Some [("HOME", "/root"); ("CODEX_API_KEY", "old")] |}
                    ["SECRET=1"; "HOME=/home/me"] "" "sk-1" "CODEX_API_KEY" eq_refl H)).
  - exact (proj1 (buildEnvironment_lookup
                    {| Exec.path := "codex";
                       Exec.env := Some [("HOME", "/root"); ("CODEX_API_KEY", "old")] |}
                    ["SECRET=1"; "HOME=/home/me"] "" "sk-1" "HOME" eq_refl H)).
  - exact (proj1 (buildEnvironment_lookup
                    {| Exec.path := "codex";
                       Exec.env := Some [("HOME", "/root"); ("CODEX_API_KEY", "old")] |}
                    ["SECRET=1"; "HOME=/home/me"] "" "sk-1" "SECRET" eq_refl H)).
Defined.

(** A name with ["="] in the custom environment is outside this: its entry
    reads as an entry of the name before the sign, here one of
    [CODEX_API_KEY] that comes after the entry of the key of the call. *)
Lemma buildEnvironment_name_with_a_sign :
  let env := buildEnvironment
               {| Exec.path := "codex"; Exec.env := Some [("CODEX_API_KEY=zzz", "v")] |}
               [] "" "sk-real" in
  env = ["CODEX_API_KEY=sk-real"; "CODEX_API_KEY=zzz=v";
         "CODEX_INTERNAL_ORIGINATOR_OVERRIDE=codex_sdk_go"]
  /\ lastValue "CODEX_API_KEY" env = Some "zzz=v".
Proof.
  split; reflexivity.
Qed.

(* ================================================================= *)
(** ** The command line *)

Lemma fold_flagged (flag : string) (l : list string) :
  forall acc,
    fold_left
      (fun commandArgs x =>
         if negb (String.eqb x "") then (commandArgs ++ [flag; x])%list else commandArgs)
      l acc
    = (acc ++ flat_map (flagged flag) l)%list.
Proof.
  induction l as [ | x l IH]; cbn; intros acc; [symmetry; apply app_nil_r | ].
  rewrite IH. unfold flagged at 2. destruct (String.eqb x ""); cbn.
  - reflexivity.
  - rewrite <- app_assoc. reflexivity.
Qed.

Lemma append_flagged (acc : list string) (flag value : string) :
  (if negb (String.eqb value "") then (acc ++ [flag; value])%list else acc)
  = (acc ++ flagged flag value)%list.
Proof.
  unfold flagged. destruct (String.eqb value ""); cbn; [symmetry; apply app_nil_r | ].
  reflexivity.
Qed.

(** The command line, part by part. *)
Lemma commandArgs_parts (args : ExecArgs.t) :
  commandArgs args
  = (["exec"; "--experimental-json"]
     ++ flagged "--model" (ExecArgs.Model args)
     ++ flagged "--sandbox" (ExecArgs.SandboxMode args)
     ++ flagged "--cd" (ExecArgs.WorkingDirectory args)
     ++ flat_map (flagged "--add-dir") (ExecArgs.AdditionalDirectories args)
     ++ (if ExecArgs.SkipGitRepoCheck args then ["--skip-git-repo-check"] else [])
     ++ flagged "--output-schema" (ExecArgs.OutputSchemaFile args)
     ++ configured
          (if String.eqb (ExecArgs.ModelReasoningEffort args) "" then None
           else Some (quotedSetting "model_reasoning_effort"
                        (ExecArgs.ModelReasoningEffort args)))
     ++ configured
          (option_map
             (fun enabled => ("sandbox_workspace_write.network_access=" ++ btoa enabled)%string)
             (ExecArgs.NetworkAccessEnabled args))
     ++ configured
          (option_map (fun enabled => ("features.web_search_request=" ++ btoa enabled)%string)
             (ExecArgs.WebSearchEnabled args))
     ++ configured
          (if String.eqb (ExecArgs.ApprovalPolicy args) "" then None
           else Some (quotedSetting "approval_policy" (ExecArgs.ApprovalPolicy args)))
     ++ flat_map (flagged "--image") (ExecArgs.Images args)
     ++ flagged "resume" (ExecArgs.ThreadID args))%list.
Proof.
  unfold commandArgs. cbv zeta.
  rewrite !append_flagged, !fold_flagged.
  destruct (ExecArgs.SkipGitRepoCheck args),
    (String.eqb (ExecArgs.ModelReasoningEffort args) ""),
    (ExecArgs.NetworkAccessEnabled args), (ExecArgs.WebSearchEnabled args),
    (String.eqb (ExecArgs.ApprovalPolicy args) "");
    cbn [negb configured option_map];
    repeat rewrite <- app_assoc; rewrite ?app_nil_r; cbn [app]; reflexivity.
Qed.





(** X7: the key and the URL travel in the environment and nowhere else.
    The arguments of the command are the same whatever the prompt, the
    base URL and the API key are, so none of the three reaches the command
    line; the environment is the same whatever the prompt is; and a key or
    a URL that is not empty is there as the entry of [CODEX_API_KEY] or of
    [OPENAI_BASE_URL]. *)
Theorem secrets_travel_in_the_environment (e : Exec.t) (environ : list string)
    (args : ExecArgs.t) :
  let cmd := Exec_Run_cmd e environ args in
  (forall input baseURL apiKey,
      Args (Exec_Run_cmd e environ (withSecrets input baseURL apiKey args)) = Args cmd)
  /\ (forall input,
        Env (Exec_Run_cmd e environ
               (withSecrets input (ExecArgs.BaseURL args) (ExecArgs.APIKey args) args))
        = Env cmd)
  /\ (ExecArgs.APIKey args <> "" ->
      In ("CODEX_API_KEY=" ++ ExecArgs.APIKey args) (Env cmd))
  /\ (ExecArgs.BaseURL args <> "" ->
      In ("OPENAI_BASE_URL=" ++ ExecArgs.BaseURL args) (Env cmd)).
Proof.
  intros cmd. split; [reflexivity | ]. split; [reflexivity | ].
  unfold cmd. cbn [Env Exec_Run_cmd]. split.
  - intros Hk. apply buildEnvironment_In.
    exists "CODEX_API_KEY", (ExecArgs.APIKey args). split; [ | reflexivity].
    rewrite envMap_get. apply String.eqb_neq in Hk. rewrite Hk. reflexivity.
  - intros Hu. apply buildEnvironment_In.
    exists "OPENAI_BASE_URL", (ExecArgs.BaseURL args). split; [ | reflexivity].
    rewrite envMap_get. apply String.eqb_neq in Hu. rewrite Hu.
    destruct (negb (String.eqb (ExecArgs.APIKey args) "")); reflexivity.
Qed.

(* ================================================================= *)
(** ** Options *)

Lemma applyThreadOptions_from (os : list threadOpt) :
  forall o0,
    let o := fold_left (fun options opt => opt options) (map threadOption os) o0 in
    ThreadOptions.Model o = last (filter nonBlank (models os)) (ThreadOptions.Model o0)
    /\ ThreadOptions.SandboxMode o = last (sandboxModes os) (ThreadOptions.SandboxMode o0)
    /\ ThreadOptions.WorkingDirectory o
       = last (filter nonBlank (workingDirectories os)) (ThreadOptions.WorkingDirectory o0)
    /\ ThreadOptions.SkipGitRepoCheck o = (ThreadOptions.SkipGitRepoCheck o0 || skips os)
    /\ ThreadOptions.ModelReasoningEffort o
       = last (efforts os) (ThreadOptions.ModelReasoningEffort o0)
    /\ ThreadOptions.NetworkAccessEnabled o
       = last (networkAccesses os) (ThreadOptions.NetworkAccessEnabled o0)
    /\ ThreadOptions.WebSearchEnabled o
       = last (webSearches os) (ThreadOptions.WebSearchEnabled o0)
    /\ ThreadOptions.ApprovalPolicy o = last (policies os) (ThreadOptions.ApprovalPolicy o0)
    /\ ThreadOptions.AdditionalDirectories o
       = (ThreadOptions.AdditionalDirectories o0 ++ directories os)%list.
Proof.
  induction os as [ | a os IH]; intros o0.
  - cbn. rewrite orb_false_r, app_nil_r. repeat split; reflexivity.
  - cbn [map fold_left]. specialize (IH (threadOption a o0)).
    cbv zeta in IH |- *.
    destruct IH as (H1 & H2 & H3 & H4 & H5 & H6 & H7 & H8 & H9).
    rewrite H1, H2, H3, H4, H5, H6, H7, H8, H9.
    unfold models, sandboxModes, workingDirectories, skips, efforts, networkAccesses,
      webSearches, policies, directories.
    destruct a as [m | m | d | | e | b | b | p | ds]; cbn [flat_map existsb app filter];
      cbn [threadOption];
      try (unfold WithModel; unfold nonBlank at 2; destruct (String.eqb m ""));
      try (unfold WithWorkingDirectory; unfold nonBlank at 4; destruct (String.eqb d ""));
      cbn -[last]; rewrite ?last_cons_default, ?orb_true_r, ?app_assoc;
      repeat split; reflexivity.
Qed.

(** X8: what a list of the options of the package leaves in the
    [ThreadOptions].  The model and the working directory are the last ones
    given that are not empty, so an empty one never clears an earlier one;
    the sandbox mode, the reasoning effort, the approval policy and the two
    switches are the last ones given, empty or not; the check of the
    repository is skipped once one option asked for it; the additional
    directories of all the options add up, in order. *)
Theorem applyThreadOptions_spec (os : list threadOpt) :
  let o := applyThreadOptions (map threadOption os) in
  ThreadOptions.Model o = last (filter nonBlank (models os)) ""
  /\ ThreadOptions.SandboxMode o = last (sandboxModes os) ""
  /\ ThreadOptions.WorkingDirectory o = last (filter nonBlank (workingDirectories os)) ""
  /\ ThreadOptions.SkipGitRepoCheck o = skips os
  /\ ThreadOptions.ModelReasoningEffort o = last (efforts os) ""
  /\ ThreadOptions.NetworkAccessEnabled o = last (networkAccesses os) None
  /\ ThreadOptions.WebSearchEnabled o = last (webSearches os) None
  /\ ThreadOptions.ApprovalPolicy o = last (policies os) ""
  /\ ThreadOptions.AdditionalDirectories o = directories os.
Proof.
  exact (applyThreadOptions_from os ThreadOptions.zero).
Qed.

(* ================================================================= *)
(** ** Finding the binary *)

(** X9: the target triple is the name of the processor, a dash and the name
    of the system, for the two processors and the four systems known
    ([android] as [linux]); any other pair is an error that names both. *)
Theorem resolveTargetTriple_spec (goos goarch : string) :
  resolveTargetTriple goos goarch
  = match cpuOf goarch, systemOf goos with
    | Some cpu, Some system => Ok (cpu ++ "-" ++ system)
    | _, _ => Err (errors_New ("unsupported platform " ++ goos ++ "/" ++ goarch))
    end.
Proof.
  unfold resolveTargetTriple, cpuOf, systemOf.
  destruct (String.eqb goos "linux"), (String.eqb goos "android"),
    (String.eqb goos "darwin"), (String.eqb goos "windows"),
    (String.eqb goarch "amd64"), (String.eqb goarch "arm64"); reflexivity.
Qed.



(* ================================================================= *)
(** ** The input of a turn *)

Lemma normalizeParts_valid (parts : list UserInput.t) :
  forallb validPart parts = true ->
  forall idx promptParts images,
    normalizeParts idx parts promptParts images
    = inl ((promptParts ++ textsOf parts)%list, (images ++ imagesOf parts)%list).
Proof.
  induction parts as [ | part parts IH]; cbn [forallb normalizeParts]; intros Hv idx pp imgs.
  - cbn. rewrite !app_nil_r. reflexivity.
  - apply andb_true_iff in Hv as [Hp Hv]. unfold validPart in Hp.
    unfold textsOf, imagesOf. cbn [flat_map]. fold (textsOf parts). fold (imagesOf parts).
    destruct (String.eqb (UserInput.Type_ part) InputText) eqn:Et.
    + apply String.eqb_eq in Et. rewrite Et. cbn [String.eqb Ascii.eqb Bool.eqb InputText
        InputLocalImage].
      rewrite (IH Hv). cbn. rewrite <- !app_assoc. reflexivity.
    + cbn in Hp. apply andb_true_iff in Hp as [Ei Hpath].
      rewrite Ei. apply negb_true_iff in Hpath. rewrite Hpath.
      rewrite (IH Hv). cbn. rewrite <- !app_assoc. reflexivity.
Qed.

Lemma normalizeParts_invalid (pre : list UserInput.t) (bad : UserInput.t)
    (post : list UserInput.t) :
  forallb validPart pre = true ->
  validPart bad = false ->
  forall idx promptParts images,
    normalizeParts idx (pre ++ bad :: post) promptParts images
    = inr (complaint (idx + List.length pre) bad).
Proof.
  intros Hv Hb. induction pre as [ | part pre IH]; intros idx pp imgs.
  - cbn [app normalizeParts List.length]. rewrite Nat.add_0_r.
    unfold validPart in Hb. unfold complaint.
    destruct (String.eqb (UserInput.Type_ bad) InputText); [discriminate | ].
    cbn in Hb.
    destruct (String.eqb (UserInput.Type_ bad) InputLocalImage).
    + cbn in Hb. apply negb_false_iff in Hb. rewrite Hb. reflexivity.
    + destruct (String.eqb (UserInput.Type_ bad) ""); reflexivity.
  - cbn [forallb] in Hv. apply andb_true_iff in Hv as [Hp Hv].
    cbn [app normalizeParts List.length]. unfold validPart in Hp.
    replace (idx + S (List.length pre))%nat with (S idx + List.length pre)%nat by lia.
    destruct (String.eqb (UserInput.Type_ part) InputText); [apply (IH Hv) | ].
    cbn in Hp. apply andb_true_iff in Hp as [Ei Hpath].
    rewrite Ei. apply negb_true_iff in Hpath. rewrite Hpath. apply (IH Hv).
Qed.

Lemma concat_single (sep s : string) :
  String.concat sep (if negb (String.eqb s "") then [s] else []) = s.
Proof.
  destruct (String.eqb s "") eqn:E; cbn; [ | reflexivity].
  apply String.eqb_eq in E. symmetry. exact E.
Qed.

(** X11: an input whose parts are all valid (texts, and local images with
    a path) is normalized to the prompt, if it is not empty, followed by
    the texts of the text parts, in order and joined by blank lines, and to
    the paths of the image parts, in order.  Without parts this is the
    prompt alone; a text part that is empty still takes its place in the
    join. *)
Theorem normalizeInput_valid (prompt : string) (parts : list UserInput.t) :
  forallb validPart parts = true ->
  normalizeInput {| Input.prompt := prompt; Input.parts := parts |}
  = inl (String.concat paragraph
           ((if negb (String.eqb prompt "") then [prompt] else []) ++ textsOf parts)%list,
         imagesOf parts).
Proof.
  intros Hv. unfold normalizeInput. cbn [Input.parts Input.prompt].
  destruct parts as [ | part parts].
  - cbn [textsOf imagesOf flat_map]. rewrite app_nil_r, concat_single. reflexivity.
  - rewrite (normalizeParts_valid _ Hv). reflexivity.
Qed.

Lemma normalizeInput_valid_witness :
  normalizeInput
    (Compose [TextPart "First part"; TextPart "Second part";
              ImagePart "/path/to/image.png"])
  = inl ("First part" ++ paragraph ++ "Second part", ["/path/to/image.png"]).
Proof.
  exact (normalizeInput_valid ""
           [TextPart "First part"; TextPart "Second part";
            ImagePart "/path/to/image.png"] eq_refl).
Defined.

(** X12: an input with a part that is not valid is refused with the
    complaint about the first such part, which names its index, counted
    from 0; what precedes it, what follows it and the prompt do not
    matter. *)
Theorem normalizeInput_invalid (prompt : string) (pre : list UserInput.t)
    (bad : UserInput.t) (post : list UserInput.t) :
  forallb validPart pre = true ->
  validPart bad = false ->
  normalizeInput {| Input.prompt := prompt; Input.parts := (pre ++ bad :: post)%list |}
  = inr (complaint (List.length pre) bad).
Proof.
  intros Hv Hb. unfold normalizeInput. cbn [Input.parts Input.prompt].
  destruct (pre ++ bad :: post)%list as [ | x l] eqn:E.
  - destruct pre; discriminate.
  - rewrite <- E. rewrite (normalizeParts_invalid pre bad post Hv Hb). reflexivity.
Qed.

Lemma normalizeInput_invalid_witness :
  normalizeInput (Compose [TextPart "Text"; ImagePart ""])
  = inr {| ErrInvalidInput.Field := "image path"; ErrInvalidInput.Value := "";
           ErrInvalidInput.Reason := "input part 1: local image path must be set" |}.
Proof.
  exact (normalizeInput_invalid "" [TextPart "Text"] (ImagePart "") [] eq_refl eq_refl).
Defined.

(* ================================================================= *)
(** ** Validation *)

Lemma trimLeftBy_blank (sp2 : ascii -> ascii -> bool)
    (sp3 : ascii -> ascii -> ascii -> bool) (s : string) :
  forallb isSpace1 (list_ascii_of_string s) = true -> trimLeftBy sp2 sp3 s = "".
Proof.
  induction s as [ | a r IH]; cbn [list_ascii_of_string forallb trimLeftBy];
    [reflexivity | ].
  intros H. apply andb_true_iff in H as [Ha Hr]. rewrite Ha. exact (IH Hr).
Qed.

Lemma chars_revOnto (s acc : string) (c : ascii) :
  In c (list_ascii_of_string (revOnto s acc))
  <-> In c (list_ascii_of_string s) \/ In c (list_ascii_of_string acc).
Proof.
  revert acc. induction s as [ | a s IH]; intros acc; cbn.
  - intuition.
  - rewrite IH. cbn. intuition.
Qed.

Lemma chars_reverse (s : string) (c : ascii) :
  In c (list_ascii_of_string (reverse s)) <-> In c (list_ascii_of_string s).
Proof.
  unfold reverse. rewrite chars_revOnto. cbn. intuition.
Qed.

(** Trimming removes white space only: a visible byte stays. *)
Lemma trimLeftBy_keeps (sp2 : ascii -> ascii -> bool)
    (sp3 : ascii -> ascii -> ascii -> bool) (c : ascii) :
  (forall a b, sp2 a b = true -> a <> c /\ b <> c) ->
  (forall a b d, sp3 a b d = true -> a <> c /\ b <> c /\ d <> c) ->
  isSpace1 c = false ->
  forall n s, (String.length s <= n)%nat ->
    In c (list_ascii_of_string s) ->
    In c (list_ascii_of_string (trimLeftBy sp2 sp3 s)).
Proof.
  intros H2 H3 Hc. induction n as [ | n IH]; intros s Hlen Hin.
  - destruct s; [exact Hin | simpl in Hlen; lia].
  - destruct s as [ | a r1]; [exact Hin | ].
    cbn [trimLeftBy]. cbn [String.length] in Hlen.
    destruct (isSpace1 a) eqn:Ea.
    + apply IH; [lia | ]. destruct Hin as [-> | Hin]; [congruence | exact Hin].
    + destruct r1 as [ | b r2]; [exact Hin | ]. cbn [String.length] in Hlen.
      destruct (sp2 a b) eqn:E2.
      * destruct (H2 a b E2) as [Na Nb]. apply IH; [lia | ].
        destruct Hin as [-> | [-> | Hin]]; [congruence | congruence | exact Hin].
      * destruct r2 as [ | d r3]; [exact Hin | ]. cbn [String.length] in Hlen.
        destruct (sp3 a b d) eqn:E3; [ | exact Hin].
        destruct (H3 a b d E3) as (Na & Nb & Nd). apply IH; [lia | ].
        destruct Hin as [-> | [-> | [-> | Hin]]]; try congruence; exact Hin.
Qed.

Lemma isSpace2_not_visible (a b c : ascii) :
  isSpace2 a b = true -> visible c = true -> a <> c /\ b <> c.
Proof.
  unfold isSpace2, visible. intros H Hv.
  apply andb_true_iff in Hv as [Hv _]. apply N.ltb_lt in Hv.
  apply andb_true_iff in H as [Ha Hb]. apply N.eqb_eq in Ha.
  apply orb_true_iff in Hb. rewrite !N.eqb_eq in Hb.
  split; intros ->; lia.
Qed.

Lemma isSpace3_not_visible (a b d c : ascii) :
  isSpace3 a b d = true -> visible c = true -> a <> c /\ b <> c /\ d <> c.
Proof.
  unfold isSpace3, visible. intros H Hv.
  apply andb_true_iff in Hv as [Hv _]. apply N.ltb_lt in Hv.
  rewrite !orb_true_iff, !andb_true_iff, !orb_true_iff, !andb_true_iff,
    !N.eqb_eq, !N.leb_le in H.
  repeat split; intros ->; lia.
Qed.

Lemma TrimSpace_keeps (s : string) (c : ascii) :
  visible c = true ->
  In c (list_ascii_of_string s) -> In c (list_ascii_of_string (TrimSpace s)).
Proof.
  intros Hv Hin.
  assert (Hc : isSpace1 c = false).
  { unfold visible in Hv. apply andb_true_iff in Hv as [_ Hv].
    apply negb_true_iff in Hv. exact Hv. }
  unfold TrimSpace. apply chars_reverse.
  eapply trimLeftBy_keeps; try exact Hc; try apply le_n.
  - intros a b H. destruct (isSpace2_not_visible b a c H Hv). split; assumption.
  - intros a b d H. destruct (isSpace3_not_visible d b a c H Hv) as (? & ? & ?).
    repeat split; assumption.
  - apply chars_reverse.
    eapply trimLeftBy_keeps; try exact Hc; try apply le_n; try exact Hin.
    + intros a b H. exact (isSpace2_not_visible a b c H Hv).
    + intros a b d H. exact (isSpace3_not_visible a b d c H Hv).
Qed.

(** X13: [validateNonEmpty] refuses a value made of spaces, tabs, newlines
    and the like, the empty one included, with an error that names the
    field and keeps the value as it was given, not trimmed; it accepts
    any value that has a visible ASCII byte in it. *)
Theorem validateNonEmpty_spec (field value : string) :
  (forallb isSpace1 (list_ascii_of_string value) = true ->
   validateNonEmpty field value
   = Some {| ErrInvalidInput.Field := field; ErrInvalidInput.Value := value;
             ErrInvalidInput.Reason := "must not be empty" |})
  /\ (existsb visible (list_ascii_of_string value) = true ->
      validateNonEmpty field value = None).
Proof.
  unfold validateNonEmpty. split.
  - intros H. unfold TrimSpace. rewrite (trimLeftBy_blank _ _ value H). reflexivity.
  - intros H. apply existsb_exists in H as (c & Hin & Hv).
    pose proof (TrimSpace_keeps value c Hv Hin) as Hk.
    destruct (TrimSpace value); [destruct Hk | reflexivity].
Qed.

(** X14: [validateExecutablePath] accepts a path exactly when it is not
    empty, the first [os.Stat] succeeds and the second one finds something
    that is no directory; every error it returns names the field and the
    path it was given; and when the two calls of [os.Stat] agree, the
    reason is never that the file cannot be examined. *)
Theorem validateExecutablePath_spec (isNotExist : error -> bool)
    (stat again : result FileInfo) (field path : string) :
  (validateExecutablePath isNotExist stat again field path = None
   <-> path <> "" /\ (exists info, stat = Ok info) /\ again = Ok {| IsDir := false |})
  /\ (forall err,
        validateExecutablePath isNotExist stat again field path = Some err ->
        ErrInvalidInput.Field err = field /\ ErrInvalidInput.Value err = path
        /\ (stat = again ->
            forall cause,
              ErrInvalidInput.Reason err <> "cannot stat file: " ++ Error cause)).
Proof.
  unfold validateExecutablePath, validatePath. split.
  - destruct (String.eqb_spec path "") as [-> | Hp].
    + split; [discriminate | intros [H _]; congruence].
    + destruct stat as [info | e].
      * destruct again as [[dir] | e']; [destruct dir | ]; cbn.
        -- split; [discriminate | intros (_ & _ & H); discriminate].
        -- split; [intros _; repeat split; [exact Hp | exists info; reflexivity] | reflexivity].
        -- split; [discriminate | intros (_ & _ & H); discriminate].
      * destruct (isNotExist e);
          (split; [discriminate | intros (_ & [info H] & _); discriminate]).
  - intros err.
    destruct (String.eqb_spec path "") as [-> | Hp].
    + intros H. inversion H; subst. cbn. repeat split. intros _ cause. discriminate.
    + destruct stat as [info | e].
      * destruct again as [[dir] | e']; [destruct dir | ]; intros H; inversion H; subst;
          cbn; repeat split; try discriminate.
      * destruct (isNotExist e); intros H; inversion H; subst; cbn; repeat split;
          intros _ cause; discriminate.
Qed.

(* ================================================================= *)
(** ** The output schema *)

(** X15: a schema passes [validateOutputSchema] exactly when it is the
    [nil] interface or when, behind its pointers and interfaces, there is
    a [nil] pointer or interface, a struct, a [nil] map, or a map whose keys
    are strings; a map with other keys is refused for its keys, and
    everything else (a string, a number, a slice, an array) for not being
    an object. *)
Theorem validateOutputSchema_accepts (schema : option GoValue) :
  validateOutputSchema schema
  = match schema with
    | None => None
    | Some v =>
        match reached v with
        | None | Some StructOf | Some (MapOf true _)
        | Some (MapOf false (reflect.Other reflect.String)) =>
            None
        | Some (MapOf false _) => Some notStringKeyed
        | Some _ => Some notAnObject
        end
    end.
Proof.
  destruct schema as [v | ]; [ | reflexivity]. cbn [validateOutputSchema].
  revert v. fix IH 1. intros [[elem | ] | [dynamic | ] | isNil key | | kind]; cbn.
  - apply IH.
  - reflexivity.
  - apply IH.
  - reflexivity.
  - destruct isNil; [reflexivity | ]. destruct key as [ | | | | []]; reflexivity.
  - reflexivity.
  - reflexivity.
Qed.


Lemma made_app (a b : list FsCall) : made (a ++ b) = (made a ++ made b)%list.
Proof. apply flat_map_app. Qed.

Lemma removed_app (a b : list FsCall) : removed (a ++ b) = (removed a ++ removed b)%list.
Proof. apply flat_map_app. Qed.

(** X17: a call of [RunStreamed] leaves no directory behind once it has
    failed or its task has ended.  Whatever the schema, the input, the
    answers of the file system and the fate of the command, the
    directories it made are those it asked to remove, at most one; without
    a schema it makes no call on the file system at all. *)
Theorem RunStreamed_removes_what_it_made (io : SchemaIO) (environ : list string)
    (spawn : Cmd -> Spawn) (sch : Schedule) (stop : ThreadEvent.t -> bool)
    (cfg : ThreadConfig) (t : Thread) (input : Input.t) (opts : list TurnOption) :
  let calls :=
    rs_calls (Thread_RunStreamed io environ spawn sch stop cfg t input opts) in
  made calls = removed calls
  /\ (List.length (made calls) <= 1)%nat
  /\ (TurnOptions.OutputSchema (applyTurnOptions opts) = None -> calls = []).
Proof.
  unfold Thread_RunStreamed, createOutputSchemaFile.
  destruct (TurnOptions.OutputSchema (applyTurnOptions opts)) as [v | ].
  - destruct (validateOutputSchema (Some v)) as [invalid | ];
      [cbn; repeat split; try lia; discriminate | ].
    destruct (os_MkdirTemp io) as [dir | e];
      [ | cbn; repeat split; try lia; discriminate].
    destruct (json_Marshal io) as [data | e];
      [ | cbn; repeat split; try lia; discriminate].
    destruct (os_WriteFile io) as [e | ];
      [cbn; repeat split; try lia; discriminate | ].
    destruct (normalizeInput input) as [[prompt images] | err];
      [ | cbn; repeat split; try lia; discriminate].
    match goal with |- context [Exec_Run_spawn ?s] => destruct (Exec_Run_spawn s) end;
      cbn; repeat split; try lia; discriminate.
  - destruct (normalizeInput input) as [[prompt images] | err];
      [ | cbn; repeat split; try lia; discriminate].
    match goal with |- context [Exec_Run_spawn ?s] => destruct (Exec_Run_spawn s) end;
      cbn; repeat split; try lia; discriminate.
Qed.

(* ================================================================= *)
(** ** More on the stream and the aggregator *)

(** X18: a context that is done when the task first looks at it stops the
    stream before anything is read: no event is delivered, the identity
    of the thread stays, the output is left unread, and [Wait] returns an
    error that [errors.Is] recognises as the error of the context, the
    error of the process appended to its text when there is one. *)
Theorem cancelled_before_the_first_read (sch : Schedule) (stop : ThreadEvent.t -> bool)
    (t : Thread) (p : Process) :
  cancelAt sch = Some 0%nat ->
  let run := streamTask sch stop t p in
  Events (sr_streamed run) = []
  /\ sr_thread run = t
  /\ le_unread (sr_loop run) = stdoutReader p
  /\ exists err,
       option_map fst (StreamedTurn_Wait (sr_streamed run)) = Some (Some err)
       /\ errors_Is err (ctxCause sch) = true
       /\ Error err
          = match waitFn p with
            | Some we =>
                if errors_Is (ctxCause sch) we then Error (ctxCause sch)
                else Error (ctxCause sch) ++ "; wait error: " ++ Error we
            | None => Error (ctxCause sch)
            end.
Proof.
  intros Hc run. unfold run, streamTask.
  assert (Hl : readLoop sch stop (stdoutReader p) (initialTask sch t)
               = {| le_state := observed (initialTask sch t);
                    le_runErr := Some (ctxCause sch);
                    le_unread := stdoutReader p |}).
  { unfold initialTask. rewrite Hc.
    destruct (stdoutReader p) as [ | [line readErr] reader]; reflexivity. }
  cbn [ExecStream_Wait Exec_Run es_waitOnce es_waitFn].
  rewrite Hl. cbn [le_state le_runErr le_unread sr_streamed sr_thread sr_loop Events
    observed initialTask ts_events ts_thread].
  repeat split.
  unfold StreamedTurn_Wait. cbn [waitOnce errCh option_map fst reconcile].
  destruct (waitFn p) as [we | ].
  - destruct (errors_Is (ctxCause sch) we) eqn:E; cbn [negb].
    + eexists. split; [reflexivity | ]. split; [apply errors_Is_refl | reflexivity].
    + eexists. split; [reflexivity | ]. apply fmt_Errorf_wait_keeps_both.
  - eexists. split; [reflexivity | ]. split; [apply errors_Is_refl | reflexivity].
Qed.

Lemma cancelled_before_the_first_read_witness :
  Events (sr_streamed
            (streamTask {| cancelAt := Some 0%nat; ctxCause := context_DeadlineExceeded;
                           lag := 0; chooseSend := fun _ => true |}
               drain (ResumeThread "saved") earlyExit))
  = [].
Proof.
  exact (proj1
    (cancelled_before_the_first_read
       {| cancelAt := Some 0%nat; ctxCause := context_DeadlineExceeded;
          lag := 0; chooseSend := fun _ => true |}
       drain (ResumeThread "saved") earlyExit eq_refl)).
Defined.

(** X19: what [Wait] returns after the events were drained, under a context
    that is not cancelled.  The error of the first line that does not
    decode comes first; without one, the error that ended the reading of
    the output, unless it is the end of the file; without that, nothing.
    The error of the process is then reconciled with it: returned alone,
    left out when [errors.Is] finds it in the first, or appended to its
    text. *)
Theorem Wait_after_draining (sch : Schedule) (t : Thread) (p : Process) :
  cancelAt sch = None ->
  option_map fst (StreamedTurn_Wait (sr_streamed (streamTask sch drain t p)))
  = Some
      (reconcile
         match firstFailure (nonBlankLines (stdoutBytes p)) with
         | Some err => Some (fmt_Errorf_w "parse codex event: " err)
         | None =>
             match stdoutErr p with
             | Some readErr =>
                 if errors_Is readErr io_EOF then None
                 else Some (fmt_Errorf_w "read codex output: " readErr)
             | None => None
             end
         end
         (waitFn p)).
Proof.
  intros Hc.
  destruct (streamTask_uncancelled sch drain t p Hc (unstopped_drain _)) as (_ & _ & R).
  unfold streamTask in *. cbn in R |- *. rewrite R.
  destruct (firstFailure (nonBlankLines (stdoutBytes p))); [reflexivity | ].
  destruct (stdoutErr p) as [readErr | ]; reflexivity.
Qed.

Lemma Wait_after_draining_witness :
  option_map fst
    (StreamedTurn_Wait (sr_streamed (streamTask calm drain StartThread garbageThenFail)))
  = Some (Some (fmt_Errorf_wait (parseFailure syntaxError)
                  (ErrExecFailed 3 "bad flag" (Some (ExitError (Exited 3)))))).
Proof.
  exact (Wait_after_draining calm StartThread garbageThenFail eq_refl).
Defined.

Lemma Run_loop_failure (events : list ThreadEvent.t) :
  forallb notFailed events = false ->
  forall s, turnFailure (Run_loop events s) <> None.
Proof.
  induction events as [ | e rest IH]; intros Hf s; [discriminate | ].
  cbn [forallb] in Hf. cbn [Run_loop].
  unfold notFailed, isTurnFailed in Hf.
  destruct (String.eqb (ThreadEvent.Type_ e) EventTurnFailed) eqn:He.
  - apply String.eqb_eq in He. rewrite He. cbn. discriminate.
  - cbn in Hf.
    destruct (String.eqb (ThreadEvent.Type_ e) EventItemCompleted);
      [destruct (ThreadEvent.Item e) | ];
      [ | | destruct (String.eqb (ThreadEvent.Type_ e) EventTurnCompleted)];
      apply (IH Hf).
Qed.

(** X20: [Thread.Run] returns a turn exactly when no event of the channel
    is [turn.failed] and the stream ends without error, and the turn is
    then the turn of all the events; in every other case it returns an
    error and no turn. *)
Theorem Run_returns_a_turn_iff (events : list ThreadEvent.t) (waitErr : option error)
    (turn : Turn.t) :
  Run_over events waitErr = Ok turn
  <-> forallb notFailed events = true /\ waitErr = None /\ turn = turnOf events.
Proof.
  unfold Run_over. split.
  - intros H. destruct (forallb notFailed events) eqn:Hf.
    + rewrite (Run_loop_no_failure events Hf) in H. unfold Run_return in H.
      cbn [turnFailure runStart] in H.
      destruct waitErr as [e | ]; [discriminate | ].
      inversion H. repeat split.
    + pose proof (Run_loop_failure events Hf runStart) as Hn.
      unfold Run_return in H.
      destruct (turnFailure (Run_loop events runStart)); [ | congruence].
      destruct waitErr as [e | ]; [ | discriminate].
      destruct (negb (errors_Is e context_Canceled)); discriminate.
  - intros (Hf & -> & ->). rewrite (Run_loop_no_failure events Hf). reflexivity.
Qed.

(** X21: [ExecStream.Wait] may be called again: the first call runs the
    function of the stream, if it has one, and every later call returns
    what the first returned, without running anything.  For the stream of
    a process the first call returns what [waitFn] computes. *)
Theorem ExecStream_Wait_once (s : ExecStream) (p : Process) :
  (let (first, waited) := ExecStream_Wait s in
   es_waitOnce waited = true
   /\ ExecStream_Wait waited = (first, waited)
   /\ (es_waitOnce s = true -> first = es_waitErr s /\ waited = s))
  /\ fst (ExecStream_Wait (Exec_Run p)) = waitFn p
  /\ fst (ExecStream_Wait (snd (ExecStream_Wait (Exec_Run p)))) = waitFn p.
Proof.
  split; [ | split; reflexivity].
  unfold ExecStream_Wait. destruct (es_waitOnce s) eqn:E.
  - rewrite E. repeat split; reflexivity.
  - cbn. repeat split; discriminate.
Qed.

(** X22: [waitFn] never loses the cause of what it reports.  It returns
    [nil] exactly when the write to the standard input and [cmd.Wait] both
    succeeded; the error it returns for a failed write wraps the error of
    the write, and the error it returns otherwise wraps the error of
    [cmd.Wait], so that [errors.Is] finds the cause in either, and
    [errors.As] still finds the [exec.ExitError] of a process that exited
    with a status. *)
Theorem waitFn_keeps_the_cause (p : Process) :
  (waitFn p = None <-> stdinWrite p = None /\ cmdWait p = None)
  /\ (forall writeErr,
        stdinWrite p = Some writeErr ->
        exists err, waitFn p = Some err /\ errors_Is err writeErr = true)
  /\ (forall cause,
        stdinWrite p = None -> cmdWait p = Some cause ->
        exists err,
          waitFn p = Some err /\ errors_Is err cause = true
          /\ errors_As_ExitError err = errors_As_ExitError cause).
Proof.
  unfold waitFn. split; [ | split].
  - destruct (stdinWrite p) as [w | ].
    + split; [discriminate | intros [H _]; discriminate].
    + destruct (cmdWait p) as [e | ].
      * destruct (errors_As_ExitError e);
          (split; [discriminate | intros [_ H]; discriminate]).
      * split; [intros _; split; reflexivity | reflexivity].
  - intros w ->. eexists. split; [reflexivity | ].
    unfold fmt_Errorf_w. cbn. rewrite errors_Is_refl. apply orb_true_r.
  - intros cause -> ->. destruct (errors_As_ExitError cause) as [st | ] eqn:E.
    + eexists. split; [reflexivity | ]. cbn. rewrite errors_Is_refl, E.
      split; [apply orb_true_r | reflexivity].
    + eexists. split; [reflexivity | ]. unfold fmt_Errorf_w. cbn.
      rewrite errors_Is_refl, E. split; [apply orb_true_r | reflexivity].
Qed.

(* ================================================================= *)
(** ** What the decoders keep *)

Lemma fold_setter_Err {A : Type} (field : Setter A)
    (members : list (string * (string * json))) (e : error) :
  fold_left (fun acc m => x <- acc ;; field (fst m) (fst (snd m)) (snd (snd m)) x)
    members (Err e)
  = Err e.
Proof. induction members as [ | m members IH]; [reflexivity | exact IH]. Qed.

(** What every member keeps, the whole object keeps. *)
Lemma fold_setter_invariant {A : Type} (field : Setter A) (P : A -> Prop) :
  (forall key raw v x x', field key raw v x = Ok x' -> P x -> P x') ->
  forall members x x',
    fold_left (fun acc m => y <- acc ;; field (fst m) (fst (snd m)) (snd (snd m)) y)
      members (Ok x) = Ok x' ->
    P x -> P x'.
Proof.
  intros Hstep. induction members as [ | m members IH]; cbn; intros x x' H Hx.
  - inversion H; subst. exact Hx.
  - destruct (field (fst m) (fst (snd m)) (snd (snd m)) x) as [x1 | e] eqn:E.
    + exact (IH x1 x' H (Hstep _ _ _ _ _ E Hx)).
    + rewrite fold_setter_Err in H. discriminate.
Qed.

Lemma json_Unmarshal_invariant {A : Type} (field : Setter A) (P : A -> Prop) :
  (forall key raw v x x', field key raw v x = Ok x' -> P x -> P x') ->
  forall goType data x x',
    json_Unmarshal field goType data x = Ok x' -> P x -> P x'.
Proof.
  intros Hstep goType data x x' H Hx. unfold json_Unmarshal in H.
  destruct (parseJSON data) as [[raw v] | e]; [ | discriminate].
  cbn in H. destruct v; try discriminate.
  - inversion H; subst. exact Hx.
  - exact (fold_setter_invariant field P Hstep _ _ _ H Hx).
Qed.

Lemma lowerString_fieldIs (name key : string) :
  lowerString name = name -> fieldIs name key = true -> lowerString key = name.
Proof.
  unfold fieldIs. intros Hn H. apply orb_true_iff in H as [H | H];
    apply String.eqb_eq in H; congruence.
Qed.

(** A key is the key of one field. *)
Lemma fieldIs_one (a b key : string) :
  lowerString a = a -> lowerString b = b -> a <> b ->
  fieldIs a key = true -> fieldIs b key = false.
Proof.
  intros Ha Hb Hne H. destruct (fieldIs b key) eqn:E; [ | reflexivity].
  exfalso. apply Hne.
  rewrite <- (lowerString_fieldIs a key Ha H). apply (lowerString_fieldIs b key Hb E).
Qed.

Lemma fold_readsType {A : Type} (field : Setter A) (ty : A -> string) :
  readsType field ty ->
  forall members d x d' x',
    fold_left
      (fun acc m => y <- acc ;; discriminator_field (fst m) (fst (snd m)) (snd (snd m)) y)
      members (Ok d) = Ok d' ->
    fold_left (fun acc m => y <- acc ;; field (fst m) (fst (snd m)) (snd (snd m)) y)
      members (Ok x) = Ok x' ->
    ty x = d -> ty x' = d'.
Proof.
  intros Hr. induction members as [ | m members IH]; cbn; intros d x d' x' Hd Hx Heq.
  - inversion Hd; inversion Hx; subst. reflexivity.
  - destruct (discriminator_field (fst m) (fst (snd m)) (snd (snd m)) d) as [d1 | e] eqn:Ed;
      [ | rewrite fold_setter_Err in Hd; discriminate].
    destruct (field (fst m) (fst (snd m)) (snd (snd m)) x) as [x1 | e] eqn:Ex;
      [ | rewrite fold_setter_Err in Hx; discriminate].
    apply (IH d1 x1 d' x' Hd Hx).
    pose proof (Hr _ _ _ _ _ Ex) as Hs. unfold discriminator_field in Ed.
    destruct (fieldIs "type" (fst m)).
    + rewrite Heq in Hs. congruence.
    + inversion Ed; subst. exact Hs.
Qed.

Lemma json_Unmarshal_readsType {A : Type} (field : Setter A) (ty : A -> string) :
  readsType field ty ->
  forall goType data x d' x',
    discriminatorOf data = Ok d' ->
    json_Unmarshal field goType data x = Ok x' ->
    ty x = "" -> ty x' = d'.
Proof.
  intros Hr goType data x d' x' Hd Hx Heq.
  unfold discriminatorOf, json_Unmarshal in *.
  destruct (parseJSON data) as [[raw v] | e]; [ | discriminate].
  cbn in Hd, Hx. destruct v; try discriminate.
  - inversion Hd; inversion Hx; subst. exact Heq.
  - exact (fold_readsType field ty Hr _ _ _ _ _ Hd Hx Heq).
Qed.

Ltac other_field :=
  repeat match goal with
    | H : (if fieldIs ?n ?key then _ else _) = Ok _ |- _ => destruct (fieldIs n key)
    | H : bind ?r _ = Ok _ |- _ => destruct r; cbn in H; [ | discriminate]
    | H : Ok _ = Ok _ |- _ => inversion H; subst; clear H
    end;
  try reflexivity.

Ltac reads_type :=
  intros key raw v x x';
  destruct (fieldIs "type" key) eqn:Et;
  [ try rewrite (fieldIs_one "type" "id" key eq_refl eq_refl ltac:(discriminate) Et);
    intros H;
    match goal with
    | H : bind ?r _ = Ok _ |- _ => destruct r; cbn in H; [ | discriminate]
    end;
    inversion H; subst; reflexivity
  | intros H; other_field ].

Lemma AgentMessageItem_readsType : readsType AgentMessageItem.field AgentMessageItem.Type_.
Proof. unfold readsType, AgentMessageItem.field. reads_type. Qed.

Lemma ReasoningItem_readsType : readsType ReasoningItem.field ReasoningItem.Type_.
Proof. unfold readsType, ReasoningItem.field. reads_type. Qed.

Lemma CommandExecutionItem_readsType :
  readsType CommandExecutionItem.field CommandExecutionItem.Type_.
Proof. unfold readsType, CommandExecutionItem.field. reads_type. Qed.

Lemma FileChangeItem_readsType : readsType FileChangeItem.field FileChangeItem.Type_.
Proof. unfold readsType, FileChangeItem.field. reads_type. Qed.

Lemma McpToolCallItem_readsType : readsType McpToolCallItem.field McpToolCallItem.Type_.
Proof. unfold readsType, McpToolCallItem.field. reads_type. Qed.

Lemma WebSearchItem_readsType : readsType WebSearchItem.field WebSearchItem.Type_.
Proof. unfold readsType, WebSearchItem.field. reads_type. Qed.

Lemma TodoListItem_readsType : readsType TodoListItem.field TodoListItem.Type_.
Proof. unfold readsType, TodoListItem.field. reads_type. Qed.

Lemma ErrorItem_readsType : readsType ErrorItem.field ErrorItem.Type_.
Proof. unfold readsType, ErrorItem.field. reads_type. Qed.

Ltac known_kind Hrt Hd H :=
  revert H; destruct (json_Unmarshal _ _ _ _) as [decoded | ] eqn:Hj; cbn [bind];
  [ | discriminate]; intros H; inversion H; subst; clear H;
  cbn [itemType typeField GetID];
  split; [reflexivity | ];
  split; [exact (json_Unmarshal_readsType _ _ Hrt _ _ _ _ _ Hd Hj eq_refl) | ];
  split; [discriminate | left; unfold knownItemTypes; cbn [In]; auto 12].

(** X23: the item that [unmarshalThreadItem] returns is of the kind that
    the discriminator names: its [itemType] is the discriminator, which is
    not empty, and so is the [Type] field of its struct; for an unknown
    kind the identifier of the item is empty. *)
Theorem unmarshalThreadItem_kind (data : string) (item : ThreadItem) :
  unmarshalThreadItem data = Ok item ->
  discriminatorOf data = Ok (itemType item)
  /\ typeField item = itemType item
  /\ itemType item <> ""
  /\ (In (itemType item) knownItemTypes \/ GetID item = "").
Proof.
  unfold unmarshalThreadItem. intros H.
  destruct (discriminatorOf data) as [ty | e] eqn:Hd; [ | discriminate].
  cbn [bind] in H.
  destruct (String.eqb_spec ty ItemAgentMessage) as [-> | _].
  { known_kind AgentMessageItem_readsType Hd H. }
  destruct (String.eqb_spec ty ItemReasoning) as [-> | _].
  { known_kind ReasoningItem_readsType Hd H. }
  destruct (String.eqb_spec ty ItemCommandExecution) as [-> | _].
  { known_kind CommandExecutionItem_readsType Hd H. }
  destruct (String.eqb_spec ty ItemFileChange) as [-> | _].
  { known_kind FileChangeItem_readsType Hd H. }
  destruct (String.eqb_spec ty ItemMcpToolCall) as [-> | _].
  { known_kind McpToolCallItem_readsType Hd H. }
  destruct (String.eqb_spec ty ItemWebSearch) as [-> | _].
  { known_kind WebSearchItem_readsType Hd H. }
  destruct (String.eqb_spec ty ItemTodoList) as [-> | _].
  { known_kind TodoListItem_readsType Hd H. }
  destruct (String.eqb_spec ty ItemError) as [-> | _].
  { known_kind ErrorItem_readsType Hd H. }
  destruct (String.eqb_spec ty "") as [-> | Hne]; [discriminate | ].
  inversion H; subst. cbn. repeat split; try assumption. right. reflexivity.
Qed.

Lemma unmarshalThreadItem_kind_witness :
  discriminatorOf (js "{'id':'3','Type':'command_execution','command':'ls'}")
  = Ok ItemCommandExecution.
Proof.
  exact (proj1
    (unmarshalThreadItem_kind
       (js "{'id':'3','Type':'command_execution','command':'ls'}")
       (CommandExecution
          {| CommandExecutionItem.ID := "3";
             CommandExecutionItem.Type_ := "command_execution";
             CommandExecutionItem.Command := "ls";
             CommandExecutionItem.AggregatedOutput := "";
             CommandExecutionItem.ExitCode := None;
             CommandExecutionItem.Status := "" |})
       eq_refl)).
Defined.

Lemma aux_field_Item (key raw : string) (v : json) (a a' : eventAux) :
  aux_field key raw v a = Ok a' ->
  ThreadEvent.Item (aux_event a) = None -> ThreadEvent.Item (aux_event a') = None.
Proof.
  unfold aux_field. intros H Hi.
  repeat match goal with
    | H : (if fieldIs ?n ?key then _ else _) = Ok _ |- _ => destruct (fieldIs n key)
    | H : bind ?r _ = Ok _ |- _ => destruct r; cbn in H; [ | discriminate]
    | H : Ok _ = Ok _ |- _ => inversion H; subst; clear H
    end; exact Hi.
Qed.

(** X24: in an event that decoded, the item is there exactly when the raw
    text of the [item] member is not empty, and it is what
    [unmarshalThreadItem] makes of that text: the item kept raw and the
    item decoded never disagree. *)
Theorem decoded_event_item (data : string) (event : ThreadEvent.t) :
  json_Unmarshal_ThreadEvent data = Ok event ->
  match ThreadEvent.Item event with
  | Some item =>
      ThreadEvent.rawItem event <> ""
      /\ unmarshalThreadItem (ThreadEvent.rawItem event) = Ok item
  | None => ThreadEvent.rawItem event = ""
  end.
Proof.
  unfold json_Unmarshal_ThreadEvent, ThreadEvent_UnmarshalJSON. intros H.
  destruct (parseJSON data) as [[raw v] | e]; [ | discriminate].
  cbn [bind fst] in H.
  destruct (decodeAux raw) as [aux | e] eqn:Ha; [ | discriminate].
  cbn [bind] in H.
  assert (Hi : ThreadEvent.Item (aux_event aux) = None).
  { exact (json_Unmarshal_invariant aux_field
             (fun a => ThreadEvent.Item (aux_event a) = None)
             aux_field_Item _ _ _ _ Ha eq_refl). }
  destruct (aux_Item aux) as [ | c r] eqn:Hr; cbn [String.length Nat.ltb Nat.leb] in H.
  - inversion H; subst. cbn. rewrite Hi. reflexivity.
  - destruct (unmarshalThreadItem (String c r)) as [item | e] eqn:Hu; [ | discriminate].
    inversion H; subst. cbn. split; [discriminate | exact Hu].
Qed.

Lemma decoded_event_item_witness :
  unmarshalThreadItem (js "{'id':'1','type':'agent_message','text':'Hello'}")
  = Ok (AgentMessage {| AgentMessageItem.ID := "1";
                        AgentMessageItem.Type_ := "agent_message";
                        AgentMessageItem.Text := "Hello" |}).
Proof.
  exact (proj2
    (decoded_event_item
       (js "{'type':'item.completed','item':{'id':'1','type':'agent_message','text':'Hello'}}")
       {| ThreadEvent.Type_ := EventItemCompleted; ThreadEvent.ThreadID := "";
          ThreadEvent.Usage := None; ThreadEvent.Error_ := None;
          ThreadEvent.Item :=
            Some (AgentMessage {| AgentMessageItem.ID := "1";
                                  AgentMessageItem.Type_ := "agent_message";
                                  AgentMessageItem.Text := "Hello" |});
          ThreadEvent.Message := "";
          ThreadEvent.rawItem := js "{'id':'1','type':'agent_message','text':'Hello'}" |}
       eq_refl)).
Defined.

(* ================================================================= *)
(** ** From one turn to the next *)

Lemma RunStreamed_task (io : SchemaIO) (environ : list string) (spawn : Cmd -> Spawn)
    (sch : Schedule) (stop : ThreadEvent.t -> bool) (cfg : ThreadConfig) (t : Thread)
    (input : Input.t) (opts : list TurnOption) (run : StreamRun) :
  rs_result (Thread_RunStreamed io environ spawn sch stop cfg t input opts) = inl run ->
  exists p, run = streamTask sch stop t p.
Proof.
  unfold Thread_RunStreamed.
  destruct (createOutputSchemaFile io _) as [[schemaFile | err] calls]; [ | discriminate].
  destruct (normalizeInput input) as [[prompt images] | err]; [ | discriminate].
  destruct (Exec_Run_spawn _) as [p | err]; [ | discriminate].
  cbn. intros H. inversion H. exists p. reflexivity.
Qed.

Lemma RunStreamed_cmd (io : SchemaIO) (environ : list string) (spawn : Cmd -> Spawn)
    (sch : Schedule) (stop : ThreadEvent.t -> bool) (cfg : ThreadConfig) (t : Thread)
    (input : Input.t) (opts : list TurnOption) (cmd : Cmd) :
  rs_cmd (Thread_RunStreamed io environ spawn sch stop cfg t input opts) = Some cmd ->
  exists prompt images schemaPath,
    normalizeInput input = inl (prompt, images)
    /\ cmd = Exec_Run_cmd (tc_exec cfg) environ
               (turnExecArgs cfg t prompt images schemaPath).
Proof.
  unfold Thread_RunStreamed.
  destruct (createOutputSchemaFile io _) as [[schemaFile | err] calls]; [ | discriminate].
  destruct (normalizeInput input) as [[prompt images] | err]; [ | discriminate].
  destruct (Exec_Run_spawn _) as [p | err]; cbn; intros H; inversion H;
    exists prompt, images, (osf_path schemaFile); split; reflexivity.
Qed.

(** X25: the identity that one turn learns is the one the next turn
    resumes.  After a turn whose events were drained under a context that
    was not cancelled, the command of the next turn of the thread is the
    command of a thread resumed with the identifier of the last
    [thread.started] event of the turn (the identifier the thread had, when
    there was none); when that identifier is not empty, the command line
    ends with [resume] and the identifier. *)
Theorem next_turn_resumes (io io' : SchemaIO) (environ environ' : list string)
    (spawn spawn' : Cmd -> Spawn) (sch sch' : Schedule) (stop' : ThreadEvent.t -> bool)
    (cfg : ThreadConfig) (t : Thread) (input input' : Input.t)
    (opts opts' : list TurnOption) (run : StreamRun) (cmd' : Cmd) :
  cancelAt sch = None ->
  rs_result (Thread_RunStreamed io environ spawn sch drain cfg t input opts) = inl run ->
  rs_cmd (Thread_RunStreamed io' environ' spawn' sch' stop' cfg (sr_thread run)
            input' opts') = Some cmd' ->
  let known := lastStarted (Events (sr_streamed run)) (ID t) in
  (exists prompt images schemaPath,
      cmd' = Exec_Run_cmd (tc_exec cfg) environ'
               (turnExecArgs cfg (ResumeThread known) prompt images schemaPath))
  /\ (known <> "" -> exists front, Args cmd' = (front ++ ["resume"; known])%list).
Proof.
  intros Hc Hrun Hcmd known.
  destruct (RunStreamed_task _ _ _ _ _ _ _ _ _ _ Hrun) as [p ->].
  destruct (streamTask_uncancelled sch drain t p Hc (unstopped_drain _)) as (_ & I & _).
  fold known in I.
  destruct (RunStreamed_cmd _ _ _ _ _ _ _ _ _ _ Hcmd)
    as (prompt & images & schemaPath & _ & ->).
  assert (Ht : sr_thread (streamTask sch drain t p) = ResumeThread known).
  { destruct (sr_thread (streamTask sch drain t p)) as [i]. cbn in I. subst i.
    reflexivity. }
  rewrite Ht. split.
  - exists prompt, images, schemaPath. reflexivity.
  - intros Hk. cbn [Args Exec_Run_cmd]. rewrite commandArgs_parts.
    change (ExecArgs.ThreadID
              (turnExecArgs cfg (ResumeThread known) prompt images schemaPath))
      with known.
    replace (flagged "resume" known) with ["resume"; known]
      by (unfold flagged; apply String.eqb_neq in Hk; rewrite Hk; reflexivity).
    eexists. rewrite app_comm_cons. rewrite !app_assoc. reflexivity.
Qed.

Lemma next_turn_resumes_witness :
  exists front,
    Args (Exec_Run_cmd (tc_exec gpt) []
            (turnExecArgs gpt (ResumeThread "thread-B") "and then?" [] ""))
    = (front ++ ["resume"; "thread-B"])%list.
Proof.
  refine (proj2
    (next_turn_resumes obliging obliging [] [] (fun _ => Started startedTwice)
       (fun _ => Started threeLines) calm calm drain gpt StartThread
       (Text "hello") (Text "and then?") [] []
       (streamTask calm drain StartThread startedTwice)
       (Exec_Run_cmd (tc_exec gpt) []
          (turnExecArgs gpt (ResumeThread "thread-B") "and then?" [] ""))
       eq_refl eq_refl eq_refl) _).
  discriminate.
Defined.

Lemma Thread_Run_clean_witness :
  Thread_Run calm None StartThread startedTwice
  = Some (Ok (turnOf (decodedPrefix (nonBlankLines (stdoutBytes startedTwice)))),
          ResumeThread "thread-B").
Proof.
  exact (Thread_Run_clean calm StartThread startedTwice eq_refl eq_refl eq_refl eq_refl
           eq_refl).
Defined.

(* ================================================================= *)
(** ** How an event reads *)

Lemma append_empty_r (s : string) : s ++ "" = s.
Proof. induction s as [ | c s IH]; cbn; [reflexivity | rewrite IH; reflexivity]. Qed.

(** The text begins with the type, and is the type for an event that has
    nothing to show. *)
Lemma ThreadEvent_String_prefix (quote : string -> string) (e : ThreadEvent.t) :
  (exists rest, ThreadEvent_String quote e = ThreadEvent.Type_ e ++ rest)
  /\ (ThreadEvent.ThreadID e = "" -> ThreadEvent.Usage e = None ->
      ThreadEvent.Error_ e = None -> ThreadEvent.Item e = None ->
      ThreadEvent.Message e = "" ->
      ThreadEvent_String quote e = ThreadEvent.Type_ e).
Proof.
  unfold ThreadEvent_String. cbv zeta.
  destruct (String.eqb_spec (ThreadEvent.Type_ e) EventThreadStarted) as [-> | _].
  { split.
    - destruct (negb (String.eqb (ThreadEvent.ThreadID e) ""));
        eexists; [reflexivity | symmetry; apply append_empty_r].
    - intros -> _ _ _ _. reflexivity. }
  destruct (String.eqb_spec (ThreadEvent.Type_ e) EventTurnStarted) as [-> | _].
  { split; [exists ""; reflexivity | reflexivity]. }
  destruct (String.eqb_spec (ThreadEvent.Type_ e) EventTurnCompleted) as [-> | _].
  { split.
    - destruct (ThreadEvent.Usage e); eexists; [reflexivity | symmetry; apply append_empty_r].
    - intros _ -> _ _ _. reflexivity. }
  destruct (String.eqb_spec (ThreadEvent.Type_ e) EventTurnFailed) as [-> | _].
  { split.
    - destruct (ThreadEvent.Error_ e); eexists;
        [reflexivity | symmetry; apply append_empty_r].
    - intros _ _ -> _ _. reflexivity. }
  destruct (String.eqb (ThreadEvent.Type_ e) EventItemStarted
            || String.eqb (ThreadEvent.Type_ e) EventItemUpdated
            || String.eqb (ThreadEvent.Type_ e) EventItemCompleted).
  { split.
    - destruct (ThreadEvent.Item e); eexists;
        [reflexivity | symmetry; apply append_empty_r].
    - intros _ _ _ -> _. reflexivity. }
  destruct (String.eqb_spec (ThreadEvent.Type_ e) EventError) as [-> | _].
  { split.
    - destruct (negb (String.eqb (ThreadEvent.Message e) ""));
        eexists; [reflexivity | symmetry; apply append_empty_r].
    - intros _ _ _ _ ->. reflexivity. }
  split; [exists ""; symmetry; apply append_empty_r | reflexivity].
Qed.

(** A type that shows no field falls through every case but that of
    [turn.started]. *)
Lemma ThreadEvent_String_plain (quote : string -> string) (e : ThreadEvent.t) :
  ~ In (ThreadEvent.Type_ e)
      [EventThreadStarted; EventTurnCompleted; EventTurnFailed; EventItemStarted;
       EventItemUpdated; EventItemCompleted; EventError] ->
  ThreadEvent_String quote e = ThreadEvent.Type_ e.
Proof.
  intros Hn.
  assert (Hne : forall ty,
             In ty [EventThreadStarted; EventTurnCompleted; EventTurnFailed;
                    EventItemStarted; EventItemUpdated; EventItemCompleted; EventError] ->
             String.eqb (ThreadEvent.Type_ e) ty = false).
  { intros ty Hin. apply String.eqb_neq. intros Heq. apply Hn. rewrite Heq. exact Hin. }
  unfold ThreadEvent_String. cbv zeta.
  rewrite (Hne EventThreadStarted), (Hne EventTurnCompleted), (Hne EventTurnFailed),
    (Hne EventItemStarted), (Hne EventItemUpdated), (Hne EventItemCompleted),
    (Hne EventError) by (cbn; auto 10).
  cbn [orb].
  destruct (String.eqb_spec (ThreadEvent.Type_ e) EventTurnStarted) as [-> | _];
    reflexivity.
Qed.

(** X26: the text of an event begins with the type of the event, whatever
    the event and however strings are quoted.  An event without anything
    to show reads as its type alone; so does, whatever its fields hold, an
    event of a type that shows none of them: [turn.started], and every
    type that is not known. *)
Theorem ThreadEvent_String_begins_with_the_type (quote : string -> string)
    (e : ThreadEvent.t) :
  (exists rest, ThreadEvent_String quote e = ThreadEvent.Type_ e ++ rest)
  /\ (ThreadEvent.ThreadID e = "" -> ThreadEvent.Usage e = None ->
      ThreadEvent.Error_ e = None -> ThreadEvent.Item e = None ->
      ThreadEvent.Message e = "" ->
      ThreadEvent_String quote e = ThreadEvent.Type_ e)
  /\ (~ In (ThreadEvent.Type_ e)
          [EventThreadStarted; EventTurnCompleted; EventTurnFailed; EventItemStarted;
           EventItemUpdated; EventItemCompleted; EventError] ->
      ThreadEvent_String quote e = ThreadEvent.Type_ e).
Proof.
  destruct (ThreadEvent_String_prefix quote e) as [Hp Hn].
  split; [exact Hp | ]. split; [exact Hn | ].
  apply ThreadEvent_String_plain.
Qed.

